(** * add_files_simple.py: the Xcode project file updater

    A shallow embedding of [src/add_files_simple.py] and the properties of
    its natural-language specification.

    Conventions of the embedding.
    - A Python [str] is a [text], a list of characters: the bytes of the
      string's UTF-8 form, a lone surrogate (what Python makes of a byte of
      a file name that is not part of a well-formed sequence) being that
      byte.  The patterns and the inserted fragments of the script are
      ASCII, and no ASCII character occurs inside a multi-byte sequence, so
      searching and slicing do the same on the bytes as on the characters.
      Files are opened with the encoding UTF-8, the default where Xcode
      runs: a file decodes, and a [str] can be written, exactly when the
      bytes are well-formed UTF-8 ([utf8]).
    - The file system is modelled by kinds, contents and permissions: what
      sits at the manifest's path, and whether it may be read, written or
      created.  Standard output takes every line it is given: the paths
      printed are not checked against its encoding.
    - [re.search] and [re.findall] are embedded for the fragment of regular
      expressions the script uses: literals and greedy [[^c]+] runs, with
      the backtracking order of Python's engine.
    - The object fields ([self.project_content], ...) are a record
      [updater]; the file system, the console and the number of random
      draws are a record [world]; a method is a function of both that
      returns normally or raises.
    - What the script takes from the Python runtime and the model leaves
      open is a record [runtime]: the random bytes of [os.urandom], the
      iteration order of a [set], and [re.search] on a pattern built from a
      group name that holds regular-expression metacharacters. *)

From Stdlib Require Import ZArith Ascii String List Lia.
From Stdlib Require Import Numbers.DecimalString.
From stdpp Require Import base list gmap strings sets.

Open Scope char_scope.

(** ** Texts *)

Abbreviation text := (list ascii).

Definition str (s : string) : text := list_ascii_of_string s.

Definition TAB : ascii := "009".
Definition LF : ascii := "010".
Definition CR : ascii := "013".
Definition DQUOTE : ascii := "034".

(** [sep.join(l)] *)
Fixpoint join (sep : text) (l : list text) : text :=
  match l with
  | [] => []
  | [x] => x
  | x :: l' => x ++ sep ++ join sep l'
  end.

(** [s.strip(c)] for a one-character argument: every leading and every
    trailing [c] is removed. *)
Fixpoint lstrip (c : ascii) (t : text) : text :=
  match t with
  | x :: t' => if decide (x = c) then lstrip c t' else t
  | [] => []
  end.

Definition rstrip (c : ascii) (t : text) : text :=
  reverse (lstrip c (reverse t)).

Definition strip (c : ascii) (t : text) : text := rstrip c (lstrip c t).

(** [s[:pos] + new + s[pos:]], the only way the script changes the
    manifest text.  [take] and [drop] clamp like Python's slices. *)
Definition splice (t : text) (pos : nat) (new : text) : text :=
  take pos t ++ new ++ drop pos t.

(** [str(n)] for a natural number *)
Definition decimal (n : nat) : text :=
  str (NilZero.string_of_uint (Nat.to_uint n)).

(** ** The encoding of files *)

Definition code (c : ascii) : nat := nat_of_ascii c.

(** A continuation byte, and the second byte a three-byte and a four-byte
    sequence may have behind the lead byte [x]: no overlong form, no
    surrogate, nothing above U+10FFFF. *)
Definition continuation (y : nat) : bool := ((128 <=? y) && (y <=? 191))%nat.

Definition second_of_three (x y : nat) : bool :=
  (if x =? 224 then (160 <=? y) && (y <=? 191)
   else if x =? 237 then (128 <=? y) && (y <=? 159)
   else continuation y)%nat.

Definition second_of_four (x y : nat) : bool :=
  (if x =? 240 then (144 <=? y) && (y <=? 191)
   else if x =? 244 then (128 <=? y) && (y <=? 143)
   else continuation y)%nat.

(** Well-formed UTF-8: what [bytes.decode('utf-8')] accepts, and what a
    [str] must be for [str.encode('utf-8')] to accept it. *)
Fixpoint utf8 (t : text) : bool :=
  match t with
  | [] => true
  | a :: t1 =>
      if (code a <? 128)%nat then utf8 t1
      else
        match t1 with
        | [] => false
        | b :: t2 =>
            if ((194 <=? code a) && (code a <=? 223))%nat
            then continuation (code b) && utf8 t2
            else
              match t2 with
              | [] => false
              | c :: t3 =>
                  if ((224 <=? code a) && (code a <=? 239))%nat
                  then second_of_three (code a) (code b)
                       && continuation (code c) && utf8 t3
                  else
                    match t3 with
                    | [] => false
                    | d :: t4 =>
                        ((240 <=? code a) && (code a <=? 244))%nat
                        && second_of_four (code a) (code b)
                        && continuation (code c) && continuation (code d)
                        && utf8 t4
                    end
              end
        end
  end.

(** ** Regular expressions *)

Module Re.

(** The fragment of [re] syntax the script's patterns are written in:
    a pattern is a sequence of literal strings and greedy runs [[^c]+].
    Capturing parentheses do not change where a match starts or ends and
    are left out; the one group that is read is recovered from the
    match (see [findall]). *)
Inductive item :=
| Lit (s : text)
| NotPlus (c : ascii).

Definition regex := list item.

(** Number of leading characters different from [c]: the most a greedy
    [[^c]+] can take. *)
Fixpoint run_length (c : ascii) (t : text) : nat :=
  match t with
  | x :: t' => if decide (x = c) then 0 else S (run_length c t')
  | [] => 0
  end.

(** Backtracking of a greedy repeat: the longest run is tried first, then
    one character less, down to one character. *)
Fixpoint try_down (f : nat -> option nat) (k : nat) : option nat :=
  match k with
  | 0 => None
  | S k' =>
      match f k with
      | Some n => Some (k + n)
      | None => try_down f k'
      end
  end.

(** [match_at r t]: the pattern matched at the start of [t]; the result
    is the length of the match. *)
Fixpoint match_at (r : regex) (t : text) : option nat :=
  match r with
  | [] => Some 0
  | Lit s :: r' =>
      if decide (take (length s) t = s)
      then match match_at r' (drop (length s) t) with
           | Some n => Some (length s + n)
           | None => None
           end
      else None
  | NotPlus c :: r' =>
      try_down (fun k => match_at r' (drop k t)) (run_length c t)
  end.

(** [re.search]: the leftmost position where the pattern matches;
    [(m.start(), m.end())]. *)
Fixpoint search_from (r : regex) (pos : nat) (t : text) : option (nat * nat) :=
  match match_at r t with
  | Some n => Some (pos, pos + n)
  | None =>
      match t with
      | [] => None
      | _ :: t' => search_from r (S pos) t'
      end
  end.

Definition search (r : regex) (t : text) : option (nat * nat) :=
  search_from r 0 t.

(** [re.findall] for a pattern [Lit p :: ... ++ [Lit q]] whose single
    group spans everything between the first and the last item: matches
    are taken left to right without overlap, and each contributes the
    text of its group.  [skip] counts the characters of the previous
    match still to be passed over.  No pattern of the script matches the
    empty string. *)
Fixpoint findall_from (r : regex) (p q : nat) (skip : nat) (t : text) : list text :=
  match t with
  | [] => []
  | _ :: t' =>
      match skip with
      | S k => findall_from r p q k t'
      | 0 =>
          match match_at r t with
          | Some n => take (n - p - q) (drop p t) :: findall_from r p q (n - 1) t'
          | None => findall_from r p q 0 t'
          end
      end
  end.

Definition findall (r : regex) (p q : nat) (t : text) : list text :=
  findall_from r p q 0 t.

End Re.

(** The patterns of the script. *)

(** [r'path = ([^;]+\.swift);'] *)
Definition swift_pattern : Re.regex :=
  [Re.Lit (str "path = "); Re.NotPlus ";"; Re.Lit (str ".swift"); Re.Lit (str ";")].

(** [r'/\* End PBXBuildFile section \*/'] *)
Definition build_section_pattern : Re.regex :=
  [Re.Lit (str "/* End PBXBuildFile section */")].

(** [r'/\* End PBXFileReference section \*/'] *)
Definition file_ref_section_pattern : Re.regex :=
  [Re.Lit (str "/* End PBXFileReference section */")].

(** [r'(/\* Sources \*/ = \{[^}]+files = \([^)]+)'] *)
Definition sources_pattern : Re.regex :=
  [Re.Lit (str "/* Sources */ = {"); Re.NotPlus "}";
   Re.Lit (str "files = ("); Re.NotPlus ")"].

(** [rf'(path = {group_name};[^}}]+children = \([^)]+)'] for a group name
    that the [re] syntax reads as a literal. *)
Definition group_pattern (group_name : text) : Re.regex :=
  [Re.Lit (str "path = " ++ group_name ++ str ";"); Re.NotPlus "}";
   Re.Lit (str "children = ("); Re.NotPlus ")"].

(** The source text of that pattern, as the f-string builds it. *)
Definition group_pattern_source (group_name : text) : text :=
  str "(path = " ++ group_name ++ str ";[^}]+children = \([^)]+)".

(** The characters with a meaning of their own in [re] syntax. *)
Definition metachars : text := str ".^$*+?{}[]\|()".

Definition plain_name (group_name : text) : Prop :=
  Forall (fun c => c ∉ metachars) group_name.

Global Instance plain_name_dec n : Decision (plain_name n).
Proof. unfold plain_name. apply _. Defined.

(** ** Identifier tokens *)

Module Uuid.

Open Scope Z_scope.

(** [uuid.UUID(bytes=os.urandom(16), version=4).int]: the sixteen random
    bytes read as a big-endian integer [r], with the variant and version
    bits set as the standard library does. *)
Definition uuid4 (r : Z) : Z :=
  let i := Z.land r (Z.lnot (Z.shiftl 0xc000 48)) in
  let i := Z.lor i (Z.shiftl 0x8000 48) in
  let i := Z.land i (Z.lnot (Z.shiftl 0xf000 64)) in
  Z.lor i (Z.shiftl 4 76).

Definition hexdigit (d : Z) : ascii :=
  nth (Z.to_nat d) (str "0123456789abcdef") "0"%char.

(** ['%032x' % n] for [0 <= n < 2^128]: the thirty-two hexadecimal
    digits of [n], most significant first. *)
Definition hex (n : Z) : text :=
  (fun k => hexdigit (Z.land (Z.shiftr n (4 * (31 - Z.of_nat k))) 15))
    <$> seq 0 32.

(** [c.upper()] on ASCII *)
Definition upper (c : ascii) : ascii :=
  let n := nat_of_ascii c in
  if (97 <=? n)%nat && (n <=? 122)%nat then ascii_of_nat (n - 32) else c.

(** [uuid.uuid4().hex[:24].upper()], from the integer [os.urandom]
    delivered. *)
Definition generate_uuid (r : Z) : text :=
  upper <$> take 24 (hex (uuid4 r)).

Definition is_lower_hex (c : ascii) : Prop := c ∈ str "0123456789abcdef".

Definition is_upper_hex (c : ascii) : Prop := c ∈ str "0123456789ABCDEF".

(** What the specification asks of an identifier token. *)
Definition token_ok (t : text) : Prop :=
  length t = 24%nat /\ Forall is_upper_hex t.

(** [int(s, 16)] on lower-case digits, to state that [hex] renders its
    argument. *)
Definition digit_value (c : ascii) : Z :=
  match list_find (fun d => d = c) (str "0123456789abcdef") with
  | Some (i, _) => Z.of_nat i
  | None => 0
  end.

Definition int16 (t : text) : Z :=
  foldl (fun acc c => 16 * acc + digit_value c) 0 t.

(** The [w] lowest hexadecimal digits; [hex] is [hex_digits 32]. *)
Definition hex_digits (w : nat) (n : Z) : text :=
  (fun k => hexdigit (Z.land (Z.shiftr n (4 * (Z.of_nat w - 1 - Z.of_nat k))) 15))
    <$> seq 0 w.

End Uuid.

(** ** The source tree *)

#[local] Set Warnings "-register-all".

(** An entry of a directory: a file, or a directory with its entries in
    the order [os.scandir] lists them. *)
Inductive entry :=
| File (name : text)
| Dir (name : text) (children : list entry).

Definition entry_name (e : entry) : text :=
  match e with
  | File n => n
  | Dir n _ => n
  end.

(** [fnmatch(name, '*.swift')] *)
Definition is_swift (name : text) : Prop := str ".swift" `suffix_of` name.

Global Instance is_swift_dec n : Decision (is_swift n).
Proof. unfold is_swift. apply _. Defined.

(** A path relative to the scan root, as its [parts]. *)
Abbreviation rel_path := (list text).

(** The entries of one directory that match ['*.swift'], as paths. *)
Definition matching (here : rel_path) (es : list entry) : list rel_path :=
  (fun e => here ++ [entry_name e]) <$> filter (fun e => is_swift (entry_name e)) es.

(** [Path("VoiceControl").rglob("*.swift")], relative to the root: every
    directory is visited before its subdirectories, and in each the
    matching entries are produced in listing order. *)
Fixpoint rglob_dir (here : rel_path) (e : entry) : list rel_path :=
  match e with
  | File _ => []
  | Dir n cs =>
      matching (here ++ [n]) cs ++ flat_map (rglob_dir (here ++ [n])) cs
  end.

Definition rglob (root : list entry) : list rel_path :=
  matching [] root ++ flat_map (rglob_dir []) root.

(** [relative_path.name] *)
Definition path_name (p : rel_path) : text := default [] (last p).

(** [str(path)] *)
Definition path_str (p : rel_path) : text := join (str "/") p.

(** ** The updater object and the world *)

(** One record of [self.files_to_add].  The keys ['file_ref'] and
    ['build_ref'] are absent until [update_project] sets them. *)
Record file_info := {
  path : text;
  filename : text;
  group : text;
  full_path : text;
  file_ref : option text;
  build_ref : option text;
}.

Record updater := {
  project_content : text;
  files_to_add : list file_info;
  existing_files : gset text;
}.

(** What sits at [VoiceControl.xcodeproj/project.pbxproj] when
    [VoiceControl.xcodeproj] exists: nothing that can be reached, because
    [VoiceControl.xcodeproj] is not a directory; no entry of that name, in a
    directory that lets the script create one or does not; a directory; or
    a regular file with its bytes, which the script may read, may write. *)
Inductive project_file :=
| NotADirectory
| Absent (creatable : bool)
| Folder
| Regular (bytes : text) (readable writable : bool).

(** The part of the file system the script looks at.  [xcodeproj] is
    [None] when [VoiceControl.xcodeproj] does not exist.  [voice_control]
    lists the directory [VoiceControl] as [os.scandir] does (nothing when
    it is missing or cannot be listed). *)
Record filesystem := {
  xcodeproj : option project_file;
  voice_control : list entry;
}.

Record world := {
  disk : filesystem;
  console : list text;
  draws : nat;
}.

Inductive exn :=
| FileNotFoundError
| NotADirectoryError
| IsADirectoryError
| PermissionError
| UnicodeDecodeError
| UnicodeEncodeError
| AttributeError
| ReError (pattern : text).

Inductive result (A : Type) :=
| Return (a : A)
| Raise (e : exn).
Arguments Return {A} a.
Arguments Raise {A} e.

(** A method: from the object and the world to an outcome and their new
    values. *)
Definition M (A : Type) : Type := updater -> world -> result A * updater * world.

Global Instance M_ret : MRet M := fun A a u w => (Return a, u, w).

Global Instance M_bind : MBind M := fun A B k m u w =>
  match m u w with
  | (Return a, u', w') => k a u' w'
  | (Raise e, u', w') => (Raise e, u', w')
  end.

Definition raise {A} (e : exn) : M A := fun u w => (Raise e, u, w).

(** The world after a line is printed, and after [k] random draws. *)
Definition log (w : world) (line : text) : world :=
  {| disk := disk w; console := console w ++ [line]; draws := draws w |}.

Definition drawn (w : world) (k : nat) : world :=
  {| disk := disk w; console := console w; draws := draws w + k |}.

Definition print (line : text) : M unit :=
  fun u w => (Return tt, u, log w line).

(** What [re.search] returns or raises on a pattern outside [Re.regex]. *)
Inductive search_outcome :=
| SearchError
| SearchNone
| SearchMatch (start stop : nat).

(** The Python runtime as far as the model leaves it open. *)
Record runtime := {
  (** the integer [os.urandom(16)] delivers at its [i]-th call *)
  urandom : nat -> Z;
  (** the order in which iterating a [set] of strings yields it *)
  set_iter : gset text -> list text;
  (** [re.search(pattern, text, re.DOTALL)] for the source text of a
      pattern that is not in the embedded fragment *)
  re_search_other : text -> text -> search_outcome;
}.

(** Iterating a set yields each element once. *)
Definition set_iter_ok (rt : runtime) : Prop :=
  ∀ s : gset text, set_iter rt s ≡ₚ elements s.

(** ** File input and output *)

(** [open(path, 'r').read()]: text mode with the default [newline=None]
    hands out every ["\r\n"] and every other ["\r"] of the file as
    ["\n"]. *)
Fixpoint universal_newlines (t : text) : text :=
  match t with
  | [] => []
  | c :: t' =>
      if decide (c = CR)
      then LF :: match t' with
                 | d :: t'' =>
                     if decide (d = LF)
                     then universal_newlines t''
                     else universal_newlines t'
                 | [] => []
                 end
      else c :: universal_newlines t'
  end.

(** [open(path, 'r')] and [f.read()] on the manifest, before the line
    ends are translated: the bytes of a regular file that may be read and
    decodes, and otherwise the exception of [open] or of the decoder. *)
Definition read_text (d : filesystem) : result text :=
  match xcodeproj d with
  | None => Raise FileNotFoundError
  | Some NotADirectory => Raise NotADirectoryError
  | Some (Absent _) => Raise FileNotFoundError
  | Some Folder => Raise IsADirectoryError
  | Some (Regular bytes readable _) =>
      if readable
      then if utf8 bytes then Return bytes else Raise UnicodeDecodeError
      else Raise PermissionError
  end.

(** [open(path, 'w')] on the manifest: a regular file that may be written
    is emptied, a missing one is created where the directory allows it;
    the result says whether that file may be read.  Otherwise [open]
    raises and nothing has changed. *)
Definition open_w (d : filesystem) : result bool :=
  match xcodeproj d with
  | None => Raise FileNotFoundError
  | Some NotADirectory => Raise NotADirectoryError
  | Some (Absent creatable) =>
      if creatable then Return true else Raise PermissionError
  | Some Folder => Raise IsADirectoryError
  | Some (Regular _ readable writable) =>
      if writable then Return readable else Raise PermissionError
  end.

(** The manifest can be opened for writing. *)
Definition writable (d : filesystem) : Prop := ∃ r, open_w d = Return r.

(** [f.write(s)] in text mode writes ["\n"] as [os.linesep], which is
    ["\n"] on the systems Xcode runs on; the characters written are those
    of [s]. *)
Definition written (s : text) : text := s.

(** The world after the manifest has been opened for writing and holds
    the bytes [c]. *)
Definition stored (w : world) (readable : bool) (c : text) : world :=
  {| disk := {| xcodeproj := Some (Regular c readable true);
                voice_control := voice_control (disk w) |};
     console := console w; draws := draws w |}.

(** ** The methods of [XcodeProjectUpdater] *)

Definition get : M updater := fun u w => (Return u, u, w).

Definition with_content (c : text) (u : updater) : updater :=
  {| project_content := c; files_to_add := files_to_add u;
     existing_files := existing_files u |}.

Definition with_files (fs : list file_info) (u : updater) : updater :=
  {| project_content := project_content u; files_to_add := fs;
     existing_files := existing_files u |}.

Definition with_existing (s : gset text) (u : updater) : updater :=
  {| project_content := project_content u; files_to_add := files_to_add u;
     existing_files := s |}.

Definition set_project_content (c : text) : M unit :=
  fun u w => (Return tt, with_content c u, w).

Definition set_files_to_add (fs : list file_info) : M unit :=
  fun u w => (Return tt, with_files fs u, w).

Definition set_existing_files (s : gset text) : M unit :=
  fun u w => (Return tt, with_existing s u, w).

Fixpoint map_m {A B} (f : A -> M B) (l : list A) : M (list B) :=
  match l with
  | [] => mret []
  | x :: l' => y ← f x; ys ← map_m f l'; mret (y :: ys)
  end.

Fixpoint for_each {A} (l : list A) (body : A -> M unit) : M unit :=
  match l with
  | [] => mret tt
  | x :: l' => body x;; for_each l' body
  end.

(** [__init__] *)
Definition init : updater :=
  {| project_content := []; files_to_add := []; existing_files := ∅ |}.

Definition read_project : M unit :=
  fun u w =>
    match read_text (disk w) with
    | Return c => set_project_content (universal_newlines c) u w
    | Raise e => (Raise e, u, w)
    end.

Definition extract_existing_files : M unit :=
  u ← get;
  let matches := Re.findall swift_pattern 7 1 (project_content u) in
  set_existing_files
    (foldl (fun s m => {[strip DQUOTE m]} ∪ s) (existing_files u) matches).

(** The record [find_new_swift_files] appends for a path. *)
Definition new_file (relative_path : rel_path) : file_info :=
  {| path := path_str relative_path;
     filename := path_name relative_path;
     group := if decide (1 < length relative_path)
              then default [] (head relative_path)
              else str "VoiceControl";
     full_path := path_str (str "VoiceControl" :: relative_path);
     file_ref := None;
     build_ref := None |}.

Definition scan (existing : gset text) (acc : list file_info)
    (paths : list rel_path) : list file_info :=
  foldl (fun acc relative_path =>
           if decide (path_name relative_path ∈ existing)
           then acc
           else acc ++ [new_file relative_path])
        acc paths.

Definition find_new_swift_files : M unit :=
  fun u w =>
    set_files_to_add
      (scan (existing_files u) (files_to_add u) (rglob (voice_control (disk w))))
      u w.

Definition set_refs (f : file_info) (r b : text) : file_info :=
  {| path := path f; filename := filename f; group := group f;
     full_path := full_path f; file_ref := Some r; build_ref := Some b |}.

(** [file_info['file_ref']] and [file_info['build_ref']] are read only
    after the first loop of [update_project] has set them on every record
    (lemma [tokens_for_refs]); the default is never taken. *)
Definition the_ref (o : option text) : text := default [] o.

Definition build_entry (f : file_info) : text :=
  [TAB; TAB] ++ the_ref (build_ref f) ++ str " /* " ++ filename f
  ++ str " in Sources */ = {isa = PBXBuildFile; fileRef = "
  ++ the_ref (file_ref f) ++ str " /* " ++ filename f ++ str " */; };".

Definition file_ref_entry (f : file_info) : text :=
  [TAB; TAB] ++ the_ref (file_ref f) ++ str " /* " ++ filename f
  ++ str " */ = {isa = PBXFileReference; lastKnownFileType = sourcecode.swift; path = "
  ++ filename f ++ str "; sourceTree = " ++ [DQUOTE] ++ str "<group>"
  ++ [DQUOTE] ++ str "; };".

Definition sources_entry (f : file_info) : text :=
  [TAB; TAB; TAB; TAB] ++ the_ref (build_ref f) ++ str " /* " ++ filename f
  ++ str " in Sources */,".

Definition group_entry (f : file_info) : text :=
  [TAB; TAB; TAB; TAB] ++ the_ref (file_ref f) ++ str " /* " ++ filename f
  ++ str " */,".

Section Methods.

Variable rt : runtime.

Definition generate_uuid : M text :=
  fun u w => (Return (Uuid.generate_uuid (urandom rt (draws w))), u, drawn w 1).

(** The loop of lines 81-83. *)
Definition assign_uuids (fs : list file_info) : M (list file_info) :=
  map_m (fun f => r ← generate_uuid; b ← generate_uuid; mret (set_refs f r b)) fs.

(** [re.search(group_pattern, self.project_content, re.DOTALL)] *)
Definition group_search (group_name : text) (t : text) : search_outcome :=
  if decide (plain_name group_name)
  then match Re.search (group_pattern group_name) t with
       | Some (a, b) => SearchMatch a b
       | None => SearchNone
       end
  else re_search_other rt (group_pattern_source group_name) t.

Definition add_files_to_group (group_name : text) : M unit :=
  u ← get;
  let group_files := filter (fun f => group f = group_name) (files_to_add u) in
  if decide (group_files = []) then mret tt
  else
    match group_search group_name (project_content u) with
    | SearchError => raise (ReError (group_pattern_source group_name))
    | SearchNone => mret tt
    | SearchMatch _ insert_pos =>
        set_project_content
          (splice (project_content u) insert_pos
             ([LF] ++ join [LF] (group_entry <$> group_files)))
    end.

(** The insertions of lines 105-139 on a text, given the records with
    their identifiers and the first insertion point. *)
Definition insert_build_files (fs : list file_info) (pos : nat) (t : text) : text :=
  splice t pos (join [LF] (build_entry <$> fs) ++ [LF]).

Definition insert_file_refs (fs : list file_info) (pos : nat) (t : text) : text :=
  splice t pos (join [LF] (file_ref_entry <$> fs) ++ [LF]).

Definition insert_sources (fs : list file_info) (t : text) : text :=
  match Re.search sources_pattern t with
  | Some (_, insert_pos) =>
      splice t insert_pos ([LF] ++ join [LF] (sources_entry <$> fs))
  | None => t
  end.

Definition update_project : M unit :=
  u ← get;
  if decide (files_to_add u = []) then print (str "No new files to add")
  else
    fs ← assign_uuids (files_to_add u);
    set_files_to_add fs;;
    let content := project_content u in
    match Re.search build_section_pattern content,
          Re.search file_ref_section_pattern content with
    | Some (build_insert_pos, _), Some _ =>
        let content := insert_build_files fs build_insert_pos content in
        set_project_content content;;
        match Re.search file_ref_section_pattern content with
        | Some (file_ref_insert_pos, _) =>
            let content := insert_file_refs fs file_ref_insert_pos content in
            set_project_content content;;
            set_project_content (insert_sources fs content);;
            for_each (set_iter rt (list_to_set (group <$> fs))) add_files_to_group
        | None => raise AttributeError
        end
    | _, _ => print (str "Could not find proper insertion points")
    end.

(** [open] empties the file before [f.write] encodes the text: when the
    text cannot be encoded, [UnicodeEncodeError] leaves an empty file. *)
Definition write_project : M unit :=
  fun u w =>
    match open_w (disk w) with
    | Return readable =>
        if utf8 (project_content u)
        then (Return tt, u, stored w readable (written (project_content u)))
        else (Raise UnicodeEncodeError, u, stored w readable [])
    | Raise e => (Raise e, u, w)
    end.

Definition run : M unit :=
  print (str "Reading project file...");;
  read_project;;
  print (str "Extracting existing files...");;
  extract_existing_files;;
  print (str "Finding new Swift files...");;
  find_new_swift_files;;
  u ← get;
  if decide (files_to_add u = [])
  then print (LF :: str "No new files found to add.")
  else
    print (LF :: str "Found " ++ decimal (length (files_to_add u))
           ++ str " new files to add:");;
    for_each (files_to_add u) (fun f => print (str "  - " ++ path f));;
    print (LF :: str "Updating project file...");;
    update_project;;
    print (str "Writing updated project file...");;
    write_project;;
    print (LF :: str "Project updated successfully!");;
    print (LF :: str "Next steps:");;
    print (str "1. Open Xcode and verify the files appear correctly");;
    print (str "2. Build the project to ensure everything compiles");;
    print (str "3. If needed, manually adjust file locations in Xcode").

(** [main]: the outcome and the world it leaves. *)
Definition main (w : world) : result unit * world :=
  match xcodeproj (disk w) with
  | None =>
      let '(r, _, w') :=
        (print (str "Error: VoiceControl.xcodeproj not found in current directory");;
         print (str "Please run this script from the project root directory"))
          init w in
      (r, w')
  | Some _ =>
      let '(r, _, w') := run init w in (r, w')
  end.

End Methods.

(** ** Notions the properties are stated with *)

(** [t[i:i+n]], and an occurrence of [s] in [t] at position [i]. *)
Definition sub (t : text) (i n : nat) : text := take n (drop i t).

Definition occ (s t : text) (i : nat) : Prop := sub t i (length s) = s.

Global Instance occ_dec s t i : Decision (occ s t i).
Proof. unfold occ. apply _. Defined.

Definition PATH_EQ : text := str "path = ".
Definition DOT_SWIFT : text := str ".swift".
Definition BUILD_END : text := str "/* End PBXBuildFile section */".
Definition FILE_REF_END : text := str "/* End PBXFileReference section */".

(** The set [extract_existing_files] computes from a text. *)
Definition existing_of (t : text) : gset text :=
  list_to_set (strip DQUOTE <$> Re.findall swift_pattern 7 1 t).

(** The records [find_new_swift_files] collects, given the text read and
    the source tree. *)
Definition pending_of (t : text) (root : list entry) : list file_info :=
  new_file <$> filter (fun p => path_name p ∉ existing_of t) (rglob root).

(** The records after the loop of lines 81-83, when [n] draws were made
    before it. *)
Definition tokens_for (rt : runtime) (n : nat) (fs : list file_info) : list file_info :=
  imap (fun i f =>
          set_refs f (Uuid.generate_uuid (urandom rt (n + 2 * i)))
                     (Uuid.generate_uuid (urandom rt (n + 2 * i + 1))))
       fs.

(** What [add_files_to_group] does to the text for a group name without
    metacharacters. *)
Definition insert_group (fs : list file_info) (t : text) (group_name : text) : text :=
  let group_files := filter (fun f => group f = group_name) fs in
  if decide (group_files = []) then t
  else match Re.search (group_pattern group_name) t with
       | Some (_, insert_pos) =>
           splice t insert_pos ([LF] ++ join [LF] (group_entry <$> group_files))
       | None => t
       end.

(** A match that [re.findall(swift_pattern, t)] reports: [path = ] at
    [i], the closing [;] at [e], [.swift] in front of it, no [;] in
    between, and every earlier [path = ] separated from [i] by a [;]. *)
Definition hit (t : text) (i e : nat) : Prop :=
  occ PATH_EQ t i ∧ i + 14 ≤ e ∧ t !! e = Some ";"
  ∧ (∀ j, i + 7 ≤ j < e → t !! j ≠ Some ";")
  ∧ occ DOT_SWIFT t (e - 6)
  ∧ (∀ a, a < i → occ PATH_EQ t a → ∃ j, (a ≤ j < i) ∧ t !! j = Some ";").

Definition capture (t : text) (i e : nat) : text := sub t (i + 7) (e - i - 7).

(** Section 4.2 of the specification, in its words: a substring of the
    form [path = <name>.swift;] is captured and its quotes are stripped.
    [<name>] is read as a non-empty run without [;]. *)
Definition spec_extracted (t : text) (name : text) : Prop :=
  ∃ pre stem post,
    t = pre ++ PATH_EQ ++ (stem ++ DOT_SWIFT) ++ str ";" ++ post
    ∧ stem ≠ [] ∧ (";" ∉ stem)
    ∧ name = strip DQUOTE (stem ++ DOT_SWIFT).

(** No [path = ] inside [pre] reaches the end of [pre] without a [;]. *)
Definition leftmost (pre : text) : Prop :=
  ∀ a b, pre = a ++ PATH_EQ ++ b → ";" ∈ b.

(** A file name the extractor finds again once the script has written
    its file-reference line: no [;], no carriage return, no leading quote,
    no [path = ] inside, and a character in front of [.swift]. *)
Definition tame (name : text) : Prop :=
  (";" ∉ name) ∧ (CR ∉ name) ∧ head name ≠ Some DQUOTE
  ∧ (∀ a, ¬ occ PATH_EQ name a) ∧ name ≠ DOT_SWIFT.

(** ** Further notions used in the proofs *)

(** What [Re.match_at swift_pattern t = Some n] comes to. *)
Definition swift_match (t : text) (n : nat) : Prop :=
  occ PATH_EQ t 0 ∧ 15 ≤ n ∧ t !! (n - 1) = Some ";"
  ∧ (∀ j, 7 ≤ j < n - 1 → t !! j ≠ Some ";")
  ∧ occ DOT_SWIFT t (n - 7).

(** The world after the three progress lines of [run]. *)
Definition scanned (w : world) : world :=
  log (log (log w (str "Reading project file..."))
         (str "Extracting existing files..."))
    (str "Finding new Swift files...").

(** The world when [run] calls [update_project]: the pending files have
    been listed. *)
Definition announced (w : world) (fs : list file_info) : world :=
  log (foldl log
         (log (scanned w)
            (LF :: str "Found " ++ decimal (length fs) ++ str " new files to add:"))
         ((fun f => str "  - " ++ path f) <$> fs))
    (LF :: str "Updating project file...").

(** The world after the closing lines of a run that wrote the manifest. *)
Definition finished (w : world) : world :=
  log (log (log (log (log w
    (LF :: str "Project updated successfully!"))
    (LF :: str "Next steps:"))
    (str "1. Open Xcode and verify the files appear correctly"))
    (str "2. Build the project to ensure everything compiles"))
    (str "3. If needed, manually adjust file locations in Xcode").

(** The object after [read_project], [extract_existing_files] and
    [find_new_swift_files], started from [init]. *)
Definition scanned_updater (t : text) (root : list entry) : updater :=
  {| project_content := t; files_to_add := pending_of t root;
     existing_files := existing_of t |}.

(** Where position [x] of a text ends up when [n] characters are
    inserted at [p]. *)
Definition shift (p n x : nat) : nat := if decide (x < p) then x else x + n.

(** A block whose insertion cannot extend a match to its left: every
    [path = ] that overlaps the block is followed by a [;] of the block. *)
Definition overlap_guarded (new : text) : Prop :=
  ∀ t p a,
    p ≤ length t → occ PATH_EQ (splice t p new) a →
    a < p + length new → p < a + 7 →
    ∃ j, (a ≤ j < p + length new) ∧ splice t p new !! j = Some ";".

(** No [path = ] inside. *)
Definition clean (s : text) : Prop := ∀ a, ¬ occ PATH_EQ s a.

(** The two kinds of block the script inserts: lines that end in [;]
    with a newline after the last, in front of an end-marker; and lines
    that end in [,] with a newline before the first, behind a list
    opening. *)
Definition semi_block (new : text) : Prop := ∃ body, new = body ++ [";"; LF].

Definition comma_block (new : text) : Prop :=
  clean new ∧ head new = Some LF ∧ last new = Some ",".

(** The identifiers of a record consist of hexadecimal digits. *)
Definition refs_hex (f : file_info) : Prop :=
  Forall Uuid.is_upper_hex (the_ref (file_ref f))
  ∧ Forall Uuid.is_upper_hex (the_ref (build_ref f)).

(** What the later steps need of the records: identifiers of hexadecimal
    digits, and names that end in [.swift] and hold no [path = ]. *)
Definition entries_ok (fs : list file_info) : Prop :=
  ∀ f, f ∈ fs →
    Forall Uuid.is_upper_hex (the_ref (file_ref f))
    ∧ Forall Uuid.is_upper_hex (the_ref (build_ref f))
    ∧ is_swift (filename f) ∧ clean (filename f).

(** Texts and records without a carriage return. *)
Definition no_cr (t : text) : Prop := Forall (fun c => c ≠ CR) t.

Definition names_no_cr (fs : list file_info) : Prop :=
  ∀ f, f ∈ fs → refs_hex f ∧ no_cr (filename f).

(** The text a run writes when both end-markers are found and no group
    pattern is rejected. *)
Definition patched (rt : runtime) (fs : list file_info) (p q : nat) (t : text) : text :=
  foldl (insert_group fs)
    (insert_sources fs (insert_file_refs fs q (insert_build_files fs p t)))
    (set_iter rt (list_to_set (group <$> fs))).

(** [located es rel e]: below the directory whose listing is [es], the
    entry [e] (a file or a directory) sits at the relative path [rel]. *)
Inductive located : list entry → rel_path → entry → Prop :=
| located_here es e : e ∈ es → located es [entry_name e] e
| located_below es n cs rel e :
    Dir n cs ∈ es → located cs rel e → located es (n :: rel) e.

(** One well-formed UTF-8 sequence: the bytes of one character. *)
Definition scalar (s : text) : Prop :=
  match s with
  | [a] => code a < 128
  | [a; b] => 194 ≤ code a ≤ 223 ∧ continuation (code b) = true
  | [a; b; c] =>
      224 ≤ code a ≤ 239 ∧ second_of_three (code a) (code b) = true
      ∧ continuation (code c) = true
  | [a; b; c; d] =>
      240 ≤ code a ≤ 244 ∧ second_of_four (code a) (code b) = true
      ∧ continuation (code c) = true ∧ continuation (code d) = true
  | _ => False
  end.

(** An ASCII character, and a text of them. *)
Definition plain (c : ascii) : Prop := code c < 128.

(** The records whose lines can be written: identifiers of hexadecimal
    digits and file names that are well-formed UTF-8. *)
Definition names_utf8 (fs : list file_info) : Prop :=
  ∀ f, f ∈ fs → refs_hex f ∧ utf8 (filename f) = true.

(** ** Sample inputs *)

Module Samples.

(** A runtime: some random numbers, sets iterated in the order of
    [elements], and [re] rejecting every pattern outside the fragment. *)
Definition rt : runtime :=
  {| urandom := fun i =>
       ((Z.of_nat i + 1) * 0x0123456789abcdef0123456789abcdef
        mod 2 ^ 128)%Z;
     set_iter := elements;
     re_search_other := fun _ _ => SearchError |}.

Definition Foo : text := str "Foo.swift".
Definition Bar : text := str "Bar.swift".

(** A small manifest with both end-markers, a group [Core] and a Sources
    build phase. *)
Definition manifest : text :=
  str "/* Begin PBXBuildFile section */" ++ [LF]
  ++ str "/* End PBXBuildFile section */" ++ [LF]
  ++ str "/* Begin PBXFileReference section */" ++ [LF]
  ++ [TAB; TAB] ++ str "AA /* Old.swift */ = {isa = PBXFileReference; path = Old.swift; };" ++ [LF]
  ++ str "/* End PBXFileReference section */" ++ [LF]
  ++ str "BB /* Core */ = {isa = PBXGroup; path = Core; children = (" ++ [LF]
  ++ str "); };" ++ [LF]
  ++ str "CC /* Sources */ = {isa = PBXSourcesBuildPhase; files = (" ++ [LF]
  ++ str "); };" ++ [LF].

(** The same manifest without the Sources build phase. *)
Definition manifest_no_sources : text :=
  str "/* Begin PBXBuildFile section */" ++ [LF]
  ++ str "/* End PBXBuildFile section */" ++ [LF]
  ++ str "/* End PBXFileReference section */" ++ [LF]
  ++ str "BB /* Core */ = {isa = PBXGroup; path = Core; children = (" ++ [LF]
  ++ str "); };" ++ [LF].

(** [VoiceControl/Foo.swift], [VoiceControl/Core/Bar.swift],
    [VoiceControl/Core/Old.swift] and a file that is not a source file. *)
Definition tree : list entry :=
  [File Foo; Dir (str "Core") [File Bar; File (str "Old.swift"); File (str "notes.txt")]].

(** The same base name in two subdirectories. *)
Definition twins : list entry :=
  [Dir (str "A") [File Foo]; Dir (str "B") [File Foo]].

(** A manifest the script may read and write, holding [c]. *)
Definition file (c : text) : option project_file := Some (Regular c true true).

Definition world_of (manifest : option project_file) (root : list entry) : world :=
  {| disk := {| xcodeproj := manifest; voice_control := root |};
     console := []; draws := 0 |}.

(** Two runs in succession from a manifest and a source tree: both
    return normally, the first had the files named [first] pending and the
    second those named [second]. *)
Definition pending_twice (manifest : text) (root : list entry)
    (first second : list text) : Prop :=
  let r1 := run rt init (world_of (file manifest) root) in
  let r2 := run rt init r1.2 in
  r1.1.1 = Return tt ∧ r2.1.1 = Return tt
  ∧ filename <$> files_to_add r1.1.2 = first
  ∧ filename <$> files_to_add r2.1.2 = second.

End Samples.

(** * Properties *)

(** ** Positions, occurrences and splices *)

Lemma sub_lookup t i n k : k < n → sub t i n !! k = t !! (i + k).
Proof. intros Hk. unfold sub. rewrite lookup_take_lt by done. by rewrite lookup_drop. Qed.

Lemma occ_lookup s t i :
  occ s t i ↔ ∀ k c, s !! k = Some c → t !! (i + k) = Some c.
Proof.
  unfold occ. split.
  - intros Heq k c Hk. rewrite <- Heq in Hk.
    assert (k < length s).
    { apply lookup_lt_Some in Hk. unfold sub in Hk. rewrite length_take in Hk. lia. }
    by rewrite sub_lookup in Hk.
  - intros Hall. apply list_eq. intros k.
    destruct (decide (k < length s)) as [Hk|Hk].
    + rewrite sub_lookup by done.
      destruct (lookup_lt_is_Some_2 s k Hk) as [c Hc]. rewrite Hc. by apply Hall.
    + rewrite (lookup_ge_None_2 s) by lia. apply lookup_ge_None_2.
      unfold sub. rewrite length_take. lia.
Qed.

Lemma occ_char s t i k c : occ s t i → s !! k = Some c → t !! (i + k) = Some c.
Proof. intros Ho. by apply occ_lookup. Qed.

Lemma occ_bound s t i : occ s t i → i + length s ≤ length t ∨ length s = 0.
Proof.
  intros Ho. apply (f_equal length) in Ho. unfold sub in Ho.
  rewrite length_take, length_drop in Ho. lia.
Qed.

Lemma occ_drop s t n i : occ s (drop n t) i ↔ occ s t (n + i).
Proof. unfold occ, sub. rewrite (drop_drop t i n). done. Qed.

Lemma occ_app_middle (a s b : text) : occ s (a ++ s ++ b) (length a).
Proof. unfold occ, sub. rewrite drop_app_length. by rewrite take_app_length. Qed.

Lemma occ_decompose s t i :
  occ s t i → t = take i t ++ s ++ drop (i + length s) t.
Proof.
  intros Heq. unfold occ, sub in Heq.
  transitivity (take i t ++ drop i t); [by rewrite take_drop|]. f_equal.
  transitivity (take (length s) (drop i t) ++ drop (length s) (drop i t));
    [by rewrite take_drop|].
  by rewrite Heq, drop_drop.
Qed.

(** splice *)
Lemma splice_length t p new : length (splice t p new) = length t + length new.
Proof. unfold splice. rewrite !length_app, length_take, length_drop. lia. Qed.

Lemma splice_min t p new : splice t p new = splice t (p `min` length t) new.
Proof.
  unfold splice. destruct (decide (p ≤ length t)).
  - by rewrite Nat.min_l by done.
  - rewrite Nat.min_r by lia. by rewrite !take_ge, !drop_ge by lia.
Qed.

Lemma splice_lookup t p new j :
  p ≤ length t →
  splice t p new !! j =
    if decide (j < p) then t !! j
    else if decide (j < p + length new) then new !! (j - p)
    else t !! (j - length new).
Proof.
  intros Hp. unfold splice. repeat case_decide.
  - rewrite lookup_app_l by (rewrite length_take; lia). by rewrite lookup_take_lt.
  - rewrite lookup_app_r by (rewrite length_take; lia).
    rewrite length_take, Nat.min_l by done. by rewrite lookup_app_l by lia.
  - rewrite lookup_app_r by (rewrite length_take; lia).
    rewrite length_take, Nat.min_l by done.
    rewrite lookup_app_r by lia. rewrite lookup_drop. f_equal. lia.
Qed.

Lemma splice_sublist t p new : t `sublist_of` splice t p new.
Proof.
  unfold splice. rewrite <- (take_drop p t) at 1.
  apply sublist_app; [done|]. by apply sublist_inserts_l.
Qed.

(** ** The regular-expression engine *)

Import Re.

Lemma run_length_le c t : run_length c t ≤ length t.
Proof. induction t as [|x t IH]; simpl; [lia|]. case_decide; simpl; lia. Qed.

Lemma run_length_lookup c t j : j < run_length c t → ∃ x, t !! j = Some x ∧ x ≠ c.
Proof.
  revert j. induction t as [|x t IH]; intros j; simpl; [lia|].
  case_decide; [lia|]. intros Hj. destruct j as [|j]; simpl; [eauto|].
  apply IH. lia.
Qed.

Lemma run_length_end c t x : t !! run_length c t = Some x → x = c.
Proof.
  induction t as [|y t IH]; simpl; [done|].
  case_decide; simpl; [naive_solver|done].
Qed.

Lemma run_length_ge c t n :
  n ≤ length t → (∀ j, j < n → t !! j ≠ Some c) → n ≤ run_length c t.
Proof.
  revert n. induction t as [|x t IH]; intros n; simpl; [lia|].
  intros Hn Hall. destruct n as [|n]; [lia|].
  case_decide as Hx.
  - subst. by specialize (Hall 0 ltac:(lia)).
  - apply le_n_S, IH; [lia|]. intros j Hj. apply (Hall (S j)). lia.
Qed.

Lemma try_down_Some f k r :
  try_down f k = Some r ↔
  ∃ k' n, 1 ≤ k' ≤ k ∧ f k' = Some n ∧ r = k' + n ∧ ∀ k'', k' < k'' ≤ k → f k'' = None.
Proof.
  induction k as [|k IH]; simpl.
  - split; [done|]. intros (k' & n & ? & _). lia.
  - destruct (f (S k)) as [n|] eqn:Hf.
    + split.
      * intros [= <-]. exists (S k), n. split_and!; try lia; try done.
      * intros (k' & n' & Hk' & Hfk' & -> & Hnone).
        destruct (decide (k' = S k)) as [->|Hne].
        { rewrite Hf in Hfk'. by injection Hfk' as ->. }
        rewrite Hnone in Hf by lia. done.
    + rewrite IH. split.
      * intros (k' & n & Hk' & Hfk' & -> & Hnone). exists k', n.
        repeat split; try lia; try done. intros k'' Hk''.
        destruct (decide (k'' = S k)) as [->|]; [done|]. apply Hnone. lia.
      * intros (k' & n & Hk' & Hfk' & -> & Hnone). exists k', n.
        assert (k' ≠ S k) by congruence.
        repeat split; try lia; try done. intros k'' Hk''. apply Hnone. lia.
Qed.

Lemma try_down_None f k : try_down f k = None ↔ ∀ k', 1 ≤ k' ≤ k → f k' = None.
Proof.
  induction k as [|k IH]; simpl.
  - split; [intros _ k' ?; lia|done].
  - destruct (f (S k)) as [n|] eqn:Hf.
    + split; [done|]. intros Hall. rewrite Hall in Hf by lia. done.
    + rewrite IH. split.
      * intros Hall k' Hk'. destruct (decide (k' = S k)) as [->|]; [done|].
        apply Hall. lia.
      * intros Hall k' Hk'. apply Hall. lia.
Qed.

Lemma match_at_le r t n : match_at r t = Some n → n ≤ length t.
Proof.
  revert t n. induction r as [|[s|c] r IH]; intros t n; simpl.
  - intros [= <-]. lia.
  - case_decide as Hs; [|done].
    destruct (match_at r (drop (length s) t)) as [m|] eqn:Hm; [|done].
    intros [= <-]. apply IH in Hm. rewrite length_drop in Hm.
    assert (length s ≤ length t).
    { rewrite <- Hs at 1. rewrite length_take. lia. }
    lia.
  - intros (k & m & Hk & Hm & -> & _)%try_down_Some.
    apply IH in Hm. rewrite length_drop in Hm.
    pose proof (run_length_le c t). lia.
Qed.

(** A pattern that ends in [[^c]+] stops in front of a [c] or at the end
    of the text. *)
Lemma match_at_stop r c t n x :
  match_at (r ++ [NotPlus c]) t = Some n → t !! n = Some x → x = c.
Proof.
  revert t n. induction r as [|[s|d] r IH]; intros t n; simpl.
  - intros (k & m & Hk & Hm & -> & Hnone)%try_down_Some. injection Hm as <-.
    rewrite Nat.add_0_r. intros Hx.
    destruct (decide (k = run_length c t)) as [->|Hne]; [by eapply run_length_end|].
    specialize (Hnone (S k) ltac:(lia)). done.
  - case_decide as Hs; [|done].
    destruct (match_at _ (drop (length s) t)) as [m|] eqn:Hm; [|done].
    intros [= <-] Hx. eapply IH; [done|]. by rewrite lookup_drop.
  - intros (k & m & Hk & Hm & -> & _)%try_down_Some Hx.
    eapply IH; [done|]. by rewrite lookup_drop.
Qed.

Lemma search_from_Some r pos t a b :
  search_from r pos t = Some (a, b) →
  pos ≤ a ∧ a ≤ b ∧ a - pos ≤ length t
  ∧ match_at r (drop (a - pos) t) = Some (b - a)
  ∧ ∀ a', a' < a - pos → match_at r (drop a' t) = None.
Proof.
  revert pos. induction t as [|c t IH]; intros pos; simpl.
  - destruct (match_at r []) as [n|] eqn:Hm; [|done].
    intros [= <- <-]. rewrite Nat.sub_diag. simpl.
    replace (pos + n - pos) with n by lia. split_and!; try lia; try done.
  - destruct (match_at r (c :: t)) as [n|] eqn:Hm.
    + intros [= <- <-]. rewrite Nat.sub_diag. simpl.
      replace (pos + n - pos) with n by lia. split_and!; try lia; try done.
    + intros (Hpos & Hab & Hlen & Hmatch & Hnone)%IH.
      replace (a - pos) with (S (a - S pos)) by lia. simpl.
      split_and!; try lia; try done.
      intros [|a'] Ha'; simpl; [done|]. apply Hnone. lia.
Qed.

Lemma search_from_None r pos t a :
  search_from r pos t = None → match_at r (drop a t) = None.
Proof.
  revert pos a. induction t as [|c t IH]; intros pos a; simpl.
  - destruct (match_at r []) eqn:Hm; [done|]. intros _. by rewrite drop_nil.
  - destruct (match_at r (c :: t)) eqn:Hm; [done|]. intros Hs.
    destruct a as [|a]; simpl; [done|]. by eapply IH.
Qed.

Lemma search_Some r t a b :
  search r t = Some (a, b) →
  a ≤ b ∧ b ≤ length t ∧ match_at r (drop a t) = Some (b - a)
  ∧ ∀ a', a' < a → match_at r (drop a' t) = None.
Proof.
  intros (_ & Hab & Hlen & Hm & Hnone)%search_from_Some. rewrite Nat.sub_0_r in *.
  split_and!; try done.
  pose proof (match_at_le _ _ _ Hm) as Hle. rewrite length_drop in Hle. lia.
Qed.

Lemma search_found r t a n :
  match_at r (drop a t) = Some n → is_Some (search r t).
Proof.
  intros Hm. destruct (search r t) eqn:Hs; [done|].
  eapply search_from_None in Hs. by rewrite Hm in Hs.
Qed.

Lemma match_at_lit s t n : match_at [Lit s] t = Some n ↔ n = length s ∧ occ s t 0.
Proof.
  simpl. unfold occ, sub. rewrite drop_0. case_decide as Hs; split.
  - intros [= <-]. split; [lia|done].
  - intros [-> _]. f_equal. lia.
  - done.
  - by intros [_ ?].
Qed.

Lemma search_lit_Some s t a b :
  search [Lit s] t = Some (a, b) →
  b = a + length s ∧ occ s t a ∧ ∀ a', a' < a → ¬ occ s t a'.
Proof.
  intros (Hab & Hb & Hm & Hnone)%search_Some.
  apply match_at_lit in Hm as [Hlen Ho]. apply occ_drop in Ho.
  rewrite Nat.add_0_r in Ho. repeat split; [lia|done|].
  intros a' Ha' Ho'. specialize (Hnone a' Ha').
  assert (match_at [Lit s] (drop a' t) = Some (length s)) as Hm'.
  { apply match_at_lit. split; [done|]. apply occ_drop. by rewrite Nat.add_0_r. }
  congruence.
Qed.

Lemma search_lit_found s t a : occ s t a → is_Some (search [Lit s] t).
Proof.
  intros Ho. eapply (search_found _ _ a). apply match_at_lit. split; [done|].
  apply occ_drop. by rewrite Nat.add_0_r.
Qed.

(** Where a search for a pattern ending in [[^c]+] stops. *)
Lemma search_stop r c t a b x :
  search (r ++ [NotPlus c]) t = Some (a, b) → t !! b = Some x → x = c.
Proof.
  intros (Hab & Hb & Hm & _)%search_Some Hx.
  eapply match_at_stop; [done|]. rewrite lookup_drop.
  by replace (a + (b - a)) with b by lia.
Qed.

(** ** The pattern of [extract_existing_files] *)

Lemma tail_match t n :
  match_at [Lit DOT_SWIFT; Lit (str ";")] t = Some n ↔
  n = 7 ∧ occ DOT_SWIFT t 0 ∧ t !! 6 = Some ";".
Proof.
  simpl. unfold occ, sub. rewrite drop_0.
  change (length DOT_SWIFT) with 6. change (length (str ";")) with 1.
  assert (Hsemi : take 1 (drop 6 t) = str ";" ↔ t !! 6 = Some ";").
  { replace (t !! 6) with (drop 6 t !! 0) by (by rewrite lookup_drop).
    destruct (drop 6 t) as [|x [|y l]]; simpl; split; intros; simplify_eq; done. }
  case_decide as Hd; [case_decide as Hs|].
  - rewrite Hsemi in Hs. split; [intros [= <-]; by split_and!|by intros (-> & _)].
  - rewrite Hsemi in Hs. split; [done|]. by intros (_ & _ & ?).
  - split; [done|]. by intros (_ & ? & _).
Qed.

Lemma swift_dot_not_semi k c : DOT_SWIFT !! k = Some c → c ≠ ";".
Proof. do 6 (destruct k as [|k]; [by intros [= <-]|]). done. Qed.

Lemma path_eq_not_semi k c : PATH_EQ !! k = Some c → c ≠ ";".
Proof. do 7 (destruct k as [|k]; [by intros [= <-]|]). done. Qed.

Lemma match_at_Lit s r t :
  match_at (Lit s :: r) t =
  if decide (take (length s) t = s)
  then match match_at r (drop (length s) t) with
       | Some n => Some (length s + n)
       | None => None
       end
  else None.
Proof. done. Qed.

Lemma match_at_NotPlus c r t :
  match_at (NotPlus c :: r) t =
  try_down (fun k => match_at r (drop k t)) (run_length c t).
Proof. done. Qed.

Lemma match_at_swift t n : match_at swift_pattern t = Some n ↔ swift_match t n.
Proof.
  unfold swift_match.
  change swift_pattern
    with [Lit PATH_EQ; NotPlus ";"; Lit DOT_SWIFT; Lit (str ";")].
  rewrite match_at_Lit, match_at_NotPlus. change (length PATH_EQ) with 7.
  set (f := fun k => match_at [Lit DOT_SWIFT; Lit (str ";")] (drop k (drop 7 t))).
  split.
  - case_decide as HP; [|done].
    destruct (try_down f (run_length ";" (drop 7 t))) as [r|] eqn:Htd; [|done].
    intros [= <-].
    apply try_down_Some in Htd as (k & m & Hk & Hfk & -> & _).
    apply tail_match in Hfk as (-> & Hdot & Hsemi).
    rewrite drop_drop in Hdot, Hsemi. apply occ_drop in Hdot.
    rewrite lookup_drop in Hsemi.
    assert (Hdot2 : occ DOT_SWIFT t (7 + k)).
    { revert Hdot. unfold occ, sub. by rewrite ?drop_drop, ?Nat.add_0_r. }
    clear Hdot. rename Hdot2 into Hdot.
    split_and!.
    + done.
    + lia.
    + rewrite <- Hsemi. f_equal. lia.
    + intros j Hj Hsj. destruct (decide (j < 7 + k)) as [Hlt|Hge].
      * destruct (run_length_lookup ";" (drop 7 t) (j - 7)) as (x & Hx & Hne); [lia|].
        rewrite lookup_drop in Hx. replace (7 + (j - 7)) with j in Hx by lia. congruence.
      * destruct (lookup_lt_is_Some_2 DOT_SWIFT (j - (7 + k))) as [c Hc];
          [change (length DOT_SWIFT) with 6; lia|].
        pose proof (occ_char _ _ _ _ _ Hdot Hc) as Hj'.
        replace (7 + k + (j - (7 + k))) with j in Hj' by lia.
        apply swift_dot_not_semi in Hc. congruence.
    + match goal with |- occ _ _ ?x => by replace x with (7 + k) by lia end.
  - intros (HP & Hn & Hsemi & Hrun & Hdot).
    rewrite decide_True by done.
    assert (Hlen : n - 1 < length t) by (by apply lookup_lt_Some in Hsemi).
    assert (Htd : try_down f (run_length ";" (drop 7 t)) = Some (n - 7)).
    { apply try_down_Some. exists (n - 14), 7. split_and!.
      - lia.
      - apply run_length_ge; [rewrite length_drop; lia|].
        intros j Hj. rewrite lookup_drop. apply Hrun. lia.
      - apply tail_match. rewrite !drop_drop. split_and!; [done| |].
        + apply occ_drop. by replace (7 + (n - 14) + 0) with (n - 7) by lia.
        + rewrite lookup_drop. rewrite <- Hsemi. f_equal. lia.
      - lia.
      - intros k Hk. destruct (f k) as [m|] eqn:Hfk; [|done]. exfalso.
        apply tail_match in Hfk as (-> & Hdot' & Hsemi').
        assert (Hdot2 : occ DOT_SWIFT t (7 + k)).
        { revert Hdot'. unfold occ, sub. by rewrite ?drop_drop, ?Nat.add_0_r. }
        clear Hdot'. rename Hdot2 into Hdot'.
        destruct (decide (k ≤ n - 8)) as [Hle|Hgt].
        + destruct (lookup_lt_is_Some_2 DOT_SWIFT (n - 1 - (7 + k))) as [c Hc];
            [change (length DOT_SWIFT) with 6; lia|].
          pose proof (occ_char _ _ _ _ _ Hdot' Hc) as Hj'.
          replace (7 + k + (n - 1 - (7 + k))) with (n - 1) in Hj' by lia.
          apply swift_dot_not_semi in Hc. congruence.
        + destruct (run_length_lookup ";" (drop 7 t) (n - 8)) as (x & Hx & Hne); [lia|].
          rewrite lookup_drop in Hx. replace (7 + (n - 8)) with (n - 1) in Hx by lia.
          congruence. }
    rewrite Htd. f_equal. lia.
Qed.

Lemma findall_from_skip r p q k t :
  findall_from r p q k t = findall r p q (drop k t).
Proof.
  unfold findall. revert k. induction t as [|c t IH]; intros k.
  - by rewrite drop_nil.
  - destruct k as [|k]; [done|]. simpl. apply IH.
Qed.

Lemma findall_nil r p q : findall r p q [] = [].
Proof. done. Qed.

Lemma findall_cons r p q c t :
  findall r p q (c :: t) =
  match match_at r (c :: t) with
  | Some n => take (n - p - q) (drop p (c :: t)) :: findall r p q (drop (n - 1) t)
  | None => findall r p q t
  end.
Proof.
  unfold findall at 1. simpl. destruct (match_at r (c :: t)); [|done].
  by rewrite findall_from_skip.
Qed.

Lemma swift_match_drop t i n :
  swift_match (drop i t) n ↔
  occ PATH_EQ t i ∧ 15 ≤ n ∧ t !! (i + n - 1) = Some ";"
  ∧ (∀ j, i + 7 ≤ j < i + n - 1 → t !! j ≠ Some ";")
  ∧ occ DOT_SWIFT t (i + n - 7).
Proof.
  unfold swift_match. rewrite !occ_drop, Nat.add_0_r, lookup_drop.
  split; intros (HP & Hn & Hsemi & Hrun & Hdot); split_and!; try done.
  - rewrite <- Hsemi. f_equal. lia.
  - intros j Hj. specialize (Hrun (j - i) ltac:(lia)). rewrite lookup_drop in Hrun.
    by replace (i + (j - i)) with j in Hrun by lia.
  - by replace (i + n - 7) with (i + (n - 7)) by lia.
  - rewrite <- Hsemi. f_equal. lia.
  - intros j Hj. rewrite lookup_drop. apply Hrun. lia.
  - by replace (i + (n - 7)) with (i + n - 7) by lia.
Qed.

(** Two occurrences of [path = ] do not overlap. *)
Lemma path_eq_apart t a i : occ PATH_EQ t a → occ PATH_EQ t i → a < i → a + 7 ≤ i.
Proof.
  intros Ha Hi Hlt. destruct (decide (a + 7 ≤ i)) as [|Hov]; [done|]. exfalso.
  pose proof (occ_char _ _ _ 0 "p" Hi eq_refl) as Hp. rewrite Nat.add_0_r in Hp.
  assert (Hk : ∃ k, i = a + S k ∧ k < 6) by (exists (i - a - 1); lia).
  destruct Hk as (k & -> & Hk).
  destruct (lookup_lt_is_Some_2 PATH_EQ (S k)) as [c Hc];
    [change (length PATH_EQ) with 7; lia|].
  pose proof (occ_char _ _ _ _ _ Ha Hc) as Hc'. rewrite Hp in Hc'.
  injection Hc' as <-. revert Hc.
  do 6 (destruct k as [|k]; [done|]). lia.
Qed.

Lemma hit_match t e : hit t 0 e ↔ swift_match t (e + 1).
Proof.
  unfold hit, swift_match. replace (e + 1 - 1) with e by lia.
  replace (e + 1 - 7) with (e - 6) by lia. split.
  - intros (HP & He & Hsemi & Hrun & Hdot & _). split_and!; try done; lia.
  - intros (HP & He & Hsemi & Hrun & Hdot). split_and!; try done; try lia.
Qed.

Lemma capture_drop t n i e : capture (drop n t) i e = capture t (n + i) (n + e).
Proof.
  unfold capture, sub. rewrite drop_drop. f_equal; [lia|]. f_equal. lia.
Qed.

Lemma hit_drop_after_semi t n i e :
  1 ≤ n → t !! (n - 1) = Some ";" →
  hit (drop n t) i e ↔ hit t (n + i) (n + e).
Proof.
  intros Hn Hsemi. unfold hit. rewrite !occ_drop, !lookup_drop. split.
  - intros (HP & He & Hs & Hrun & Hdot & Hguard). split_and!; try done; try lia.
    + intros j Hj. specialize (Hrun (j - n) ltac:(lia)). rewrite lookup_drop in Hrun.
      by replace (n + (j - n)) with j in Hrun by lia.
    + by replace (n + e - 6) with (n + (e - 6)) by lia.
    + intros a Ha Hocc. destruct (decide (n ≤ a)) as [Hge|Hlt].
      * destruct (Hguard (a - n)) as (j & Hj & Hjs); [lia| |].
        { apply occ_drop. by replace (n + (a - n)) with a by lia. }
        rewrite lookup_drop in Hjs. exists (n + j). split; [lia|done].
      * exists (n - 1). split; [lia|done].
  - intros (HP & He & Hs & Hrun & Hdot & Hguard). split_and!; try done; try lia.
    + intros j Hj. rewrite lookup_drop. apply Hrun. lia.
    + by replace (n + (e - 6)) with (n + e - 6) by lia.
    + intros a Ha Hocc. apply occ_drop in Hocc.
      destruct (Hguard (n + a)) as (j & Hj & Hjs); [lia|done|].
      exists (j - n). split; [lia|]. rewrite lookup_drop.
      by replace (n + (j - n)) with j by lia.
Qed.

Lemma occ_cons s c t i : occ s (c :: t) (S i) ↔ occ s t i.
Proof. symmetry. exact (occ_drop s (c :: t) 1 i). Qed.

Lemma capture_cons c t i e : capture (c :: t) (S i) (S e) = capture t i e.
Proof. symmetry. exact (capture_drop (c :: t) 1 i e). Qed.

Lemma hit_tail c t i e : hit (c :: t) (S i) (S e) → hit t i e.
Proof.
  unfold hit. intros (HP & He & Hs & Hrun & Hdot & Hguard).
  split_and!.
  - by apply occ_cons in HP.
  - lia.
  - done.
  - intros j Hj. apply (Hrun (S j)). lia.
  - apply (proj1 (occ_cons _ c _ _)).
    by replace (S (e - 6)) with (S e - 6) by lia.
  - intros a Ha Hocc. destruct (Hguard (S a)) as (j & Hj & Hjs); [lia| |].
    { by apply (proj2 (occ_cons _ c _ _)). }
    destruct j as [|j]; [lia|]. exists j. split; [lia|done].
Qed.

Lemma path_eq_no_semi t a j : occ PATH_EQ t a → a ≤ j < a + 7 → t !! j ≠ Some ";".
Proof.
  intros Hocc Hj Hs.
  destruct (lookup_lt_is_Some_2 PATH_EQ (j - a)) as [c Hc];
    [change (length PATH_EQ) with 7; lia|].
  pose proof (occ_char _ _ _ _ _ Hocc Hc) as Hc'.
  replace (a + (j - a)) with j in Hc' by lia.
  apply path_eq_not_semi in Hc. congruence.
Qed.

Lemma hit_cons c t i e :
  hit t i e → match_at swift_pattern (c :: t) = None → hit (c :: t) (S i) (S e).
Proof.
  unfold hit. intros (HP & He & Hs & Hrun & Hdot & Hguard) Hnone.
  assert (HP' : occ PATH_EQ (c :: t) (S i)) by (by apply (proj2 (occ_cons _ c _ _))).
  assert (Hdot' : occ DOT_SWIFT (c :: t) (S e - 6)).
  { replace (S e - 6) with (S (e - 6)) by lia. by apply (proj2 (occ_cons _ c _ _)). }
  split_and!.
  - done.
  - lia.
  - done.
  - intros [|j] Hj; [lia|]. apply Hrun. lia.
  - done.
  - intros a Ha Hocc. destruct a as [|a].
    + destruct (decide (";" ∈ take (S i) (c :: t))) as [Hin|Hnin].
      * apply list_elem_of_lookup in Hin as [j Hj].
        apply lookup_take_Some in Hj as [Hj Hlt]. exists j. split; [lia|done].
      * exfalso. assert (Hm : swift_match (c :: t) (S e + 1)).
        { pose proof (path_eq_apart _ _ _ Hocc HP' ltac:(lia)).
          unfold swift_match. replace (S e + 1 - 1) with (S e) by lia.
          replace (S e + 1 - 7) with (S e - 6) by lia.
          split_and!; try done; try lia.
          intros j Hj Hjs. destruct (decide (j < S i)) as [Hlt|Hge].
          - apply Hnin. apply list_elem_of_lookup. exists j.
            by apply lookup_take_Some.
          - destruct (decide (j < S i + 7)).
            + by apply (path_eq_no_semi _ _ j HP'); [lia|].
            + destruct j as [|j]; [lia|]. apply (Hrun j); [lia|done]. }
        apply match_at_swift in Hm. congruence.
    + destruct (Hguard a) as (j & Hj & Hjs); [lia| |].
      { by apply occ_cons in Hocc. }
      exists (S j). split; [lia|done].
Qed.

Lemma hit_length t i e : hit t i e → e < length t.
Proof. intros (_ & _ & Hs & _). by apply lookup_lt_Some in Hs. Qed.

(** [re.findall(swift_pattern, t)] returns the captures of the hits. *)
Lemma findall_hit t cap :
  cap ∈ findall swift_pattern 7 1 t ↔ ∃ i e, hit t i e ∧ cap = capture t i e.
Proof.
  remember (length t) as len eqn:Hlen. revert t Hlen cap.
  induction len as [len IH] using lt_wf_ind. intros t -> cap.
  destruct t as [|c t].
  { rewrite findall_nil. split; [by intros ?%elem_of_nil|].
    intros (i & e & Hh%hit_length & _). simpl in Hh. lia. }
  rewrite findall_cons.
  destruct (match_at swift_pattern (c :: t)) as [n|] eqn:Hm.
  - pose proof Hm as Hsm. apply match_at_swift in Hsm.
    assert (Hn : 15 ≤ n) by apply Hsm.
    assert (Hsemi : (c :: t) !! (n - 1) = Some ";") by apply Hsm.
    assert (Hdrop : drop (n - 1) t = drop n (c :: t)).
    { destruct n; [lia|]. simpl. by rewrite Nat.sub_0_r. }
    rewrite Hdrop, elem_of_cons.
    rewrite (IH (length (drop n (c :: t)))); [| rewrite length_drop; simpl; lia | done].
    split.
    + intros [->|(i & e & Hh & ->)].
      * exists 0, (n - 1). split.
        -- apply hit_match. by replace (n - 1 + 1) with n by lia.
        -- unfold capture, sub. f_equal. lia.
      * exists (n + i), (n + e). split; [by apply hit_drop_after_semi; [lia|..]|].
        apply capture_drop.
    + intros (i & e & Hh & ->). destruct i as [|i].
      * left. apply hit_match, match_at_swift in Hh.
        assert (n = e + 1) as -> by congruence.
        unfold capture, sub. f_equal. lia.
      * right. destruct Hh as (HP & He & Hs & Hrun & Hdot & Hguard).
        destruct (Hguard 0) as (j & Hj & Hjs); [lia|apply Hsm|].
        assert (7 ≤ j).
        { destruct (decide (7 ≤ j)); [done|]. exfalso.
          apply (path_eq_no_semi (c :: t) 0 j); [apply Hsm|lia|done]. }
        assert (n - 1 ≤ j).
        { destruct (decide (n - 1 ≤ j)); [done|]. exfalso.
          destruct Hsm as (_ & _ & _ & Hrun0 & _). apply (Hrun0 j); [lia|done]. }
        exists (S i - n), (e - n). split.
        -- apply hit_drop_after_semi; [lia|done|].
           replace (n + (S i - n)) with (S i) by lia.
           replace (n + (e - n)) with e by lia. by split_and!.
        -- rewrite capture_drop. f_equal; lia.
  - rewrite (IH (length t)); [| simpl; lia | done]. split.
    + intros (i & e & Hh & ->). exists (S i), (S e). split; [by apply hit_cons|].
      symmetry. apply capture_cons.
    + intros (i & e & Hh & ->). destruct i as [|i].
      * apply hit_match, match_at_swift in Hh. congruence.
      * destruct e as [|e]; [destruct Hh as (_ & ? & _); lia|].
        exists i, e. split; [by eapply hit_tail|].
        apply capture_cons.
Qed.

(** The engine on small inputs: leftmost matches without overlap, the
    longest run first, and backtracking to the last place where the rest
    of the pattern fits. *)
Example findall_sample :
  findall swift_pattern 7 1
    (str "x path = a.swift; path = b path = c.swift; path = .swift; path = d.txt;")
  = [str "a.swift"; str "b path = c.swift"].
Proof. reflexivity. Qed.

Example search_sources_sample :
  search sources_pattern (str "ab /* Sources */ = { x files = ( files = (abc) }")
  = Some (3, 45)
  ∧ search sources_pattern (str "ab /* Sources */ = { x files = ( files = () }")
    = Some (3, 42)
  ∧ search sources_pattern (str "/* Sources */ = {files = (abc)") = None.
Proof. split_and!; reflexivity. Qed.

Example strip_sample :
  strip DQUOTE ([DQUOTE; DQUOTE] ++ str "a b.swift" ++ [DQUOTE]) = str "a b.swift".
Proof. reflexivity. Qed.

(** ** Identifier tokens *)

Module UuidFacts.

Import Uuid.
Open Scope Z_scope.

Lemma hex_length n : length (hex n) = 32%nat.
Proof. unfold hex. by rewrite length_fmap, length_seq. Qed.

Lemma nibble_range x : 0 <= Z.land x 15 < 16.
Proof.
change 15 with (Z.ones 4). rewrite Z.land_ones by lia.
apply Z.mod_pos_bound. lia.
Qed.

Lemma hexdigit_lower d : 0 <= d < 16 -> is_lower_hex (hexdigit d).
Proof.
intros Hd. unfold is_lower_hex, hexdigit.
assert (Hn : (Z.to_nat d < 16)%nat) by lia.
revert Hn. generalize (Z.to_nat d). clear Hd. intros k Hk.
do 16 (destruct k as [|k]; [vm_compute; set_solver|]). lia.
Qed.

Lemma upper_lower_hex c : is_lower_hex c -> is_upper_hex (upper c).
Proof.
unfold is_lower_hex, is_upper_hex. intros Hc.
repeat (apply elem_of_cons in Hc as [->|Hc]; [vm_compute; set_solver|]).
by apply elem_of_nil in Hc.
Qed.

Lemma hex_lower n : Forall is_lower_hex (hex n).
Proof.
unfold hex. apply Forall_forall. intros c Hc.
apply list_elem_of_fmap in Hc as (k & -> & _).
apply hexdigit_lower, nibble_range.
Qed.


Lemma below_pow2_bits x n :
0 <= x -> 0 <= n -> (forall k, n <= k -> Z.testbit x k = false) -> x < 2 ^ n.
Proof.
intros Hx Hn Hbits. destruct (Z.eq_dec x 0) as [->|Hne].
- apply Z.pow_pos_nonneg; lia.
- apply Z.log2_lt_pow2; [lia|].
  destruct (Z_lt_le_dec (Z.log2 x) n) as [|Hle]; [done|].
  specialize (Hbits _ Hle). rewrite Z.bit_log2 in Hbits by lia. discriminate.
Qed.

Lemma bits_above_pow2 x n k :
0 <= x < 2 ^ n -> n <= k -> Z.testbit x k = false.
Proof.
intros [Hx Hlt] Hk. destruct (Z.eq_dec x 0) as [->|Hne].
- apply Z.bits_0.
- apply Z.bits_above_log2; [lia|].
  assert (0 <= n).
  { destruct (Z_lt_le_dec n 0) as [Hneg|]; [|done].
    rewrite Z.pow_neg_r in Hlt by done. lia. }
  assert (Z.log2 x < n) by (apply Z.log2_lt_pow2; lia). lia.
Qed.

Lemma uuid4_range r : 0 <= r < 2 ^ 128 -> 0 <= uuid4 r < 2 ^ 128.
Proof.
intros Hr. unfold uuid4. split.
- rewrite Z.lor_nonneg, Z.land_nonneg, Z.lor_nonneg, Z.land_nonneg.
  split; [left; split; [left; lia | done] | done].
- apply below_pow2_bits; [|lia|].
  + rewrite Z.lor_nonneg, Z.land_nonneg, Z.lor_nonneg, Z.land_nonneg.
    split; [left; split; [left; lia | done] | done].
  + intros k Hk.
    rewrite Z.lor_spec, Z.land_spec, Z.lor_spec, Z.land_spec.
    rewrite (bits_above_pow2 r 128 k) by done.
    rewrite (bits_above_pow2 (Z.shiftl 0x8000 48) 128 k) by (done || lia).
    rewrite (bits_above_pow2 (Z.shiftl 4 76) 128 k) by (done || lia).
    done.
Qed.

(** The version nibble and the variant bits land inside the 24 characters. *)
Lemma uuid4_version r : Z.land (Z.shiftr (uuid4 r) 76) 15 = 4.
Proof.
apply Z.bits_inj'. intros k Hk. unfold uuid4.
rewrite Z.land_spec, Z.shiftr_spec by done.
rewrite Z.lor_spec, Z.land_spec, Z.lor_spec, Z.land_spec.
rewrite !Z.lnot_spec by lia. rewrite !Z.shiftl_spec by lia.
destruct (Z_lt_le_dec k 4) as [Hlt|Hge].
- assert (Hc : k = 0 \/ k = 1 \/ k = 2 \/ k = 3) by lia.
  destruct Hc as [-> | [-> | [-> | ->]]]; simpl; rewrite ?andb_false_r; reflexivity.
- rewrite (bits_above_pow2 15 4 k) by (done || lia).
  rewrite (bits_above_pow2 4 4 k) by (done || lia).
  by rewrite andb_false_r.
Qed.

Lemma generate_uuid_ok r : token_ok (generate_uuid r).
Proof.
unfold generate_uuid. split.
- rewrite length_fmap, length_take, hex_length. done.
- apply Forall_fmap. eapply Forall_impl; [apply Forall_take, hex_lower|].
  intros c Hc. by apply upper_lower_hex.
Qed.

Lemma digit_value_hexdigit d : 0 <= d < 16 -> digit_value (hexdigit d) = d.
Proof.
intros Hd. rewrite <- (Z2Nat.id d) at 2 by lia.
unfold hexdigit. assert (Hn : (Z.to_nat d < 16)%nat) by lia.
revert Hn. generalize (Z.to_nat d). clear Hd. intros k Hk.
do 16 (destruct k as [|k]; [reflexivity|]). lia.
Qed.

Lemma hex_digits_S w n :
0 <= n ->
hex_digits (S w) n = hex_digits w (n / 16) ++ [hexdigit (n mod 16)].
Proof.
intros Hn. unfold hex_digits. rewrite seq_S, fmap_app. simpl. f_equal.
- apply list_fmap_ext. intros i k Hik.
  apply lookup_seq in Hik as [-> Hlt]. simpl. f_equal.
  change 16 with (2 ^ 4). rewrite <- Z.shiftr_div_pow2 by lia.
  rewrite Z.shiftr_shiftr by lia. do 2 f_equal. lia.
- do 2 f_equal. replace (4 * (Z.of_nat (S w) - 1 - Z.of_nat w)) with 0 by lia.
  rewrite Z.shiftr_0_r. change 15 with (Z.ones 4). by rewrite Z.land_ones by lia.
Qed.

Lemma int16_hex_digits w n : 0 <= n -> int16 (hex_digits w n) = n mod 16 ^ Z.of_nat w.
Proof.
revert n. induction w as [|w IH]; intros n Hn.
- simpl. by rewrite Z.mod_1_r.
- rewrite hex_digits_S by done. unfold int16 in *. rewrite foldl_app. simpl.
  rewrite IH by (apply Z.div_pos; lia).
  rewrite digit_value_hexdigit by (apply Z.mod_pos_bound; lia).
  rewrite Nat2Z.inj_succ, Z.pow_succ_r by lia.
  rewrite (Z.rem_mul_r n 16 (16 ^ Z.of_nat w)) by lia. lia.
Qed.

(** [hex] is the hexadecimal rendering: reading it back gives the number. *)
Lemma int16_hex n : 0 <= n < 2 ^ 128 -> int16 (hex n) = n.
Proof.
intros Hn. change (hex n) with (hex_digits 32 n).
rewrite int16_hex_digits by lia. apply Z.mod_small. 
change (16 ^ Z.of_nat 32) with (2 ^ 128). lia.
Qed.

End UuidFacts.

(** ** The methods, as equations *)

Lemma bind_eq {A B} (m : M A) (k : A → M B) u w :
  (m ≫= k) u w =
  match m u w with
  | (Return a, u', w') => k a u' w'
  | (Raise e, u', w') => (Raise e, u', w')
  end.
Proof. done. Qed.

Lemma map_m_cons {A B} (f : A → M B) x l u w :
  map_m f (x :: l) u w =
  match f x u w with
  | (Return y, u', w') =>
      match map_m f l u' w' with
      | (Return ys, u'', w'') => (Return (y :: ys), u'', w'')
      | (Raise e, u'', w'') => (Raise e, u'', w'')
      end
  | (Raise e, u', w') => (Raise e, u', w')
  end.
Proof. done. Qed.

Lemma for_each_cons {A} (body : A → M unit) x l u w :
  for_each (x :: l) body u w =
  match body x u w with
  | (Return _, u', w') => for_each l body u' w'
  | (Raise e, u', w') => (Raise e, u', w')
  end.
Proof. done. Qed.

Lemma for_each_print {A} (g : A → text) l u w :
  for_each l (fun x => print (g x)) u w = (Return tt, u, foldl log w (g <$> l)).
Proof.
  revert w. induction l as [|x l IH]; intros w; [done|].
  rewrite for_each_cons. unfold print at 1. by rewrite IH.
Qed.

Lemma foldl_log_disk w ls : disk (foldl log w ls) = disk w.
Proof. revert w. induction ls as [|l ls IH]; intros w; [done|]. simpl. by rewrite IH. Qed.

Lemma foldl_log_draws w ls : draws (foldl log w ls) = draws w.
Proof. revert w. induction ls as [|l ls IH]; intros w; [done|]. simpl. by rewrite IH. Qed.

Lemma foldl_add_existing (s : gset text) (ms : list text) :
  foldl (fun s m => {[strip DQUOTE m]} ∪ s) s ms
  = s ∪ list_to_set (strip DQUOTE <$> ms).
Proof.
  revert s. induction ms as [|m ms IH]; intros s.
  - change (s = s ∪ ∅). by rewrite (right_id_L ∅ (∪)).
  - cbn [foldl]. rewrite IH, fmap_cons, list_to_set_cons.
    by rewrite (assoc_L (∪)), (comm_L (∪) _ s).
Qed.

Lemma extract_existing_files_eq u w :
  extract_existing_files u w =
  (Return tt,
   with_existing (existing_files u ∪ existing_of (project_content u)) u, w).
Proof.
  unfold extract_existing_files. rewrite bind_eq. unfold get, set_existing_files.
  by rewrite foldl_add_existing.
Qed.

Lemma scan_spec ex acc paths :
  scan ex acc paths = acc ++ (new_file <$> filter (fun p => path_name p ∉ ex) paths).
Proof.
  unfold scan. revert acc. induction paths as [|p ps IH]; intros acc; simpl.
  - by rewrite app_nil_r.
  - rewrite IH, filter_cons. destruct (decide (path_name p ∈ ex)).
    + by rewrite decide_False by auto.
    + rewrite decide_True by auto. by rewrite fmap_cons, <- app_assoc.
Qed.

Lemma find_new_swift_files_eq u w :
  find_new_swift_files u w =
  (Return tt,
   with_files
     (files_to_add u
      ++ (new_file <$> filter (fun p => path_name p ∉ existing_files u)
                         (rglob (voice_control (disk w))))) u,
   w).
Proof. unfold find_new_swift_files, set_files_to_add. by rewrite scan_spec. Qed.

Lemma assign_uuids_eq rt fs u w :
  assign_uuids rt fs u w =
  (Return (tokens_for rt (draws w) fs), u, drawn w (2 * length fs)).
Proof.
  unfold assign_uuids, tokens_for. revert w.
  induction fs as [|f fs IH]; intros w.
  - simpl. unfold drawn. destruct w; simpl. by rewrite Nat.add_0_r.
  - rewrite map_m_cons.
    assert (Hbody :
      (generate_uuid rt ≫= λ r, generate_uuid rt ≫= λ b, mret (set_refs f r b)) u w
      = (Return (set_refs f (Uuid.generate_uuid (urandom rt (draws w)))
                   (Uuid.generate_uuid (urandom rt (draws w + 1)))), u,
         drawn w 2)).
    { unfold mbind, M_bind, generate_uuid, mret, M_ret, drawn.
      cbn [draws disk console]. do 2 f_equal. lia. }
    rewrite Hbody, IH. cbn [draws drawn]. f_equal; [f_equal|].
    + f_equal. simpl. f_equal.
      * do 3 f_equal; lia.
      * apply imap_ext. intros i x _. simpl. do 3 f_equal; lia.
    + unfold drawn. simpl. f_equal. lia.
Qed.

Lemma tokens_for_length rt n fs : length (tokens_for rt n fs) = length fs.
Proof. unfold tokens_for. apply length_imap. Qed.

Lemma tokens_for_lookup rt n fs i f :
  fs !! i = Some f →
  tokens_for rt n fs !! i =
  Some (set_refs f (Uuid.generate_uuid (urandom rt (n + 2 * i)))
                   (Uuid.generate_uuid (urandom rt (n + 2 * i + 1)))).
Proof. intros Hf. unfold tokens_for. by rewrite list_lookup_imap, Hf. Qed.

Lemma tokens_for_elem rt n fs f' :
  f' ∈ tokens_for rt n fs →
  ∃ f r b, f ∈ fs ∧ f' = set_refs f (Uuid.generate_uuid r) (Uuid.generate_uuid b).
Proof.
  intros (i & Hi)%list_elem_of_lookup. unfold tokens_for in Hi.
  rewrite list_lookup_imap in Hi.
  destruct (fs !! i) as [f|] eqn:Hf; [|done]. injection Hi as <-.
  eexists f, _, _. split; [by eapply list_elem_of_lookup_2|done].
Qed.

(** After the loop every record has its two keys. *)
Lemma tokens_for_refs rt n fs f :
  f ∈ tokens_for rt n fs → is_Some (file_ref f) ∧ is_Some (build_ref f).
Proof. intros (f0 & r & b & _ & ->)%tokens_for_elem. by split. Qed.

Lemma tokens_for_nil rt n fs : tokens_for rt n fs = [] ↔ fs = [].
Proof.
  split; [|by intros ->].
  intros H%(f_equal length). rewrite tokens_for_length in H.
  by destruct fs.
Qed.

Lemma tokens_for_groups rt n fs : group <$> tokens_for rt n fs = group <$> fs.
Proof.
  apply list_eq. intros i. rewrite !list_lookup_fmap. unfold tokens_for.
  rewrite list_lookup_imap. by destruct (fs !! i).
Qed.

Lemma tokens_for_filenames rt n fs : filename <$> tokens_for rt n fs = filename <$> fs.
Proof.
  apply list_eq. intros i. rewrite !list_lookup_fmap. unfold tokens_for.
  rewrite list_lookup_imap. by destruct (fs !! i).
Qed.

(** [add_files_to_group] *)
Lemma add_files_to_group_eq rt g u w :
  add_files_to_group rt g u w =
  let group_files := filter (fun f => group f = g) (files_to_add u) in
  if decide (group_files = []) then (Return tt, u, w)
  else match group_search rt g (project_content u) with
       | SearchError => (Raise (ReError (group_pattern_source g)), u, w)
       | SearchNone => (Return tt, u, w)
       | SearchMatch _ insert_pos =>
           (Return tt,
            with_content
              (splice (project_content u) insert_pos
                 ([LF] ++ join [LF] (group_entry <$> group_files))) u, w)
       end.
Proof.
  unfold add_files_to_group. rewrite bind_eq. unfold get. cbv zeta.
  case_decide; [done|]. by destruct (group_search rt g (project_content u)).
Qed.

Lemma add_files_to_group_plain rt g u w :
  plain_name g →
  add_files_to_group rt g u w =
  (Return tt, with_content (insert_group (files_to_add u) (project_content u) g) u, w).
Proof.
  intros Hp. rewrite add_files_to_group_eq. unfold insert_group, group_search. cbv zeta.
  rewrite (decide_True (P := plain_name g)) by done.
  destruct u as [c fs ex]. unfold with_content. simpl.
  case_decide; [done|].
  by destruct (Re.search (group_pattern g) c) as [[a b]|].
Qed.

Lemma for_each_groups_plain rt gs u w :
  Forall plain_name gs →
  for_each gs (add_files_to_group rt) u w =
  (Return tt,
   with_content (foldl (insert_group (files_to_add u)) (project_content u) gs) u, w).
Proof.
  revert u. induction gs as [|g gs IH]; intros u Hgs.
  - by destruct u.
  - apply Forall_cons in Hgs as [Hg Hgs].
    rewrite for_each_cons, add_files_to_group_plain by done.
    rewrite IH by done. by destruct u.
Qed.

(** [update_project] *)
Lemma update_project_nil rt u w :
  files_to_add u = [] →
  update_project rt u w = (Return tt, u, log w (str "No new files to add")).
Proof.
  intros Hnil. unfold update_project. rewrite bind_eq. unfold get.
  by rewrite decide_True by done.
Qed.

Lemma update_project_eq rt u w :
  files_to_add u ≠ [] →
  update_project rt u w =
  let fs := tokens_for rt (draws w) (files_to_add u) in
  let u1 := with_files fs u in
  let w1 := drawn w (2 * length (files_to_add u)) in
  let content := project_content u in
  match Re.search build_section_pattern content,
        Re.search file_ref_section_pattern content with
  | Some (build_insert_pos, _), Some _ =>
      let content := insert_build_files fs build_insert_pos content in
      match Re.search file_ref_section_pattern content with
      | Some (file_ref_insert_pos, _) =>
          let content := insert_file_refs fs file_ref_insert_pos content in
          for_each (set_iter rt (list_to_set (group <$> fs)))
            (add_files_to_group rt)
            (with_content (insert_sources fs content) u1) w1
      | None => (Raise AttributeError, with_content content u1, w1)
      end
  | _, _ => (Return tt, u1, log w1 (str "Could not find proper insertion points"))
  end.
Proof.
  intros Hne. unfold update_project. rewrite bind_eq. unfold get.
  rewrite decide_False by done. rewrite bind_eq, assign_uuids_eq.
  rewrite bind_eq. unfold set_files_to_add. cbv zeta.
  destruct (Re.search build_section_pattern (project_content u)) as [[p p']|]; [|done].
  destruct (Re.search file_ref_section_pattern (project_content u)) as [[q q']|]; [|done].
  rewrite bind_eq. unfold set_project_content at 1.
  destruct (Re.search file_ref_section_pattern (insert_build_files _ _ _))
    as [[q2 q2']|]; [|done].
  rewrite bind_eq. unfold set_project_content at 1.
  rewrite bind_eq. unfold set_project_content at 1.
  done.
Qed.

(** ** Frame and growth of the patch steps *)

Lemma insert_sources_splice fs t :
  ∃ pos new, insert_sources fs t = splice t pos new.
Proof.
  unfold insert_sources. destruct (Re.search sources_pattern t) as [[a b]|].
  - by eexists _, _.
  - exists 0, []. unfold splice. by rewrite take_0, drop_0.
Qed.

Lemma add_files_to_group_inv rt g u w :
  ∃ r u', add_files_to_group rt g u w = (r, u', w)
    ∧ files_to_add u' = files_to_add u
    ∧ existing_files u' = existing_files u
    ∧ ∃ pos new, project_content u' = splice (project_content u) pos new.
Proof.
  assert (Hid : ∃ pos new, project_content u = splice (project_content u) pos new).
  { exists 0, []. unfold splice. by rewrite take_0, drop_0. }
  rewrite add_files_to_group_eq. cbv zeta. case_decide.
  - by eexists _, _.
  - destruct (group_search rt g (project_content u)) as [| |a b].
    + by eexists _, _.
    + by eexists _, _.
    + eexists _, _. split_and!; try done. by eexists _, _.
Qed.

Lemma for_each_groups_inv rt gs u w :
  ∃ r u', for_each gs (add_files_to_group rt) u w = (r, u', w)
    ∧ files_to_add u' = files_to_add u
    ∧ existing_files u' = existing_files u
    ∧ project_content u `sublist_of` project_content u'.
Proof.
  revert u. induction gs as [|g gs IH]; intros u.
  - by exists (Return tt), u.
  - rewrite for_each_cons.
    destruct (add_files_to_group_inv rt g u w)
      as (r & u1 & -> & Hfs & Hex & pos & new & Hc).
    assert (Hsub : project_content u `sublist_of` project_content u1).
    { rewrite Hc. apply splice_sublist. }
    destruct r as [[]|e].
    + destruct (IH u1) as (r2 & u2 & -> & Hfs2 & Hex2 & Hsub2).
      exists r2, u2. split_and!; [done|congruence|congruence|by etrans].
    + by exists (Raise e), u1.
Qed.

Lemma update_project_inv rt u w :
  ∃ r u' w', update_project rt u w = (r, u', w')
    ∧ disk w' = disk w
    ∧ existing_files u' = existing_files u
    ∧ project_content u `sublist_of` project_content u'.
Proof.
  destruct (decide (files_to_add u = [])) as [Hnil|Hne].
  { rewrite update_project_nil by done. by eexists _, _, _. }
  rewrite update_project_eq by done. cbv zeta.
  destruct (Re.search build_section_pattern (project_content u)) as [[p p']|];
    [|by eexists _, _, _].
  destruct (Re.search file_ref_section_pattern (project_content u)) as [[q q']|];
    [|by eexists _, _, _].
  destruct (Re.search file_ref_section_pattern (insert_build_files _ _ _))
    as [[q2 q2']|];
    [|eexists _, _, _; split_and!; [done|done|done|apply splice_sublist]].
  match goal with |- context [for_each ?gs _ ?u1 ?w1] =>
    destruct (for_each_groups_inv rt gs u1 w1) as (r & u2 & -> & Hfs & Hex & Hsub)
  end.
  eexists r, u2, _. split_and!; [done|done|done|].
  etrans; [|exact Hsub]. cbn [project_content with_content].
  destruct (insert_sources_splice
              (tokens_for rt (draws w) (files_to_add u))
              (insert_file_refs (tokens_for rt (draws w) (files_to_add u)) q2
                 (insert_build_files (tokens_for rt (draws w) (files_to_add u)) p
                    (project_content u)))) as (pos & new & ->).
  etrans; [apply splice_sublist|]. etrans; [apply splice_sublist|].
  apply splice_sublist.
Qed.

(** The records and the draws after [update_project] on a non-empty
    list, whichever way it ends. *)
Lemma update_project_files rt u w :
  files_to_add u ≠ [] →
  files_to_add (update_project rt u w).1.2
    = tokens_for rt (draws w) (files_to_add u)
  ∧ draws (update_project rt u w).2 = draws w + 2 * length (files_to_add u).
Proof.
  intros Hne. rewrite update_project_eq by done. cbv zeta.
  destruct (Re.search build_section_pattern (project_content u)) as [[p p']|];
    [|done].
  destruct (Re.search file_ref_section_pattern (project_content u)) as [[q q']|];
    [|done].
  destruct (Re.search file_ref_section_pattern (insert_build_files _ _ _))
    as [[q2 q2']|]; [|done].
  match goal with |- context [for_each ?gs _ ?u1 ?w1] =>
    destruct (for_each_groups_inv rt gs u1 w1) as (r & u2 & -> & Hfs & _ & _)
  end.
  cbn [fst snd]. by rewrite Hfs.
Qed.

(** ** Opening the manifest *)

Lemma read_text_Return d c :
  read_text d = Return c ↔
  ∃ wr, xcodeproj d = Some (Regular c true wr) ∧ utf8 c = true.
Proof.
  unfold read_text. split.
  - destruct (xcodeproj d) as [[|cr| |b r wr]|]; try done.
    destruct r; [|done]. destruct (utf8 b) eqn:Hb; [|done].
    intros [= <-]. by exists wr.
  - intros (wr & -> & ->). done.
Qed.

(** The manifest a run has read can be written when it is writable, and
    stays readable. *)
Lemma read_write_state d c :
  read_text d = Return c → writable d →
  xcodeproj d = Some (Regular c true true) ∧ open_w d = Return true.
Proof.
  intros (wr & Hx & _)%read_text_Return [r Hw]. unfold open_w in *.
  rewrite Hx in *. destruct wr; [done|done].
Qed.

(** A manifest that was read and cannot be written lacks the permission. *)
Lemma read_only_state d c :
  read_text d = Return c → ¬ writable d → open_w d = Raise PermissionError.
Proof.
  intros (wr & Hx & _)%read_text_Return Hw. unfold writable, open_w in *.
  rewrite Hx in *. destruct wr; [|done]. destruct Hw. by exists true.
Qed.

Lemma write_project_eq u w r :
  open_w (disk w) = Return r →
  write_project u w =
  if utf8 (project_content u)
  then (Return tt, u, stored w r (written (project_content u)))
  else (Raise UnicodeEncodeError, u, stored w r []).
Proof. intros Hw. unfold write_project. by rewrite Hw. Qed.

Lemma write_project_raise u w e :
  open_w (disk w) = Raise e → write_project u w = (Raise e, u, w).
Proof. intros Hw. unfold write_project. by rewrite Hw. Qed.

(** ** [run], as an equation *)

Lemma run_unreadable rt w e :
  read_text (disk w) = Raise e →
  run rt init w = (Raise e, init, log w (str "Reading project file...")).
Proof.
  intros Hno. unfold run. rewrite bind_eq. unfold print at 1.
  rewrite bind_eq. unfold read_project. cbn [disk log]. by rewrite Hno.
Qed.

Lemma run_eq rt w c :
  read_text (disk w) = Return c →
  let t := universal_newlines c in
  let u0 := scanned_updater t (voice_control (disk w)) in
  run rt init w =
  if decide (files_to_add u0 = [])
  then (Return tt, u0, log (scanned w) (LF :: str "No new files found to add."))
  else
    match update_project rt u0 (announced w (files_to_add u0)) with
    | (Return _, u1, w1) =>
        match write_project u1 (log w1 (str "Writing updated project file...")) with
        | (Return _, u2, w2) => (Return tt, u2, finished w2)
        | (Raise e, u2, w2) => (Raise e, u2, w2)
        end
    | (Raise e, u1, w1) => (Raise e, u1, w1)
    end.
Proof.
  intros Hc. cbv zeta. unfold run.
  rewrite bind_eq. unfold print at 1.
  rewrite bind_eq. unfold read_project at 1. cbn [disk log]. rewrite Hc.
  unfold set_project_content.
  rewrite bind_eq. unfold print at 1.
  rewrite bind_eq, extract_existing_files_eq.
  rewrite bind_eq. unfold print at 1.
  rewrite bind_eq, find_new_swift_files_eq.
  rewrite bind_eq. unfold get.
  cbn [project_content files_to_add existing_files with_content with_existing
       with_files init disk log app].
  rewrite (left_id_L ∅ (∪)).
  change (with_files _ _) with (scanned_updater (universal_newlines c) (voice_control (disk w))).
  set (u0 := scanned_updater _ _).
  change (log (log (log w _) _) _) with (scanned w).
  change (new_file <$> filter _ _) with (files_to_add u0).
  destruct (decide (files_to_add u0 = [])) as [Hfs|Hfs]; [done|].
  rewrite bind_eq. unfold print at 1.
  rewrite bind_eq, for_each_print.
  rewrite bind_eq. unfold print at 1.
  rewrite bind_eq.
  change (log (foldl log (log (scanned w) _) _) _) with (announced w (files_to_add u0)).
  destruct (update_project rt u0 (announced w (files_to_add u0))) as [[[[]|e] u1] w1];
    [|done].
  rewrite bind_eq. unfold print at 1.
  rewrite bind_eq.
  destruct (write_project u1 _) as [[[[]|e] u2] w2]; done.
Qed.

(** A run with pending files whose update returns and whose text can be
    written. *)
Lemma run_written rt w c u1 w1 :
  read_text (disk w) = Return c → writable (disk w) →
  let u0 := scanned_updater (universal_newlines c) (voice_control (disk w)) in
  files_to_add u0 ≠ [] →
  update_project rt u0 (announced w (files_to_add u0)) = (Return tt, u1, w1) →
  utf8 (project_content u1) = true →
  run rt init w =
  (Return tt, u1,
   finished (stored (log w1 (str "Writing updated project file...")) true
               (written (project_content u1)))).
Proof.
  intros Hc Hw u0 Hne Hup Hutf.
  pose proof (run_eq rt w c Hc) as Heq. cbv zeta in Heq. fold u0 in Heq.
  rewrite decide_False in Heq by done. rewrite Hup in Heq.
  destruct (update_project_inv rt u0 (announced w (files_to_add u0)))
    as (r & u1' & w1' & Hup' & Hdisk & _ & _).
  rewrite Hup in Hup'. injection Hup' as <- <- <-.
  destruct (read_write_state _ _ Hc Hw) as [_ Hopen].
  rewrite (write_project_eq _ _ true) in Heq.
  - by rewrite Hutf in Heq.
  - cbn [disk log]. rewrite Hdisk. unfold announced, scanned. cbn [disk log].
    rewrite foldl_log_disk. done.
Qed.

(** ** Well-formed UTF-8 *)

Ltac compare_codes :=
  repeat match goal with
         | |- context [(?a <? ?b)%nat] => destruct (Nat.ltb_spec a b); try lia
         | |- context [(?a <=? ?b)%nat] => destruct (Nat.leb_spec a b); try lia
         | |- context [(?a =? ?b)%nat] => destruct (Nat.eqb_spec a b); try lia
         end.

Lemma continuation_ge y : continuation y = true → 128 ≤ y.
Proof. unfold continuation. compare_codes; done. Qed.

Lemma second_of_three_ge x y : second_of_three x y = true → 128 ≤ y.
Proof.
  unfold second_of_three.
  destruct (x =? 224)%nat; [compare_codes; done|].
  destruct (x =? 237)%nat; [compare_codes; done|]. apply continuation_ge.
Qed.

Lemma second_of_four_ge x y : second_of_four x y = true → 128 ≤ y.
Proof.
  unfold second_of_four.
  destruct (x =? 240)%nat; [compare_codes; done|].
  destruct (x =? 244)%nat; [compare_codes; done|]. apply continuation_ge.
Qed.

(** A sequence is one ASCII character, or two to four bytes none of which
    is ASCII. *)
Lemma scalar_bytes s :
  scalar s →
  (∃ a, s = [a] ∧ plain a) ∨ (1 < length s ∧ Forall (fun x => 128 ≤ code x) s).
Proof.
  destruct s as [|a [|b [|c [|d [|e s]]]]]; simpl; try done.
  - intros Ha. left. by exists a.
  - intros (Ha & Hb%continuation_ge). right. split; [lia|].
    repeat constructor; lia.
  - intros (Ha & Hb%second_of_three_ge & Hc%continuation_ge). right.
    split; [lia|]. repeat constructor; lia.
  - intros (Ha & Hb%second_of_four_ge & Hc%continuation_ge & Hd%continuation_ge).
    right. split; [lia|]. repeat constructor; lia.
Qed.

Lemma utf8_scalar_app s t : scalar s → utf8 (s ++ t) = utf8 t.
Proof.
  destruct s as [|a [|b [|c [|d [|e s]]]]]; cbn [scalar utf8 app]; try done.
  - intros Ha. compare_codes; cbn [andb]; done.
  - intros (Ha & ->). compare_codes; cbn [andb]; done.
  - intros (Ha & -> & ->). compare_codes; cbn [andb]; done.
  - intros (Ha & -> & -> & ->). compare_codes; cbn [andb]; done.
Qed.

Lemma utf8_inv t :
  utf8 t = true →
  t = [] ∨ ∃ s t', t = s ++ t' ∧ scalar s ∧ utf8 t' = true.
Proof.
  destruct t as [|a t1]; [by left|right]. cbn [utf8] in H.
  destruct (Nat.ltb_spec (code a) 128) as [Ha|Ha].
  { by exists [a], t1. }
  destruct t1 as [|b t2]; [done|].
  destruct ((194 <=? code a) && (code a <=? 223))%nat eqn:H2.
  { apply andb_true_iff in H as [Hb Ht]. apply andb_true_iff in H2 as [H2a H2b].
    apply Nat.leb_le in H2a, H2b. exists [a; b], t2. by repeat split. }
  destruct t2 as [|c t3]; [done|].
  destruct ((224 <=? code a) && (code a <=? 239))%nat eqn:H3.
  { apply andb_true_iff in H as [[Hb Hc]%andb_true_iff Ht].
    apply andb_true_iff in H3 as [H3a H3b].
    apply Nat.leb_le in H3a, H3b. exists [a; b; c], t3. by repeat split. }
  destruct t3 as [|d t4]; [done|].
  apply andb_true_iff in H as [H Ht]. apply andb_true_iff in H as [H Hd].
  apply andb_true_iff in H as [H Hc]. apply andb_true_iff in H as [H Hb].
  apply andb_true_iff in H as [H4a H4b]. apply Nat.leb_le in H4a, H4b.
  exists [a; b; c; d], t4. by repeat split.
Qed.

Lemma scalar_length s : scalar s → 0 < length s.
Proof. destruct s; [done|simpl; lia]. Qed.

Lemma utf8_ind (P : text → Prop) :
  P [] →
  (∀ s t, scalar s → utf8 t = true → P t → P (s ++ t)) →
  ∀ t, utf8 t = true → P t.
Proof.
  intros Hnil Hstep t. remember (length t) as n eqn:Hn. revert t Hn.
  induction n as [n IH] using lt_wf_ind. intros t -> Ht.
  destruct (utf8_inv t Ht) as [->|(s & t' & -> & Hs & Ht')]; [done|].
  apply Hstep; [done|done|]. eapply IH; [|done|done].
  rewrite length_app. pose proof (scalar_length s Hs). lia.
Qed.

Lemma utf8_app a b : utf8 a = true → utf8 b = true → utf8 (a ++ b) = true.
Proof.
  intros Ha Hb. revert a Ha. apply utf8_ind; [done|].
  intros s t Hs Ht IH. by rewrite <- app_assoc, utf8_scalar_app.
Qed.

Lemma utf8_cons_plain a t : plain a → utf8 (a :: t) = utf8 t.
Proof. intros Ha. by apply (utf8_scalar_app [a] t). Qed.

Lemma utf8_plain t : Forall plain t → utf8 t = true.
Proof.
  induction 1 as [|a t Ha Ht IH]; [done|]. by rewrite utf8_cons_plain.
Qed.

(** A well-formed text can be cut in front of an ASCII character. *)
Lemma utf8_split t p :
  utf8 t = true → (∀ x, t !! p = Some x → plain x) →
  utf8 (take p t) = true ∧ utf8 (drop p t) = true.
Proof.
  intros Ht. revert t Ht p. apply (utf8_ind (fun t => ∀ p, _ → _ ∧ _)).
  { intros p _. by rewrite take_nil, drop_nil. }
  intros s t Hs Ht IH p Hp.
  destruct (decide (p = 0)) as [->|Hp0].
  { rewrite take_0, drop_0. split; [done|]. by rewrite utf8_scalar_app. }
  pose proof (scalar_length s Hs) as Hlen.
  destruct (decide (p < length s)) as [Hlt|Hge].
  - exfalso. destruct (scalar_bytes s Hs) as [(a & -> & _)|[_ Hall]].
    + simpl in Hlt. lia.
    + destruct (lookup_lt_is_Some_2 s p Hlt) as [x Hx].
      rewrite Forall_forall in Hall.
      pose proof (Hall x (list_elem_of_lookup_2 _ _ _ Hx)) as Hge.
      specialize (Hp x). rewrite lookup_app_l in Hp by done.
      specialize (Hp Hx). unfold plain in Hp. lia.
  - rewrite take_app_ge, drop_app_ge by lia.
    destruct (IH (p - length s)) as [H1 H2].
    { intros x Hx. apply Hp. rewrite lookup_app_r by lia. done. }
    split; [|done]. by rewrite utf8_scalar_app.
Qed.

Lemma splice_utf8 t p new :
  utf8 t = true → utf8 new = true → (∀ x, t !! p = Some x → plain x) →
  utf8 (splice t p new) = true.
Proof.
  intros Ht Hn Hp. destruct (utf8_split t p Ht Hp) as [H1 H2].
  unfold splice. by repeat apply utf8_app.
Qed.

Lemma universal_newlines_app s t :
  Forall (fun x => x ≠ CR) s →
  universal_newlines (s ++ t) = s ++ universal_newlines t.
Proof.
  induction 1 as [|a s Ha Hs IH]; [done|].
  cbn [app universal_newlines]. rewrite decide_False by done. by rewrite IH.
Qed.

(** The text read from a file that decodes can be written. *)
Lemma utf8_universal_newlines t :
  utf8 t = true → utf8 (universal_newlines t) = true.
Proof.
  remember (length t) as n eqn:Hn. revert t Hn.
  induction n as [n IH] using lt_wf_ind. intros t -> Ht.
  destruct (utf8_inv t Ht) as [->|(s & t' & -> & Hs & Ht')]; [done|].
  destruct (scalar_bytes s Hs) as [(a & -> & Ha)|[Hlen Hall]].
  - cbn [app universal_newlines]. case_decide as Hcr.
    + destruct t' as [|d t'']; [done|].
      assert (Hlf : plain LF) by (unfold plain; vm_compute; lia).
      case_decide as Hd.
      * subst d. rewrite utf8_cons_plain in Ht' by done.
        rewrite utf8_cons_plain by done.
        eapply IH; [|done|done]. simpl. lia.
      * rewrite utf8_cons_plain by done.
        eapply IH; [|done|done]. simpl. lia.
    + rewrite utf8_cons_plain by done.
      eapply IH; [|done|done]. simpl. lia.
  - rewrite universal_newlines_app.
    + rewrite utf8_scalar_app by done. eapply IH; [|done|done].
      rewrite length_app. lia.
    + eapply Forall_impl; [exact Hall|]. intros x Hx ->.
      vm_compute in Hx. lia.
Qed.

(** Accepted: two, three and four bytes of one character.  Refused: a
    byte of Latin-1, an overlong form, a surrogate, a value above
    U+10FFFF, a sequence cut short. *)
Example utf8_samples :
  utf8 (str "caf" ++ ["195"; "169"]) = true
  ∧ utf8 ["226"; "130"; "172"] = true
  ∧ utf8 ["240"; "159"; "152"; "128"] = true
  ∧ utf8 (str "caf" ++ ["233"]) = false
  ∧ utf8 ["192"; "128"] = false
  ∧ utf8 ["237"; "160"; "128"] = false
  ∧ utf8 ["244"; "144"; "128"; "128"] = false
  ∧ utf8 ["226"; "130"] = false.
Proof. by vm_compute. Qed.

(** ** The scan (sections 4.3 and 8 of the specification) *)

Ltac by_compute := apply (bool_decide_unpack _); vm_compute; exact I.

(** C5. Group classification: a scanned file whose base name is not in
    the existing-entry set gets a record whose group is the first segment
    of its relative path when that path has more than one segment, and
    ["VoiceControl"] otherwise. *)
Theorem group_classification u w (rel : rel_path) :
  rel ∈ rglob (voice_control (disk w)) →
  path_name rel ∉ existing_files u →
  ∃ f, (f ∈ files_to_add (find_new_swift_files u w).1.2)
       ∧ path f = path_str rel
       ∧ filename f = path_name rel
       ∧ (1 < length rel → head rel = Some (group f))
       ∧ (length rel ≤ 1 → group f = str "VoiceControl").
Proof.
  intros Hin Hex. exists (new_file rel). rewrite find_new_swift_files_eq.
  cbn [fst snd files_to_add with_files].
  split; [|split; [done|split; [done|split]]].
  - apply elem_of_app. right. apply list_elem_of_fmap. exists rel. split; [done|].
    by apply list_elem_of_filter.
  - intros Hlen. destruct rel as [|g rest]; simpl in *; [lia|].
    by rewrite decide_True by lia.
  - intros Hlen. simpl. by rewrite decide_False by lia.
Qed.

Lemma group_classification_witness :
  let w := Samples.world_of None Samples.tree in
  let rel := [str "Core"; Samples.Bar] in
  (rel ∈ rglob (voice_control (disk w)))
  ∧ (path_name rel ∉ existing_files init)
  ∧ ∃ f, (f ∈ files_to_add (find_new_swift_files init w).1.2)
         ∧ path f = path_str rel
         ∧ filename f = path_name rel
         ∧ (1 < length rel → head rel = Some (group f))
         ∧ (length rel ≤ 1 → group f = str "VoiceControl").
Proof.
  cbv zeta. split; [by_compute|]. split; [by_compute|].
  apply group_classification; by_compute.
Defined.

(** C2, as stated, fails: with [A/Foo.swift] and [B/Foo.swift] and an
    empty existing-entry set the scan appends a record for each of the two,
    the second included. *)
Lemma same_base_name_second_not_skipped :
  let w := Samples.world_of None Samples.twins in
  let first := [str "A"; Samples.Foo] in
  let second := [str "B"; Samples.Foo] in
  rglob (voice_control (disk w)) = [first; second]
  ∧ path_name first = path_name second
  ∧ (path_name second ∉ existing_files init)
  ∧ files_to_add (find_new_swift_files init w).1.2 = [new_file first; new_file second].
Proof. cbv zeta. split_and!; [done|done|by_compute|by vm_compute]. Qed.

(** C2, amended. The scan tests membership in the existing-entry set
    only, and does not extend that set: the records appended are those of
    all traversed paths whose base name is not in the set, in traversal
    order, so two files with one base name are both added. *)
Theorem same_base_name_both_added u w (p1 p2 : rel_path) :
  p1 ∈ rglob (voice_control (disk w)) →
  p2 ∈ rglob (voice_control (disk w)) →
  path_name p1 = path_name p2 →
  path_name p1 ∉ existing_files u →
  let u' := (find_new_swift_files u w).1.2 in
  (new_file p1 ∈ files_to_add u') ∧ (new_file p2 ∈ files_to_add u')
  ∧ existing_files u' = existing_files u
  ∧ files_to_add u' =
      files_to_add u
      ++ (new_file <$> filter (fun p => path_name p ∉ existing_files u)
                         (rglob (voice_control (disk w)))).
Proof.
  intros H1 H2 Heq Hex. cbv zeta. rewrite find_new_swift_files_eq.
  cbn [fst snd files_to_add existing_files with_files].
  split_and!; [| |done|done].
  - apply elem_of_app. right. apply list_elem_of_fmap. exists p1. split; [done|].
    by apply list_elem_of_filter.
  - apply elem_of_app. right. apply list_elem_of_fmap. exists p2. split; [done|].
    apply list_elem_of_filter. split; [|done]. by rewrite <- Heq.
Qed.

Lemma same_base_name_both_added_witness :
  let w := Samples.world_of None Samples.twins in
  let p1 := [str "A"; Samples.Foo] in
  let p2 := [str "B"; Samples.Foo] in
  (p1 ∈ rglob (voice_control (disk w)))
  ∧ (p2 ∈ rglob (voice_control (disk w)))
  ∧ path_name p1 = path_name p2
  ∧ (path_name p1 ∉ existing_files init)
  ∧ (let u' := (find_new_swift_files init w).1.2 in
     (new_file p1 ∈ files_to_add u') ∧ (new_file p2 ∈ files_to_add u')
     ∧ existing_files u' = existing_files init
     ∧ files_to_add u' =
         files_to_add init
         ++ (new_file <$> filter (fun p => path_name p ∉ existing_files init)
                            (rglob (voice_control (disk w))))).
Proof.
  cbv zeta. split; [by_compute|]. split; [by_compute|]. split; [done|].
  split; [by_compute|].
  apply (same_base_name_both_added init
           (Samples.world_of None Samples.twins)
           [str "A"; Samples.Foo] [str "B"; Samples.Foo]);
    [by_compute|by_compute|done|by_compute].
Defined.

(** ** Identifier tokens (section 4.4) *)

(** C6. Every identifier is the first 24 of the 32 lower-case hexadecimal
    digits of the 128-bit number of [uuid4], upper-cased, hence a string of
    24 upper-case hexadecimal digits; the loop of [update_project] gives
    each pending file two of them, its file-reference and its build-entry
    token, from two draws of its own. *)
Theorem identifier_tokens rt u w :
  (∀ i, (0 ≤ urandom rt i < 2 ^ 128)%Z) →
  let fs := files_to_add u in
  ∃ fs',
    assign_uuids rt fs u w = (Return fs', u, drawn w (2 * length fs))
    ∧ (fs ≠ [] →
       files_to_add (update_project rt u w).1.2 = fs'
       ∧ draws (update_project rt u w).2 = draws w + 2 * length fs)
    ∧ length fs' = length fs
    ∧ ∀ i f, fs !! i = Some f →
        ∃ n m : Z,
          n = Uuid.uuid4 (urandom rt (draws w + 2 * i))
          ∧ m = Uuid.uuid4 (urandom rt (draws w + 2 * i + 1))
          ∧ (0 ≤ n < 2 ^ 128)%Z ∧ (0 ≤ m < 2 ^ 128)%Z
          ∧ length (Uuid.hex n) = 32 ∧ Uuid.int16 (Uuid.hex n) = n
          ∧ length (Uuid.hex m) = 32 ∧ Uuid.int16 (Uuid.hex m) = m
          ∧ Forall Uuid.is_lower_hex (Uuid.hex n)
          ∧ Forall Uuid.is_lower_hex (Uuid.hex m)
          ∧ fs' !! i =
              Some (set_refs f (Uuid.upper <$> take 24 (Uuid.hex n))
                               (Uuid.upper <$> take 24 (Uuid.hex m)))
          ∧ Uuid.token_ok (Uuid.upper <$> take 24 (Uuid.hex n))
          ∧ Uuid.token_ok (Uuid.upper <$> take 24 (Uuid.hex m)).
Proof.
  intros Hrand fs. exists (tokens_for rt (draws w) fs).
  split; [apply assign_uuids_eq|].
  split; [intros Hne; by apply update_project_files|].
  split; [apply tokens_for_length|].
  intros i f Hf. eexists _, _. split; [done|]. split; [done|].
  pose proof (UuidFacts.uuid4_range _ (Hrand (draws w + 2 * i))) as Hn.
  pose proof (UuidFacts.uuid4_range _ (Hrand (draws w + 2 * i + 1))) as Hm.
  pose proof (UuidFacts.int16_hex _ Hn). pose proof (UuidFacts.int16_hex _ Hm).
  destruct Hn, Hm.
  split_and!; try done;
    first [ apply UuidFacts.hex_lower
          | by apply tokens_for_lookup
          | apply UuidFacts.generate_uuid_ok
          | apply (proj1 (UuidFacts.generate_uuid_ok _))
          | apply (proj2 (UuidFacts.generate_uuid_ok _)) ].
Qed.

Lemma identifier_tokens_witness :
  let u := scanned_updater [] Samples.tree in
  let w := Samples.world_of None Samples.tree in
  let fs := files_to_add u in
  (∀ i, (0 ≤ urandom Samples.rt i < 2 ^ 128)%Z)
  ∧ ∃ fs',
      assign_uuids Samples.rt fs u w = (Return fs', u, drawn w (2 * length fs))
      ∧ (fs ≠ [] →
         files_to_add (update_project Samples.rt u w).1.2 = fs'
         ∧ draws (update_project Samples.rt u w).2 = draws w + 2 * length fs)
      ∧ length fs' = length fs
      ∧ ∀ i f, fs !! i = Some f →
          ∃ n m : Z,
            n = Uuid.uuid4 (urandom Samples.rt (draws w + 2 * i))
            ∧ m = Uuid.uuid4 (urandom Samples.rt (draws w + 2 * i + 1))
            ∧ (0 ≤ n < 2 ^ 128)%Z ∧ (0 ≤ m < 2 ^ 128)%Z
            ∧ length (Uuid.hex n) = 32 ∧ Uuid.int16 (Uuid.hex n) = n
            ∧ length (Uuid.hex m) = 32 ∧ Uuid.int16 (Uuid.hex m) = m
            ∧ Forall Uuid.is_lower_hex (Uuid.hex n)
            ∧ Forall Uuid.is_lower_hex (Uuid.hex m)
            ∧ fs' !! i =
                Some (set_refs f (Uuid.upper <$> take 24 (Uuid.hex n))
                                 (Uuid.upper <$> take 24 (Uuid.hex m)))
            ∧ Uuid.token_ok (Uuid.upper <$> take 24 (Uuid.hex n))
            ∧ Uuid.token_ok (Uuid.upper <$> take 24 (Uuid.hex m)).
Proof.
  cbv zeta.
  assert (Hrand : ∀ i, (0 ≤ urandom Samples.rt i < 2 ^ 128)%Z).
  { intros i. apply Z.mod_pos_bound. lia. }
  split; [exact Hrand|].
  exact (identifier_tokens Samples.rt (scanned_updater [] Samples.tree)
           (Samples.world_of None Samples.tree) Hrand).
Defined.

(** The three files of the sample tree get six different tokens. *)
Example generate_uuid_tokens :
  (fun f => (the_ref (file_ref f), the_ref (build_ref f)))
    <$> tokens_for Samples.rt 0 (pending_of [] Samples.tree)
  = [(str "0123456789AB4DEF81234567", str "02468ACF13574BDE82468ACF");
     (str "0369D0369D0349CD8369D036", str "048D159E26AF47BC848D159E");
     (str "05B05B05B05B45AB85B05B05", str "06D3A06D3A06439A86D3A06D")].
Proof. vm_compute. reflexivity. Qed.

Example generate_uuid_sample :
  Uuid.generate_uuid (urandom Samples.rt 0) = str "0123456789AB4DEF81234567".
Proof. vm_compute. reflexivity. Qed.

(** ** Reading and writing the manifest *)

Lemma universal_newlines_id c : CR ∉ c → universal_newlines c = c.
Proof.
  induction c as [|x c IH]; [done|]. intros Hnin.
  apply not_elem_of_cons in Hnin as [Hx Hc].
  cbn [universal_newlines]. rewrite decide_False by done. by rewrite IH.
Qed.

Lemma universal_newlines_no_cr c : CR ∉ universal_newlines c.
Proof.
  remember (length c) as n eqn:Hn. revert c Hn.
  induction n as [n IH] using lt_wf_ind. intros c ->.
  destruct c as [|x c]; [apply not_elem_of_nil|].
  cbn [universal_newlines]. case_decide as Hx.
  - apply not_elem_of_cons. split; [done|].
    destruct c as [|d c]; [apply not_elem_of_nil|].
    case_decide; (eapply IH; [|done]; simpl; lia).
  - apply not_elem_of_cons. split; [done|]. eapply IH; [|done]. simpl; lia.
Qed.

(** ** The precondition gate (section 4.7) *)

(** C7. When [VoiceControl.xcodeproj] is absent, [main] prints its two
    error lines and returns normally; nothing is read, patched or written:
    the file system and the number of random draws are as before. *)
Theorem main_without_project rt w :
  xcodeproj (disk w) = None →
  ∃ w', main rt w = (Return tt, w')
    ∧ disk w' = disk w
    ∧ draws w' = draws w
    ∧ console w' =
        console w
        ++ [str "Error: VoiceControl.xcodeproj not found in current directory";
            str "Please run this script from the project root directory"].
Proof.
  intros Hno. unfold main. rewrite Hno. eexists. split; [done|].
  cbn [disk draws console log]. by rewrite <- app_assoc.
Qed.

Lemma main_without_project_witness :
  let w := Samples.world_of None Samples.tree in
  xcodeproj (disk w) = None
  ∧ ∃ w', main Samples.rt w = (Return tt, w')
      ∧ disk w' = disk w
      ∧ draws w' = draws w
      ∧ console w' =
          console w
          ++ [str "Error: VoiceControl.xcodeproj not found in current directory";
              str "Please run this script from the project root directory"].
Proof.
  cbv zeta. split; [reflexivity|].
  apply (main_without_project Samples.rt (Samples.world_of None Samples.tree)).
  reflexivity.
Defined.

Lemma main_with_project rt w m :
  xcodeproj (disk w) = Some m →
  main rt w = ((run rt init w).1.1, (run rt init w).2).
Proof.
  intros Hm. unfold main. rewrite Hm. by destruct (run rt init w) as [[r u] w'].
Qed.

(** ** Nothing to add (section 4.7) *)

Lemma pending_of_nil t root :
  pending_of t root = [] ↔ ∀ p, p ∈ rglob root → path_name p ∈ existing_of t.
Proof.
  unfold pending_of. split.
  - intros Hnil%fmap_nil_inv p Hp.
    destruct (decide (path_name p ∈ existing_of t)) as [|Hn]; [done|].
    by destruct (filter_nil_not_elem_of _ _ p Hnil Hn).
  - intros Hall.
    assert (filter (fun p => path_name p ∉ existing_of t) (rglob root) = []) as ->; [|done].
    induction (rglob root) as [|p ps IH]; [done|].
    rewrite filter_cons, decide_False.
    + apply IH. intros q Hq. apply Hall. by right.
    + intros Hn. apply Hn, Hall. by left.
Qed.

(** C9. When every discovered file's base name is already in the
    existing-entry set, [run] reports that there is nothing to add and
    stops: no identifier is drawn, the manifest text is the text read, and
    the file system is as before.  [update_project] itself returns at once
    on an empty list. *)
Theorem nothing_to_add rt w c :
  read_text (disk w) = Return c →
  (∀ p, p ∈ rglob (voice_control (disk w)) →
        path_name p ∈ existing_of (universal_newlines c)) →
  (∃ u' w',
     run rt init w = (Return tt, u', w')
     ∧ main rt w = (Return tt, w')
     ∧ files_to_add u' = []
     ∧ project_content u' = universal_newlines c
     ∧ disk w' = disk w
     ∧ draws w' = draws w
     ∧ console w' =
         console w
         ++ [str "Reading project file..."; str "Extracting existing files...";
             str "Finding new Swift files...";
             LF :: str "No new files found to add."])
  ∧ (∀ u1 w1, files_to_add u1 = [] →
       update_project rt u1 w1 = (Return tt, u1, log w1 (str "No new files to add"))).
Proof.
  intros Hc Hall. split; [|intros u1 w1; apply update_project_nil].
  apply pending_of_nil in Hall.
  pose proof (run_eq rt w c Hc) as Hrun. cbv zeta in Hrun.
  rewrite decide_True in Hrun by done.
  eexists _, _. split; [exact Hrun|].
  destruct (proj1 (read_text_Return _ _) Hc) as (wr & Hx & _).
  split; [by rewrite (main_with_project _ _ _ Hx), Hrun|].
  cbn [files_to_add project_content scanned_updater disk draws console log scanned].
  split_and!; try done. by rewrite <- !app_assoc.
Qed.

Lemma nothing_to_add_witness :
  let c := str "path = Foo.swift; path = Bar.swift; path = Old.swift;" in
  let w := Samples.world_of (Samples.file c) Samples.tree in
  read_text (disk w) = Return c
  ∧ (∀ p, p ∈ rglob (voice_control (disk w)) →
          path_name p ∈ existing_of (universal_newlines c))
  ∧ (∃ u' w',
       run Samples.rt init w = (Return tt, u', w')
       ∧ main Samples.rt w = (Return tt, w')
       ∧ files_to_add u' = []
       ∧ project_content u' = universal_newlines c
       ∧ disk w' = disk w
       ∧ draws w' = draws w
       ∧ console w' =
           console w
           ++ [str "Reading project file..."; str "Extracting existing files...";
               str "Finding new Swift files...";
               LF :: str "No new files found to add."])
  ∧ (∀ u1 w1, files_to_add u1 = [] →
       update_project Samples.rt u1 w1
       = (Return tt, u1, log w1 (str "No new files to add"))).
Proof.
  cbv zeta.
  assert (Hall : ∀ p,
    p ∈ rglob Samples.tree →
    path_name p ∈ existing_of
      (universal_newlines (str "path = Foo.swift; path = Bar.swift; path = Old.swift;"))).
  { apply pending_of_nil. vm_compute. reflexivity. }
  split; [reflexivity|]. split; [exact Hall|].
  exact (nothing_to_add Samples.rt
           (Samples.world_of
              (Samples.file (str "path = Foo.swift; path = Bar.swift; path = Old.swift;"))
              Samples.tree)
           _ eq_refl Hall).
Defined.

(** ** Missing end-markers (sections 4.5 and 7) *)

Lemma update_project_missing_anchor rt u w :
  files_to_add u ≠ [] →
  Re.search build_section_pattern (project_content u) = None
  ∨ Re.search file_ref_section_pattern (project_content u) = None →
  update_project rt u w =
  (Return tt, with_files (tokens_for rt (draws w) (files_to_add u)) u,
   log (drawn w (2 * length (files_to_add u)))
     (str "Could not find proper insertion points")).
Proof.
  intros Hne Hmiss. rewrite update_project_eq by done. cbv zeta.
  destruct Hmiss as [-> | ->]; [done|].
  by destruct (Re.search build_section_pattern (project_content u)) as [[p p']|].
Qed.




(** ** Insertion only *)

(** C10. Each of the four patch steps turns the text into a splice of
    itself at one position, and a splice keeps every character of the text
    in place and order; hence whatever [update_project] leaves in
    [self.project_content], normally or on an exception, has the text it
    started from as a subsequence and is at least as long. *)
Theorem insertion_only rt :
  (∀ t pos new,
     t `sublist_of` splice t pos new
     ∧ length (splice t pos new) = length t + length new)
  ∧ (∀ fs pos t, ∃ new, insert_build_files fs pos t = splice t pos new)
  ∧ (∀ fs pos t, ∃ new, insert_file_refs fs pos t = splice t pos new)
  ∧ (∀ fs t, ∃ pos new, insert_sources fs t = splice t pos new)
  ∧ (∀ g u w, ∃ pos new,
       project_content (add_files_to_group rt g u w).1.2
       = splice (project_content u) pos new)
  ∧ (∀ u w,
       project_content u `sublist_of` project_content (update_project rt u w).1.2
       ∧ length (project_content u)
         ≤ length (project_content (update_project rt u w).1.2)).
Proof.
  split_and!.
  - intros t pos new. split; [apply splice_sublist|apply splice_length].
  - intros fs pos t. by eexists.
  - intros fs pos t. by eexists.
  - apply insert_sources_splice.
  - intros g u w.
    destruct (add_files_to_group_inv rt g u w) as (r & u' & -> & _ & _ & Hs).
    exact Hs.
  - intros u w.
    destruct (update_project_inv rt u w) as (r & u' & w' & -> & _ & _ & Hs).
    split; [exact Hs|]. by apply sublist_length.
Qed.

(** ** The existing-entry extractor (section 4.2) *)

Lemma lookup_app_plus {A} (a b : list A) k : (a ++ b) !! (length a + k) = b !! k.
Proof. rewrite lookup_app_r by lia. f_equal. lia. Qed.

Lemma occ_app_r s a b i : occ s (a ++ b) (length a + i) ↔ occ s b i.
Proof. unfold occ, sub. rewrite drop_app_add. done. Qed.

Lemma occ_app_l s a b i : i + length s ≤ length a → occ s (a ++ b) i ↔ occ s a i.
Proof.
  intros Hle. rewrite !occ_lookup. split; intros Hall k c Hk.
  - specialize (Hall k c Hk). apply lookup_lt_Some in Hk.
    by rewrite lookup_app_l in Hall by lia.
  - pose proof (lookup_lt_Some _ _ _ Hk). rewrite lookup_app_l by lia. by apply Hall.
Qed.

Lemma occ_here s b : occ s (s ++ b) 0.
Proof. unfold occ, sub. change (drop 0 (s ++ b)) with (s ++ b). apply take_app_length. Qed.

Lemma capture_length t i e : e ≤ length t → length (capture t i e) = e - i - 7.
Proof.
  intros He. unfold capture, sub. rewrite length_take, length_drop. lia.
Qed.

Lemma capture_lookup t i e k :
  k < e - i - 7 → capture t i e !! k = t !! (i + 7 + k).
Proof. intros Hk. unfold capture. by rewrite sub_lookup. Qed.

Lemma hit_decompose t i e :
  hit t i e →
  ∃ pre stem post,
    t = pre ++ PATH_EQ ++ (stem ++ DOT_SWIFT) ++ str ";" ++ post
    ∧ length pre = i
    ∧ capture t i e = stem ++ DOT_SWIFT
    ∧ stem ≠ [] ∧ (";" ∉ stem) ∧ leftmost pre.
Proof.
  intros Hh. pose proof (hit_length _ _ _ Hh) as Hlen.
  destruct Hh as (HP & He & Hs & Hrun & Hdot & Hguard).
  set (cap := capture t i e).
  assert (Hcl : length cap = e - i - 7) by (apply capture_length; lia).
  assert (Hcap : cap = take (e - i - 13) cap ++ DOT_SWIFT).
  { rewrite <- (take_drop (e - i - 13) cap) at 1. f_equal.
    apply list_eq. intros k. rewrite lookup_drop.
    destruct (decide (k < 6)) as [Hk|Hk].
    - unfold cap. rewrite capture_lookup by lia.
      rewrite <- Hdot. rewrite sub_lookup by done. f_equal. lia.
    - rewrite (lookup_ge_None_2 DOT_SWIFT) by (simpl; lia).
      apply lookup_ge_None_2. lia. }
  assert (Ht : t = take i t ++ PATH_EQ ++ cap ++ str ";" ++ drop (S e) t).
  { rewrite (occ_decompose _ _ _ HP) at 1. do 2 f_equal.
    change (length PATH_EQ) with 7.
    rewrite <- (take_drop (e - i - 7) (drop (i + 7) t)) at 1. f_equal.
    rewrite drop_drop. replace (i + 7 + (e - i - 7)) with e by lia.
    by apply drop_S. }
  exists (take i t), (take (e - i - 13) cap), (drop (S e) t).
  split_and!.
  - by rewrite <- Hcap.
  - rewrite length_take. lia.
  - done.
  - intros Hnil%(f_equal length). rewrite length_take in Hnil. simpl in Hnil. lia.
  - intros (k & Hk)%list_elem_of_lookup. apply lookup_take_Some in Hk as [Hk Hlt].
    unfold cap in Hk. rewrite capture_lookup in Hk by lia.
    by apply (Hrun (i + 7 + k)); [lia|].
  - intros a b Hpre.
    assert (Hla : length a + 7 + length b = i).
    { apply (f_equal length) in Hpre. rewrite length_take, !length_app in Hpre.
      change (length PATH_EQ) with 7 in Hpre. lia. }
    assert (Hocc : occ PATH_EQ t (length a)).
    { rewrite Ht, Hpre, <- !app_assoc.
      replace (length a) with (length a + 0) by lia.
      apply occ_app_r, occ_here. }
    destruct (Hguard (length a)) as (j & Hj & Hjs); [lia|done|].
    assert (length a + 7 ≤ j).
    { destruct (decide (length a + 7 ≤ j)); [done|]. exfalso.
      by apply (path_eq_no_semi t (length a) j); [|lia|]. }
    apply list_elem_of_lookup. exists (j - (length a + 7)).
    rewrite Ht, Hpre, <- !app_assoc in Hjs.
    replace j with (length a + (7 + (j - (length a + 7)))) in Hjs by lia.
    rewrite lookup_app_plus in Hjs.
    change 7 with (length PATH_EQ) in Hjs at 1. rewrite lookup_app_plus in Hjs.
    by rewrite lookup_app_l in Hjs by lia.
Qed.

Lemma decompose_hit pre stem post :
  stem ≠ [] → ";" ∉ stem → leftmost pre →
  let t := pre ++ PATH_EQ ++ (stem ++ DOT_SWIFT) ++ str ";" ++ post in
  let i := length pre in
  let e := length pre + 7 + length stem + 6 in
  hit t i e ∧ capture t i e = stem ++ DOT_SWIFT.
Proof.
  intros Hne Hsemi Hleft. cbv zeta.
  set (t := pre ++ _). set (i := length pre). set (e := i + 7 + length stem + 6).
  assert (Hstem : 1 ≤ length stem) by (destruct stem; [done|simpl; lia]).
  assert (Hat : ∀ k, t !! (i + 7 + k) = ((stem ++ DOT_SWIFT) ++ str ";" ++ post) !! k).
  { intros k. unfold t, i. rewrite <- Nat.add_assoc, lookup_app_plus.
    change 7 with (length PATH_EQ). by rewrite lookup_app_plus. }
  assert (HP : occ PATH_EQ t i).
  { unfold t, i. replace (length pre) with (length pre + 0) by lia.
    apply occ_app_r, occ_here. }
  split.
  - split_and!.
    + done.
    + unfold e. lia.
    + replace e with (i + 7 + length (stem ++ DOT_SWIFT))
        by (rewrite length_app; simpl; unfold e; lia).
      rewrite Hat. replace (length (stem ++ DOT_SWIFT))
        with (length (stem ++ DOT_SWIFT) + 0) by lia.
      by rewrite lookup_app_plus.
    + intros j Hj. replace j with (i + 7 + (j - i - 7)) by lia. rewrite Hat.
      rewrite lookup_app_l by (rewrite length_app; simpl; unfold e in Hj; lia).
      intros Hjs. destruct (decide (j - i - 7 < length stem)) as [Hlt|Hge].
      * rewrite lookup_app_l in Hjs by done. apply Hsemi.
        by eapply list_elem_of_lookup_2.
      * rewrite lookup_app_r in Hjs by lia.
        by apply swift_dot_not_semi in Hjs.
    + unfold t. replace (e - 6) with (length (pre ++ PATH_EQ ++ stem) + 0)
        by (rewrite !length_app; change (length PATH_EQ) with 7; unfold e, i; lia).
      replace (pre ++ PATH_EQ ++ (stem ++ DOT_SWIFT) ++ str ";" ++ post)
        with ((pre ++ PATH_EQ ++ stem) ++ DOT_SWIFT ++ str ";" ++ post)
        by (by rewrite <- !app_assoc).
      apply occ_app_r, occ_here.
    + intros a Ha Hocc.
      pose proof (path_eq_apart _ _ _ Hocc HP Ha) as Hap.
      assert (Hpa : occ PATH_EQ pre a).
      { unfold t in Hocc. apply occ_app_l in Hocc; [done|].
        change (length PATH_EQ) with 7. unfold i in Hap. lia. }
      apply occ_decompose in Hpa. apply Hleft in Hpa.
      apply list_elem_of_lookup in Hpa as [k Hk]. rewrite lookup_drop in Hk.
      change (length PATH_EQ) with 7 in Hk.
      pose proof (lookup_lt_Some _ _ _ Hk). exists (a + 7 + k).
      split; [unfold i; lia|]. unfold t. by rewrite lookup_app_l by lia.
  - unfold capture, sub.
    replace (e - i - 7) with (length (stem ++ DOT_SWIFT))
      by (rewrite length_app; simpl; unfold e; lia).
    unfold t, i. rewrite drop_app_add.
    rewrite (drop_app_length' PATH_EQ _ 7) by done.
    by rewrite take_app_length.
Qed.

Lemma elem_of_existing_of t name :
  name ∈ existing_of t ↔ ∃ i e, hit t i e ∧ name = strip DQUOTE (capture t i e).
Proof.
  unfold existing_of. rewrite elem_of_list_to_set, list_elem_of_fmap. split.
  - intros (cap & -> & Hin). apply findall_hit in Hin as (i & e & Hh & ->). eauto.
  - intros (i & e & Hh & ->). exists (capture t i e). split; [done|].
    apply findall_hit. eauto.
Qed.

(** C4, as stated, fails where two substrings of the form overlap:
    [path = b.swift;] is such a substring of the text below, and
    [b.swift] is not extracted, [re.findall] returning the one match that
    starts at the first [path = ]. *)
Lemma overlapping_form_not_extracted :
  let t := str "path = a path = b.swift;" in
  spec_extracted t (str "b.swift")
  ∧ (str "b.swift" ∉ existing_of t)
  ∧ existing_of t = {[str "a path = b.swift"]}.
Proof.
  cbv zeta. split_and!.
  - exists (str "path = a "), (str "b"), []. split_and!; try done. by_compute.
  - by_compute.
  - by_compute.
Qed.

Lemma existing_of_iff t name :
  name ∈ existing_of t ↔
  ∃ pre stem post,
    t = pre ++ PATH_EQ ++ (stem ++ DOT_SWIFT) ++ str ";" ++ post
    ∧ stem ≠ [] ∧ (";" ∉ stem) ∧ leftmost pre
    ∧ name = strip DQUOTE (stem ++ DOT_SWIFT).
Proof.
  rewrite elem_of_existing_of. split.
  - intros (i & e & Hh & ->).
    destruct (hit_decompose _ _ _ Hh) as (pre & stem & post & Ht & _ & Hc & ? & ? & ?).
    exists pre, stem, post. by rewrite Hc.
  - intros (pre & stem & post & -> & Hne & Hsemi & Hleft & ->).
    destruct (decompose_hit pre stem post Hne Hsemi Hleft) as [Hh Hc].
    eexists _, _. split; [exact Hh|]. by rewrite Hc.
Qed.

(** Every extracted name has the form of the specification. *)
Lemma existing_of_sound t name : name ∈ existing_of t → spec_extracted t name.
Proof.
  intros (pre & stem & post & ? & ? & ? & _ & ?)%existing_of_iff.
  by exists pre, stem, post.
Qed.

(** C4, amended. The extracted set holds exactly the names obtained by
    stripping the quote characters around the capture of each substring
    [path = <name>.swift;] with [<name>] a non-empty run without [;],
    taken from left to right without overlap: of the occurrences of
    [path = ] that no [;] separates, the first one starts the match. *)
Theorem existing_entry_extraction t w :
  existing_files (extract_existing_files (with_content t init) w).1.2 = existing_of t
  ∧ ∀ name,
      name ∈ existing_of t ↔
      ∃ pre stem post,
        t = pre ++ PATH_EQ ++ (stem ++ DOT_SWIFT) ++ str ";" ++ post
        ∧ stem ≠ [] ∧ (";" ∉ stem) ∧ leftmost pre
        ∧ name = strip DQUOTE (stem ++ DOT_SWIFT).
Proof.
  split.
  - rewrite extract_existing_files_eq.
    cbn [fst snd existing_files with_existing with_content init project_content].
    by rewrite (left_id_L ∅ (∪)).
  - apply existing_of_iff.
Qed.

(** ** Matches of the extractor under a splice *)

Lemma splice_lookup_shift t p new x :
  p ≤ length t → splice t p new !! shift p (length new) x = t !! x.
Proof.
  intros Hp. rewrite splice_lookup by done. unfold shift.
  repeat case_decide; try lia; try done. f_equal. lia.
Qed.

Lemma occ_splice_before s t p new a :
  p ≤ length t → a + length s ≤ p → occ s (splice t p new) a ↔ occ s t a.
Proof.
  intros Hp Ha. rewrite !occ_lookup.
  split; intros Hall k c Hk; specialize (Hall k c Hk);
    pose proof (lookup_lt_Some _ _ _ Hk);
    rewrite splice_lookup in * by done; by rewrite decide_True in * by lia.
Qed.

Lemma occ_splice_after s t p new a :
  p ≤ length t → p ≤ a → occ s (splice t p new) (a + length new) ↔ occ s t a.
Proof.
  intros Hp Ha. rewrite !occ_lookup.
  split; intros Hall k c Hk; specialize (Hall k c Hk);
    rewrite splice_lookup in * by done;
    rewrite decide_False in * by lia; rewrite decide_False in * by lia.
  - rewrite <- Hall. f_equal. lia.
  - rewrite <- Hall. f_equal. lia.
Qed.

Lemma capture_splice t p new i e :
  p ≤ length t → p ≤ i ∨ e < p →
  capture (splice t p new) (shift p (length new) i) (shift p (length new) e)
  = capture t i e.
Proof.
  intros Hp Hpos. apply list_eq. intros k. unfold capture.
  destruct (decide (i + 7 ≤ e)) as [Hie|Hie].
  - assert (Hn : shift p (length new) e - shift p (length new) i - 7 = e - i - 7).
    { unfold shift. repeat case_decide; lia. }
    rewrite Hn. destruct (decide (k < e - i - 7)) as [Hk|Hk].
    + rewrite !sub_lookup by done. rewrite splice_lookup by done.
      unfold shift. destruct Hpos.
      * rewrite (decide_False (P := i < p)) by lia.
        rewrite decide_False by lia. rewrite decide_False by lia. f_equal. lia.
      * rewrite (decide_True (P := i < p)) by lia. by rewrite decide_True by lia.
    + unfold sub. by rewrite !lookup_take_ge by lia.
  - assert (Hn : shift p (length new) e - shift p (length new) i - 7 = 0).
    { unfold shift. repeat case_decide; lia. }
    rewrite Hn. replace (e - i - 7) with 0 by lia. done.
Qed.

Lemma hit_splice t p new i e :
  p ≤ length t → hit t i e → p ≤ i ∨ e < p → overlap_guarded new →
  hit (splice t p new) (shift p (length new) i) (shift p (length new) e).
Proof.
  intros Hp Hh Hpos Hblock.
  destruct Hh as (HP & He & Hs & Hrun & Hdot & Hguard).
  assert (Hi' : shift p (length new) i = if decide (p ≤ i) then i + length new else i).
  { unfold shift. repeat case_decide; lia. }
  assert (He' : shift p (length new) e = if decide (p ≤ i) then e + length new else e).
  { unfold shift. repeat case_decide; lia. }
  assert (HP' : occ PATH_EQ (splice t p new) (shift p (length new) i)).
  { rewrite Hi'. case_decide.
    - by apply occ_splice_after.
    - apply occ_splice_before; [done| |done]. change (length PATH_EQ) with 7. lia. }
  split_and!.
  - done.
  - rewrite Hi', He'. case_decide; lia.
  - by rewrite splice_lookup_shift.
  - intros j Hj. rewrite Hi', He' in Hj. rewrite splice_lookup by done.
    case_decide as Hpi.
    + rewrite decide_False by lia. rewrite decide_False by lia. apply Hrun. lia.
    + rewrite decide_True by lia. apply Hrun. lia.
  - rewrite He'. case_decide.
    + replace (e + length new - 6) with (e - 6 + length new) by lia.
      apply occ_splice_after; [done|lia|done].
    + apply occ_splice_before; [done| |done]. change (length DOT_SWIFT) with 6. lia.
  - intros a Ha Hocc.
    pose proof (path_eq_apart _ _ _ Hocc HP' Ha) as Hap.
    rewrite Hi' in Ha, Hap |- *. case_decide as Hpi.
    + destruct (decide (a + 7 ≤ p)) as [Hbefore|Hnb].
      * apply occ_splice_before in Hocc; [|done|done].
        destruct (Hguard a) as (j & Hj & Hjs); [lia|done|].
        exists (shift p (length new) j). split; [unfold shift; case_decide; lia|].
        by rewrite splice_lookup_shift.
      * destruct (decide (p + length new ≤ a)) as [Hafter|Hna].
        -- replace a with (a - length new + length new) in Hocc by lia.
           apply occ_splice_after in Hocc; [|done|lia].
           destruct (Hguard (a - length new)) as (j & Hj & Hjs); [lia|done|].
           exists (j + length new). split; [lia|].
           replace (j + length new) with (shift p (length new) j) by (unfold shift; case_decide; lia).
           by rewrite splice_lookup_shift.
        -- destruct (Hblock t p a) as (j & Hj & Hjs); [done|done|lia|lia|].
           exists j. split; [lia|done].
    + apply occ_splice_before in Hocc; [|done|change (length PATH_EQ) with 7; lia].
      destruct (Hguard a) as (j & Hj & Hjs); [lia|done|].
      exists j. split; [lia|]. rewrite splice_lookup by done.
      by rewrite decide_True by lia.
Qed.

(** The insertion point is outside a match when the character there
    cannot be part of the match. *)
Lemma hit_avoid t i e p c :
  hit t i e → t !! p = Some c →
  c ∉ PATH_EQ → c ≠ ";" → c ∉ capture t i e → p ≤ i ∨ e < p.
Proof.
  intros Hh Hc HnP Hns Hncap.
  pose proof (hit_length _ _ _ Hh) as Hlen.
  destruct Hh as (HP & He & Hs & _).
  destruct (decide (p ≤ i)) as [|Hpi]; [by left|].
  destruct (decide (e < p)) as [|Hep]; [by right|]. exfalso.
  destruct (decide (p < i + 7)) as [Hin|Hout].
  - destruct (lookup_lt_is_Some_2 PATH_EQ (p - i)) as [x Hx];
      [change (length PATH_EQ) with 7; lia|].
    pose proof (occ_char _ _ _ _ _ HP Hx) as Hx'.
    replace (i + (p - i)) with p in Hx' by lia.
    apply HnP. apply list_elem_of_lookup. exists (p - i). congruence.
  - destruct (decide (p = e)) as [->|Hne]; [congruence|].
    apply Hncap. apply list_elem_of_lookup. exists (p - i - 7).
    rewrite capture_lookup by lia. rewrite <- Hc. f_equal. lia.
Qed.

Lemma path_eq_chars t a j c :
  occ PATH_EQ t a → a ≤ j < a + 7 → t !! j = Some c → c ∈ PATH_EQ.
Proof.
  intros Hocc Hj Hc.
  destruct (lookup_lt_is_Some_2 PATH_EQ (j - a)) as [x Hx];
    [change (length PATH_EQ) with 7; lia|].
  pose proof (occ_char _ _ _ _ _ Hocc Hx) as Hx'.
  replace (a + (j - a)) with j in Hx' by lia.
  apply list_elem_of_lookup. exists (j - a). congruence.
Qed.

Lemma semi_block_guarded new : semi_block new → overlap_guarded new.
Proof.
  intros [body ->] t p a Hp Hocc Ha Hpa.
  rewrite length_app in *. cbn [length] in *.
  assert (Hl : splice t p (body ++ [";"; LF]) !! (p + length body + 1) = Some LF).
  { rewrite splice_lookup by done. rewrite decide_False by lia.
    rewrite decide_True by (rewrite length_app; simpl; lia).
    rewrite lookup_app_r by lia.
    by replace (p + length body + 1 - p - length body) with 1 by lia. }
  assert (Hs : splice t p (body ++ [";"; LF]) !! (p + length body) = Some ";").
  { rewrite splice_lookup by done. rewrite decide_False by lia.
    rewrite decide_True by (rewrite length_app; simpl; lia).
    rewrite lookup_app_r by lia.
    by replace (p + length body - p - length body) with 0 by lia. }
  destruct (decide (a = p + length body + 1)) as [->|Hne].
  - exfalso. pose proof (path_eq_chars _ _ (p + length body + 1) _ Hocc ltac:(lia) Hl) as Hin.
    revert Hin. by_compute.
  - exists (p + length body). split; [lia|done].
Qed.

Lemma comma_block_guarded new : comma_block new → overlap_guarded new.
Proof.
  intros (Hclean & Hhead & Hlast) t p a Hp Hocc Ha Hpa. exfalso.
  assert (Hn : 1 ≤ length new) by (destruct new; [done|simpl; lia]).
  destruct (decide (a ≤ p)) as [Hle|Hgt].
  - assert (Hl : splice t p new !! p = Some LF).
    { rewrite splice_lookup by done. rewrite decide_False by lia.
      rewrite decide_True by lia. rewrite Nat.sub_diag.
      by destruct new; simplify_eq/=. }
    pose proof (path_eq_chars _ _ p _ Hocc ltac:(lia) Hl) as Hin.
    revert Hin. by_compute.
  - destruct (decide (a + 7 ≤ p + length new)) as [Hin|Hout].
    + apply (Hclean (a - p)). apply occ_lookup. intros k c Hk.
      pose proof (lookup_lt_Some _ _ _ Hk) as Hk7. change (length PATH_EQ) with 7 in Hk7.
      pose proof (occ_char _ _ _ _ _ Hocc Hk) as Hc.
      rewrite splice_lookup in Hc by done.
      rewrite decide_False in Hc by lia. rewrite decide_True in Hc by lia.
      rewrite <- Hc. f_equal. lia.
    + assert (Hl : splice t p new !! (p + length new - 1) = Some ",").
      { rewrite splice_lookup by done. rewrite decide_False by lia.
        rewrite decide_True by lia. rewrite last_lookup in Hlast.
        rewrite <- Hlast. f_equal. lia. }
      pose proof (path_eq_chars _ _ (p + length new - 1) _ Hocc ltac:(lia) Hl) as Hin'.
      revert Hin'. by_compute.
Qed.

(** ** Names that stay extracted *)

Lemma lstrip_chars c t x : x ∈ t → x = c ∨ x ∈ lstrip c t.
Proof.
  induction t as [|y t IH]; [by intros ?%elem_of_nil|].
  simpl. case_decide as Hy.
  - intros [->|Hin]%elem_of_cons; [by left|]. by apply IH.
  - by right.
Qed.

Lemma strip_chars c t x : x ∈ t → x = c ∨ x ∈ strip c t.
Proof.
  intros Hin. unfold strip, rstrip.
  destruct (lstrip_chars c t x Hin) as [|Hin1]; [by left|].
  apply elem_of_reverse in Hin1.
  destruct (lstrip_chars c _ x Hin1) as [|Hin2]; [by left|].
  right. by apply elem_of_reverse.
Qed.

Lemma existing_splice t p new c name :
  p ≤ length t →
  (∀ x, t !! p = Some x → x = c) →
  c ∉ PATH_EQ → c ≠ ";" → c ≠ DQUOTE → c ∉ name →
  overlap_guarded new →
  name ∈ existing_of t → name ∈ existing_of (splice t p new).
Proof.
  intros Hp Hc HnP Hns Hnq Hnn Hblock.
  rewrite !elem_of_existing_of. intros (i & e & Hh & ->).
  assert (Hpos : p ≤ i ∨ e < p).
  { destruct (t !! p) as [x|] eqn:Hx.
    - rewrite (Hc x eq_refl) in Hx. eapply hit_avoid; try done.
      intros Hin. by destruct (strip_chars DQUOTE _ _ Hin).
    - apply lookup_ge_None in Hx. pose proof (hit_length _ _ _ Hh). lia. }
  exists (shift p (length new) i), (shift p (length new) e).
  split; [by apply hit_splice|]. by rewrite capture_splice.
Qed.

(** ** The inserted blocks *)

Lemma join_cons2 sep (y z : text) l :
  join sep (y :: z :: l) = y ++ sep ++ join sep (z :: l).
Proof. done. Qed.

Lemma join_suffix sep l x : last l = Some x → x `suffix_of` join sep l.
Proof.
  induction l as [|y [|z l] IH]; [done| |].
  - intros [= ->]. done.
  - intros Hl. rewrite join_cons2, app_assoc. apply suffix_app_r. by apply IH.
Qed.

Lemma join_elem sep l x : x ∈ l → ∃ A B, join sep l = A ++ x ++ B.
Proof.
  induction l as [|y [|z l] IH]; [by intros ?%elem_of_nil| |].
  - intros ->%list_elem_of_singleton. exists [], []. by rewrite app_nil_r.
  - intros [->|Hin]%elem_of_cons.
    + by exists [], (sep ++ join sep (z :: l)).
    + destruct (IH Hin) as (A & B & HAB). rewrite join_cons2, HAB.
      exists (y ++ sep ++ A), B. by rewrite <- !app_assoc.
Qed.

Lemma join_chars sep l (P : ascii → Prop) :
  Forall P sep → Forall (Forall P) l → Forall P (join sep l).
Proof.
  intros Hsep. induction l as [|y [|z l] IH]; [done| |].
  - by intros [? _]%Forall_cons.
  - intros [Hy Hl]%Forall_cons. rewrite join_cons2.
    apply Forall_app. split; [done|]. apply Forall_app. split; [done|]. by apply IH.
Qed.

Lemma fmap_last_is_Some {A B} (g : A → B) (l : list A) :
  l ≠ [] → ∃ x, x ∈ l ∧ last (g <$> l) = Some (g x).
Proof.
  intros Hne. destruct (last l) as [x|] eqn:Hl.
  - exists x. split.
    + rewrite last_lookup in Hl. by eapply list_elem_of_lookup_2.
    + by rewrite fmap_last, Hl.
  - by apply last_None in Hl.
Qed.

(** The two blocks in front of an end-marker end in [;] and a newline. *)
Lemma semi_block_join (g : file_info → text) fs :
  fs ≠ [] → (∀ f, ∃ body, g f = body ++ [";"]) →
  semi_block (join [LF] (g <$> fs) ++ [LF]).
Proof.
  intros Hne Hg. destruct (fmap_last_is_Some g fs Hne) as (f & _ & Hlast).
  apply (join_suffix [LF]) in Hlast as [pre Hpre].
  destruct (Hg f) as [body Hbody]. exists (pre ++ body).
  rewrite Hpre, Hbody. by rewrite <- !app_assoc.
Qed.

Lemma build_entry_semi f : ∃ body, build_entry f = body ++ [";"].
Proof.
  unfold build_entry. eexists.
  change (str " */; };") with (str " */; }" ++ [";"]).
  rewrite !app_assoc. reflexivity.
Qed.

Lemma file_ref_entry_semi f : ∃ body, file_ref_entry f = body ++ [";"].
Proof.
  unfold file_ref_entry. eexists.
  change (str "; };") with (str "; }" ++ [";"]).
  rewrite !app_assoc. reflexivity.
Qed.

Lemma build_block_semi fs :
  fs ≠ [] → semi_block (join [LF] (build_entry <$> fs) ++ [LF]).
Proof. intros Hne. apply semi_block_join; [done|apply build_entry_semi]. Qed.

Lemma file_ref_block_semi fs :
  fs ≠ [] → semi_block (join [LF] (file_ref_entry <$> fs) ++ [LF]).
Proof. intros Hne. apply semi_block_join; [done|apply file_ref_entry_semi]. Qed.

(** Texts without [path = ] *)

Lemma clean_no_p s : "p" ∉ s → clean s.
Proof.
  intros Hp a Hocc. apply Hp.
  pose proof (occ_char _ _ _ 0 "p" Hocc eq_refl) as H0. rewrite Nat.add_0_r in H0.
  by eapply list_elem_of_lookup_2.
Qed.

Lemma clean_app_l x y c :
  clean x → clean y → last x = Some c → c ∉ PATH_EQ → clean (x ++ y).
Proof.
  intros Hx Hy Hlast Hc a Hocc.
  assert (Hn : 1 ≤ length x) by (destruct x; [done|simpl; lia]).
  destruct (decide (a + 7 ≤ length x)) as [Hin|Hout].
  - apply (Hx a). by apply occ_app_l in Hocc.
  - destruct (decide (length x ≤ a)) as [Hge|Hlt].
    + apply (Hy (a - length x)). apply (occ_app_r _ x).
      by replace (length x + (a - length x)) with a by lia.
    + apply Hc. apply (path_eq_chars (x ++ y) a (length x - 1)); [done|lia|].
      rewrite lookup_app_l by lia. rewrite last_lookup in Hlast.
      rewrite <- Hlast. f_equal. lia.
Qed.

Lemma clean_cons c y : clean y → c ∉ PATH_EQ → clean (c :: y).
Proof.
  intros Hy Hc. apply (clean_app_l [c] y c); [|done|done|done].
  intros a Hocc. apply occ_bound in Hocc. simpl in Hocc. lia.
Qed.

Lemma clean_app_r x y c :
  clean x → clean y → head y = Some c → c ∉ PATH_EQ → clean (x ++ y).
Proof.
  intros Hx Hy Hhead Hc a Hocc.
  destruct (decide (a + 7 ≤ length x)) as [Hin|Hout].
  - apply (Hx a). by apply occ_app_l in Hocc.
  - destruct (decide (length x ≤ a)) as [Hge|Hlt].
    + apply (Hy (a - length x)). apply (occ_app_r _ x).
      by replace (length x + (a - length x)) with a by lia.
    + apply Hc. apply (path_eq_chars (x ++ y) a (length x)); [done|lia|].
      replace (length x) with (length x + 0) at 1 by lia. rewrite lookup_app_plus.
      by destruct y; simplify_eq/=.
Qed.

Lemma clean_join es : Forall clean es → clean (join [LF] es).
Proof.
  induction es as [|x [|z l] IH]; intros Hes.
  - intros a Hocc. apply occ_bound in Hocc. simpl in Hocc. lia.
  - by apply Forall_cons in Hes as [? _].
  - apply Forall_cons in Hes as [Hx Hl]. rewrite join_cons2.
    apply (clean_app_r _ _ LF); [done| |done|by_compute].
    apply clean_cons; [by apply IH|by_compute].
Qed.

(** A name that ends in [t], followed by a blank: no [path = ] comes
    about across the end of the name. *)
Lemma clean_name_tail name tail :
  clean name → last name = Some "t" → "p" ∉ tail → head tail = Some " " →
  clean (" " :: name ++ tail).
Proof.
  intros Hname Hlast Hp Hhead [|a] Hocc.
  { by pose proof (occ_char _ _ _ 0 "p" Hocc eq_refl). }
  apply occ_cons in Hocc.
  assert (Hn : 1 ≤ length name) by (destruct name; [done|simpl; lia]).
  destruct (decide (a + 7 ≤ length name)) as [Hin|Hout].
  { apply (Hname a). by apply occ_app_l in Hocc. }
  destruct (decide (length name ≤ a)) as [Hge|Hlt].
  { apply (clean_no_p tail Hp (a - length name)). apply (occ_app_r _ name).
    by replace (length name + (a - length name)) with a by lia. }
  assert (Ht : (name ++ tail) !! (length name - 1) = Some "t").
  { rewrite lookup_app_l by lia. rewrite last_lookup in Hlast.
    rewrite <- Hlast. f_equal. lia. }
  assert (Hb : (name ++ tail) !! (length name) = Some " ").
  { replace (length name) with (length name + 0) at 1 by lia.
    rewrite lookup_app_plus. by destruct tail; simplify_eq/=. }
  rewrite occ_lookup in Hocc.
  assert (Hm : ∃ m, m < 6 ∧ length name - 1 = a + m) by (exists (length name - 1 - a); lia).
  destruct Hm as (m & Hm & Heq).
  destruct (lookup_lt_is_Some_2 PATH_EQ m) as [c Hc];
    [change (length PATH_EQ) with 7; lia|].
  destruct (lookup_lt_is_Some_2 PATH_EQ (S m)) as [d Hd];
    [change (length PATH_EQ) with 7; lia|].
  pose proof (Hocc _ _ Hc) as Hc'. pose proof (Hocc _ _ Hd) as Hd'.
  rewrite <- Heq, Ht in Hc'. replace (a + S m) with (length name) in Hd' by lia.
  rewrite Hb in Hd'. injection Hc' as <-. injection Hd' as <-.
  revert Hc Hd. do 6 (destruct m as [|m]; [by intros [=] [=] || by intros [=]|]). lia.
Qed.

Lemma last_app_snoc {A} (a b : list A) c : last (a ++ b ++ [c]) = Some c.
Proof. rewrite app_assoc. apply last_snoc. Qed.

Lemma upper_hex_no_p t : Forall Uuid.is_upper_hex t → "p" ∉ t.
Proof.
  intros Hall Hin. rewrite Forall_forall in Hall. apply Hall in Hin.
  revert Hin. by_compute.
Qed.

Lemma sources_entry_clean f :
  Forall Uuid.is_upper_hex (the_ref (build_ref f)) →
  clean (filename f) → last (filename f) = Some "t" →
  clean (sources_entry f) ∧ last (sources_entry f) = Some ",".
Proof.
  intros Hhex Hname Hlast.
  assert (Heq : sources_entry f =
    ([TAB; TAB; TAB; TAB] ++ the_ref (build_ref f) ++ str " /*")
    ++ " " :: filename f ++ str " in Sources */,").
  { unfold sources_entry. by rewrite <- !app_assoc. }
  rewrite Heq. split.
  - apply (clean_app_l _ _ "*");
      [| |change (str " /*") with (str " /" ++ ["*"]);
          by rewrite (app_assoc (the_ref _)), last_app_snoc|by_compute].
    + apply clean_no_p. rewrite !not_elem_of_app.
      split_and!; [by_compute|by apply upper_hex_no_p|by_compute].
    + apply clean_name_tail; [done|done|by_compute|done].
  - change (str " in Sources */,") with (str " in Sources */" ++ [","]).
    by rewrite last_app, last_cons, last_app, last_snoc.
Qed.

Lemma group_entry_clean f :
  Forall Uuid.is_upper_hex (the_ref (file_ref f)) →
  clean (filename f) → last (filename f) = Some "t" →
  clean (group_entry f) ∧ last (group_entry f) = Some ",".
Proof.
  intros Hhex Hname Hlast.
  assert (Heq : group_entry f =
    ([TAB; TAB; TAB; TAB] ++ the_ref (file_ref f) ++ str " /*")
    ++ " " :: filename f ++ str " */,").
  { unfold group_entry. by rewrite <- !app_assoc. }
  rewrite Heq. split.
  - apply (clean_app_l _ _ "*");
      [| |change (str " /*") with (str " /" ++ ["*"]);
          by rewrite (app_assoc (the_ref _)), last_app_snoc|by_compute].
    + apply clean_no_p. rewrite !not_elem_of_app.
      split_and!; [by_compute|by apply upper_hex_no_p|by_compute].
    + apply clean_name_tail; [done|done|by_compute|done].
  - change (str " */,") with (str " */" ++ [","]).
    by rewrite last_app, last_cons, last_app, last_snoc.
Qed.

Lemma comma_block_join (g : file_info → text) fs :
  fs ≠ [] → (∀ f, f ∈ fs → clean (g f) ∧ last (g f) = Some ",") →
  comma_block ([LF] ++ join [LF] (g <$> fs)).
Proof.
  intros Hne Hg. split_and!.
  - apply clean_cons; [|by_compute]. apply clean_join.
    apply Forall_fmap, Forall_forall. intros f Hf. by apply Hg.
  - done.
  - destruct (fmap_last_is_Some g fs Hne) as (f & Hf & Hlast).
    apply (join_suffix [LF]) in Hlast as [pre Hpre]. rewrite Hpre.
    destruct (Hg f Hf) as [_ Hl].
    destruct (g f) as [|c body] eqn:Hgf using rev_ind; [done|].
    rewrite last_snoc in Hl. injection Hl as ->.
    rewrite (app_assoc pre). apply last_app_snoc.
Qed.

(** ** What the scan yields *)

Lemma entry_ind' (P : entry → Prop) :
  (∀ n, P (File n)) →
  (∀ n cs, Forall P cs → P (Dir n cs)) →
  ∀ e, P e.
Proof.
  intros Hfile Hdir. fix IH 1. intros [n|n cs]; [apply Hfile|].
  apply Hdir. induction cs as [|c cs IHcs]; constructor; [apply IH|apply IHcs].
Qed.

Lemma matching_swift here es rel :
  rel ∈ matching here es → is_swift (path_name rel).
Proof.
  unfold matching. intros (e & -> & He)%list_elem_of_fmap.
  apply list_elem_of_filter in He as [He _].
  unfold path_name. by rewrite last_snoc.
Qed.

Lemma rglob_dir_swift e here rel :
  rel ∈ rglob_dir here e → is_swift (path_name rel).
Proof.
  revert here rel. induction e as [n|n cs IH] using entry_ind'; intros here rel.
  - by intros ?%elem_of_nil.
  - cbn [rglob_dir]. intros [Hm|Hf]%elem_of_app; [by eapply matching_swift|].
    apply list_elem_of_In, in_flat_map in Hf as (c & Hc & Hrel).
    rewrite Forall_forall in IH. eapply IH; [by apply list_elem_of_In|].
    by apply list_elem_of_In.
Qed.

Lemma rglob_swift root rel : rel ∈ rglob root → is_swift (path_name rel).
Proof.
  unfold rglob. intros [Hm|Hf]%elem_of_app; [by eapply matching_swift|].
  apply list_elem_of_In, in_flat_map in Hf as (c & Hc & Hrel).
  eapply rglob_dir_swift. by apply list_elem_of_In.
Qed.

Lemma is_swift_last name : is_swift name → last name = Some "t".
Proof. intros [stem ->]. by rewrite last_app. Qed.

(** ** The line of a new file reference is a match *)

Lemma strip_id c t : head t ≠ Some c → last t ≠ Some c → strip c t = t.
Proof.
  intros Hh Hl. unfold strip, rstrip.
  assert (Hls : ∀ s, head s ≠ Some c → lstrip c s = s).
  { intros [|x s] Hs; [done|]. simpl. rewrite decide_False; [done|]. naive_solver. }
  rewrite (Hls t) by done. rewrite Hls by (by rewrite head_reverse).
  apply reverse_involutive.
Qed.

Lemma leftmost_after_semi X : leftmost (X ++ [";"; " "]).
Proof.
  intros a b Heq.
  assert (Hlen : length X + 2 = length a + 7 + length b).
  { apply (f_equal length) in Heq. rewrite !length_app in Heq.
    change (length PATH_EQ) with 7 in Heq. simpl in Heq. lia. }
  assert (Hs : (a ++ PATH_EQ ++ b) !! length X = Some ";").
  { rewrite <- Heq. replace (length X) with (length X + 0) at 1 by lia.
    by rewrite lookup_app_plus. }
  assert (Hocc : occ PATH_EQ (a ++ PATH_EQ ++ b) (length a)).
  { replace (length a) with (length a + 0) by lia. apply occ_app_r, occ_here. }
  destruct (decide (length a + 7 ≤ length X)) as [Hge|Hlt].
  - apply list_elem_of_lookup. exists (length X - length a - 7).
    replace (length X) with (length a + (7 + (length X - length a - 7))) in Hs by lia.
    rewrite lookup_app_plus in Hs. change 7 with (length PATH_EQ) in Hs at 1.
    by rewrite lookup_app_plus in Hs.
  - exfalso. by apply (path_eq_no_semi _ _ (length X) Hocc); [lia|].
Qed.

Lemma existing_of_path_line X name Y :
  is_swift name → name ≠ DOT_SWIFT → ";" ∉ name → head name ≠ Some DQUOTE →
  name ∈ existing_of (X ++ [";"; " "] ++ PATH_EQ ++ name ++ [";"] ++ Y).
Proof.
  intros Hsw Hne Hsemi Hq. pose proof (is_swift_last _ Hsw) as Hl.
  destruct Hsw as [stem ->].
  apply existing_of_iff. exists (X ++ [";"; " "]), stem, Y. split_and!.
  - by rewrite <- !app_assoc.
  - by intros ->.
  - intros Hin. apply Hsemi. apply elem_of_app. by left.
  - apply leftmost_after_semi.
  - symmetry. apply strip_id; [done|]. rewrite Hl. by intros [=].
Qed.

Lemma file_ref_entry_path f :
  ∃ A B, file_ref_entry f = A ++ [";"; " "] ++ PATH_EQ ++ filename f ++ [";"] ++ B.
Proof.
  exists ([TAB; TAB] ++ the_ref (file_ref f) ++ str " /* " ++ filename f
          ++ str " */ = {isa = PBXFileReference; lastKnownFileType = sourcecode.swift"),
         (str " sourceTree = " ++ [DQUOTE] ++ str "<group>" ++ [DQUOTE] ++ str "; };").
  unfold file_ref_entry.
  change (str " */ = {isa = PBXFileReference; lastKnownFileType = sourcecode.swift; path = ")
    with (str " */ = {isa = PBXFileReference; lastKnownFileType = sourcecode.swift"
          ++ [";"; " "] ++ PATH_EQ).
  change (str "; sourceTree = ") with ([";"] ++ str " sourceTree = ").
  by rewrite <- !app_assoc.
Qed.

Lemma existing_of_file_ref_line fs f q t :
  f ∈ fs →
  is_swift (filename f) → filename f ≠ DOT_SWIFT →
  ";" ∉ filename f → head (filename f) ≠ Some DQUOTE →
  filename f ∈ existing_of (insert_file_refs fs q t).
Proof.
  intros Hf Hsw Hne Hsemi Hq. unfold insert_file_refs, splice.
  assert (Hin : file_ref_entry f ∈ file_ref_entry <$> fs)
    by (apply list_elem_of_fmap; eauto).
  destruct (join_elem [LF] _ _ Hin) as (A & B & ->).
  destruct (file_ref_entry_path f) as (A' & B' & ->).
  replace (take q t ++ ((A ++ (A' ++ [";"; " "] ++ PATH_EQ ++ filename f ++ [";"] ++ B') ++ B)
           ++ [LF]) ++ drop q t)
    with ((take q t ++ A ++ A') ++ [";"; " "] ++ PATH_EQ ++ filename f ++ [";"]
          ++ (B' ++ B ++ [LF] ++ drop q t))
    by (by rewrite <- !app_assoc).
  by apply existing_of_path_line.
Qed.

(** ** The steps keep what was extracted *)

Lemma marker_position (s : text) t p p' c :
  head s = Some c → Re.search [Re.Lit s] t = Some (p, p') →
  p ≤ length t ∧ ∀ x, t !! p = Some x → x = c.
Proof.
  intros Hc Hs. pose proof (search_Some _ _ _ _ Hs) as (Hab & Hb & _).
  apply search_lit_Some in Hs as (_ & Hocc & _). split; [lia|].
  intros x Hx. destruct s as [|c' s]; [done|]. injection Hc as ->.
  pose proof (occ_char _ _ _ 0 c Hocc eq_refl) as Hat. rewrite Nat.add_0_r in Hat.
  congruence.
Qed.

(** The file-reference end-marker is found again after the build-entry
    insertion when it occurs at or behind the insertion point, as in the
    manifests Xcode writes. *)
Lemma file_ref_marker_after_build fs t p q0 :
  p ≤ length t → occ FILE_REF_END t q0 → p ≤ q0 →
  is_Some (Re.search file_ref_section_pattern (insert_build_files fs p t)).
Proof.
  intros Hp Hocc Hle. unfold insert_build_files.
  eapply search_lit_found. by apply occ_splice_after.
Qed.

Lemma existing_insert_build fs p p' t name :
  Re.search build_section_pattern t = Some (p, p') → fs ≠ [] →
  "/" ∉ name → name ∈ existing_of t →
  name ∈ existing_of (insert_build_files fs p t).
Proof.
  intros Hs Hne Hn Hin.
  destruct (marker_position BUILD_END t p p' "/" eq_refl Hs) as [Hp Hc].
  apply (existing_splice t p _ "/"); try done; try by_compute.
  by apply semi_block_guarded, build_block_semi.
Qed.

Lemma existing_insert_file_refs fs q q' t name :
  Re.search file_ref_section_pattern t = Some (q, q') → fs ≠ [] →
  "/" ∉ name → name ∈ existing_of t →
  name ∈ existing_of (insert_file_refs fs q t).
Proof.
  intros Hs Hne Hn Hin.
  destruct (marker_position FILE_REF_END t q q' "/" eq_refl Hs) as [Hq Hc].
  apply (existing_splice t q _ "/"); try done; try by_compute.
  by apply semi_block_guarded, file_ref_block_semi.
Qed.

Lemma paren_position r t a b :
  Re.search (r ++ [Re.NotPlus ")"]) t = Some (a, b) →
  b ≤ length t ∧ ∀ x, t !! b = Some x → x = ")".
Proof.
  intros Hs. pose proof (search_Some _ _ _ _ Hs) as (_ & Hb & _).
  split; [done|]. intros x Hx. by eapply search_stop.
Qed.

Lemma existing_insert_sources fs t name :
  entries_ok fs → fs ≠ [] →
  ")" ∉ name → name ∈ existing_of t →
  name ∈ existing_of (insert_sources fs t).
Proof.
  intros Hok Hne Hn Hin. unfold insert_sources.
  destruct (Re.search sources_pattern t) as [[a b]|] eqn:Hs; [|done].
  destruct (paren_position
              [Re.Lit (str "/* Sources */ = {"); Re.NotPlus "}"; Re.Lit (str "files = (")]
              t a b Hs) as [Hb Hc].
  apply (existing_splice t b _ ")"); try done; try by_compute.
  apply comma_block_guarded, comma_block_join; [done|].
  intros f Hf. destruct (Hok f Hf) as (_ & Hhex & Hsw & Hcl).
  apply sources_entry_clean; [done|done|by apply is_swift_last].
Qed.

Lemma existing_insert_group fs t g name :
  entries_ok fs →
  ")" ∉ name → name ∈ existing_of t →
  name ∈ existing_of (insert_group fs t g).
Proof.
  intros Hok Hn Hin. unfold insert_group. cbv zeta. case_decide as Hgf; [done|].
  destruct (Re.search (group_pattern g) t) as [[a b]|] eqn:Hs; [|done].
  destruct (paren_position
              [Re.Lit (str "path = " ++ g ++ str ";"); Re.NotPlus "}";
               Re.Lit (str "children = (")]
              t a b Hs) as [Hb Hc].
  apply (existing_splice t b _ ")"); try done; try by_compute.
  apply comma_block_guarded, comma_block_join; [done|].
  intros f [_ Hf]%list_elem_of_filter. destruct (Hok f Hf) as (Hhex & _ & Hsw & Hcl).
  apply group_entry_clean; [done|done|by apply is_swift_last].
Qed.

Lemma existing_insert_groups fs gs t name :
  entries_ok fs →
  ")" ∉ name → name ∈ existing_of t →
  name ∈ existing_of (foldl (insert_group fs) t gs).
Proof.
  intros Hok Hn. revert t. induction gs as [|g gs IH]; intros t Hin; [done|].
  simpl. apply IH. by apply existing_insert_group.
Qed.

(** ** What the script inserts can be written *)

Lemma upper_hex_plain t : Forall Uuid.is_upper_hex t → Forall plain t.
Proof.
  intros Hall. eapply Forall_impl; [exact Hall|].
  intros c Hc. revert Hc. unfold Uuid.is_upper_hex, plain. intros Hc.
  repeat (apply elem_of_cons in Hc as [->|Hc]; [vm_compute; lia|]).
  by apply elem_of_nil in Hc.
Qed.

Ltac utf8_parts :=
  repeat (apply utf8_app);
  first [ reflexivity | by apply utf8_plain, upper_hex_plain | done ].

Lemma build_entry_utf8 f :
  refs_hex f → utf8 (filename f) = true → utf8 (build_entry f) = true.
Proof. intros [Hr Hb] Hn. unfold build_entry. utf8_parts. Qed.

Lemma file_ref_entry_utf8 f :
  refs_hex f → utf8 (filename f) = true → utf8 (file_ref_entry f) = true.
Proof. intros [Hr Hb] Hn. unfold file_ref_entry. utf8_parts. Qed.

Lemma sources_entry_utf8 f :
  refs_hex f → utf8 (filename f) = true → utf8 (sources_entry f) = true.
Proof. intros [Hr Hb] Hn. unfold sources_entry. utf8_parts. Qed.

Lemma group_entry_utf8 f :
  refs_hex f → utf8 (filename f) = true → utf8 (group_entry f) = true.
Proof. intros [Hr Hb] Hn. unfold group_entry. utf8_parts. Qed.

Lemma join_utf8 (g : file_info → text) fs :
  (∀ f, f ∈ fs → utf8 (g f) = true) → utf8 (join [LF] (g <$> fs)) = true.
Proof.
  induction fs as [|x [|y fs] IH]; intros Hg; [done| |].
  - apply Hg. by left.
  - rewrite !fmap_cons, join_cons2. apply utf8_app; [apply Hg; by left|].
    apply utf8_app; [done|]. rewrite <- fmap_cons. apply IH.
    intros f Hf. apply Hg. by right.
Qed.

Lemma plain_char c x : plain c → x = c → plain x.
Proof. by intros Hc ->. Qed.

Lemma insert_build_files_utf8 fs p p' t :
  names_utf8 fs → utf8 t = true →
  Re.search build_section_pattern t = Some (p, p') →
  utf8 (insert_build_files fs p t) = true.
Proof.
  intros Hfs Ht Hs.
  destruct (marker_position BUILD_END t p p' "/" eq_refl Hs) as [Hp Hc].
  apply splice_utf8; [done| |].
  - apply utf8_app; [|done]. apply join_utf8. intros f Hf.
    destruct (Hfs f Hf). by apply build_entry_utf8.
  - intros x Hx. apply (plain_char "/"); [vm_compute; lia|by apply Hc].
Qed.

Lemma insert_file_refs_utf8 fs q q' t :
  names_utf8 fs → utf8 t = true →
  Re.search file_ref_section_pattern t = Some (q, q') →
  utf8 (insert_file_refs fs q t) = true.
Proof.
  intros Hfs Ht Hs.
  destruct (marker_position FILE_REF_END t q q' "/" eq_refl Hs) as [Hp Hc].
  apply splice_utf8; [done| |].
  - apply utf8_app; [|done]. apply join_utf8. intros f Hf.
    destruct (Hfs f Hf). by apply file_ref_entry_utf8.
  - intros x Hx. apply (plain_char "/"); [vm_compute; lia|by apply Hc].
Qed.

Lemma insert_sources_utf8 fs t :
  names_utf8 fs → utf8 t = true → utf8 (insert_sources fs t) = true.
Proof.
  intros Hfs Ht. unfold insert_sources.
  destruct (Re.search sources_pattern t) as [[a b]|] eqn:Hs; [|done].
  destruct (paren_position
              [Re.Lit (str "/* Sources */ = {"); Re.NotPlus "}"; Re.Lit (str "files = (")]
              t a b Hs) as [Hb Hc].
  apply splice_utf8; [done| |].
  - apply utf8_app; [done|]. apply join_utf8. intros f Hf.
    destruct (Hfs f Hf). by apply sources_entry_utf8.
  - intros x Hx. apply (plain_char ")"); [vm_compute; lia|by apply Hc].
Qed.

Lemma insert_group_utf8 fs t g :
  names_utf8 fs → utf8 t = true → utf8 (insert_group fs t g) = true.
Proof.
  intros Hfs Ht. unfold insert_group. cbv zeta. case_decide; [done|].
  destruct (Re.search (group_pattern g) t) as [[a b]|] eqn:Hs; [|done].
  destruct (paren_position
              [Re.Lit (str "path = " ++ g ++ str ";"); Re.NotPlus "}";
               Re.Lit (str "children = (")]
              t a b Hs) as [Hb Hc].
  apply splice_utf8; [done| |].
  - apply utf8_app; [done|]. apply join_utf8. intros f [_ Hf]%list_elem_of_filter.
    destruct (Hfs f Hf). by apply group_entry_utf8.
  - intros x Hx. apply (plain_char ")"); [vm_compute; lia|by apply Hc].
Qed.

Lemma insert_groups_utf8 fs gs t :
  names_utf8 fs → utf8 t = true → utf8 (foldl (insert_group fs) t gs) = true.
Proof.
  intros Hfs. revert t. induction gs as [|g gs IH]; intros t Ht; [done|].
  simpl. apply IH. by apply insert_group_utf8.
Qed.

(** The patched text can be written when the text read and the file
    names can. *)
Lemma patched_utf8 rt fs p p' q q' t :
  names_utf8 fs → utf8 t = true →
  Re.search build_section_pattern t = Some (p, p') →
  Re.search file_ref_section_pattern (insert_build_files fs p t) = Some (q, q') →
  utf8 (patched rt fs p q t) = true.
Proof.
  intros Hfs Ht Hb Hf. unfold patched.
  apply insert_groups_utf8; [done|]. apply insert_sources_utf8; [done|].
  eapply insert_file_refs_utf8; [done| |done].
  by eapply insert_build_files_utf8.
Qed.

Lemma tokens_for_names_utf8 rt n fs :
  (∀ f, f ∈ fs → utf8 (filename f) = true) → names_utf8 (tokens_for rt n fs).
Proof.
  intros Hfs f' Hin.
  apply tokens_for_elem in Hin as (f & r & b & Hin & ->).
  split; [|by apply (Hfs f)].
  split; cbn [the_ref file_ref build_ref set_refs default];
    apply UuidFacts.generate_uuid_ok.
Qed.

(** ** No carriage return comes in *)

Lemma no_cr_elem t : no_cr t ↔ CR ∉ t.
Proof.
  unfold no_cr. rewrite Forall_forall. split.
  - intros Hall Hin. by apply (Hall CR).
  - intros Hn c Hc ->. done.
Qed.

Lemma splice_no_cr t p new : no_cr t → no_cr new → no_cr (splice t p new).
Proof.
  intros Ht Hn. unfold splice, no_cr. rewrite !Forall_app.
  split_and!; [by apply Forall_take|done|by apply Forall_drop].
Qed.

Lemma upper_hex_no_cr t : Forall Uuid.is_upper_hex t → no_cr t.
Proof.
  intros Hall. eapply Forall_impl; [exact Hall|].
  intros c Hc ->. revert Hc. by_compute.
Qed.

Ltac no_cr_parts :=
  unfold no_cr; rewrite ?Forall_app; split_and!;
  first [ by_compute | by apply upper_hex_no_cr | done ].

Lemma build_entry_no_cr f : refs_hex f → no_cr (filename f) → no_cr (build_entry f).
Proof. intros [Hr Hb] Hn. unfold build_entry. no_cr_parts. Qed.

Lemma file_ref_entry_no_cr f : refs_hex f → no_cr (filename f) → no_cr (file_ref_entry f).
Proof. intros [Hr Hb] Hn. unfold file_ref_entry. no_cr_parts. Qed.

Lemma sources_entry_no_cr f : refs_hex f → no_cr (filename f) → no_cr (sources_entry f).
Proof. intros [Hr Hb] Hn. unfold sources_entry. no_cr_parts. Qed.

Lemma group_entry_no_cr f : refs_hex f → no_cr (filename f) → no_cr (group_entry f).
Proof. intros [Hr Hb] Hn. unfold group_entry. no_cr_parts. Qed.

Lemma join_no_cr (g : file_info → text) fs :
  (∀ f, f ∈ fs → no_cr (g f)) → no_cr (join [LF] (g <$> fs)).
Proof.
  intros Hg. apply join_chars; [by_compute|].
  apply Forall_fmap, Forall_forall. intros f Hf. by apply Hg.
Qed.

Lemma insert_build_files_no_cr fs p t :
  names_no_cr fs → no_cr t → no_cr (insert_build_files fs p t).
Proof.
  intros Hfs Ht. apply splice_no_cr; [done|]. apply Forall_app. split; [|by_compute].
  apply join_no_cr. intros f Hf. destruct (Hfs f Hf). by apply build_entry_no_cr.
Qed.

Lemma insert_file_refs_no_cr fs p t :
  names_no_cr fs → no_cr t → no_cr (insert_file_refs fs p t).
Proof.
  intros Hfs Ht. apply splice_no_cr; [done|]. apply Forall_app. split; [|by_compute].
  apply join_no_cr. intros f Hf. destruct (Hfs f Hf). by apply file_ref_entry_no_cr.
Qed.

Lemma insert_sources_no_cr fs t :
  names_no_cr fs → no_cr t → no_cr (insert_sources fs t).
Proof.
  intros Hfs Ht. unfold insert_sources.
  destruct (Re.search sources_pattern t) as [[a b]|]; [|done].
  apply splice_no_cr; [done|]. apply Forall_app. split; [by_compute|].
  apply join_no_cr. intros f Hf. destruct (Hfs f Hf). by apply sources_entry_no_cr.
Qed.

Lemma insert_group_no_cr fs t g :
  names_no_cr fs → no_cr t → no_cr (insert_group fs t g).
Proof.
  intros Hfs Ht. unfold insert_group. cbv zeta. case_decide; [done|].
  destruct (Re.search (group_pattern g) t) as [[a b]|]; [|done].
  apply splice_no_cr; [done|]. apply Forall_app. split; [by_compute|].
  apply join_no_cr. intros f [_ Hf]%list_elem_of_filter.
  destruct (Hfs f Hf). by apply group_entry_no_cr.
Qed.

Lemma insert_groups_no_cr fs gs t :
  names_no_cr fs → no_cr t → no_cr (foldl (insert_group fs) t gs).
Proof.
  intros Hfs. revert t. induction gs as [|g gs IH]; intros t Ht; [done|].
  simpl. apply IH. by apply insert_group_no_cr.
Qed.

(** ** A run with pending files, end-markers and plain group names *)

Lemma announced_draws w fs : draws (announced w fs) = draws w.
Proof. unfold announced, scanned. cbn [draws log]. by rewrite foldl_log_draws. Qed.

Lemma announced_disk w fs : disk (announced w fs) = disk w.
Proof. unfold announced, scanned. cbn [disk log]. by rewrite foldl_log_disk. Qed.

Lemma set_iter_groups rt fs :
  set_iter_ok rt →
  (∀ f, f ∈ fs → plain_name (group f)) →
  Forall plain_name (set_iter rt (list_to_set (group <$> fs))).
Proof.
  intros Hok Hplain. apply Forall_forall. intros g Hg.
  rewrite (Hok _) in Hg. apply elem_of_elements, elem_of_list_to_set in Hg.
  apply list_elem_of_fmap in Hg as (f & -> & Hf). by apply Hplain.
Qed.

Lemma update_project_patched rt u w p p' q0 q0' q q' :
  files_to_add u ≠ [] →
  let fs := tokens_for rt (draws w) (files_to_add u) in
  Re.search build_section_pattern (project_content u) = Some (p, p') →
  Re.search file_ref_section_pattern (project_content u) = Some (q0, q0') →
  Re.search file_ref_section_pattern (insert_build_files fs p (project_content u))
    = Some (q, q') →
  Forall plain_name (set_iter rt (list_to_set (group <$> fs))) →
  update_project rt u w =
  (Return tt,
   with_content (patched rt fs p q (project_content u)) (with_files fs u),
   drawn w (2 * length (files_to_add u))).
Proof.
  intros Hne fs Hb Hf0 Hf Hplain. rewrite update_project_eq by done. cbv zeta.
  rewrite Hb, Hf0. fold fs. rewrite Hf.
  rewrite for_each_groups_plain by done. done.
Qed.

Lemma run_patched rt w c p p' q0 q0' q q' :
  read_text (disk w) = Return c →
  writable (disk w) →
  let t := universal_newlines c in
  let fs0 := pending_of t (voice_control (disk w)) in
  let fs := tokens_for rt (draws w) fs0 in
  fs0 ≠ [] →
  (∀ f, f ∈ fs0 → utf8 (filename f) = true) →
  Re.search build_section_pattern t = Some (p, p') →
  Re.search file_ref_section_pattern t = Some (q0, q0') →
  Re.search file_ref_section_pattern (insert_build_files fs p t) = Some (q, q') →
  Forall plain_name (set_iter rt (list_to_set (group <$> fs))) →
  ∃ w1,
    run rt init w =
      (Return tt,
       with_content (patched rt fs p q t)
         (with_files fs (scanned_updater t (voice_control (disk w)))),
       w1)
    ∧ disk w1 = {| xcodeproj := Some (Regular (patched rt fs p q t) true true);
                   voice_control := voice_control (disk w) |}
    ∧ draws w1 = draws w + 2 * length fs0.
Proof.
  intros Hc Hw t fs0 fs Hne Hutf Hb Hf0 Hf Hplain.
  destruct (proj1 (read_text_Return _ _) Hc) as (_ & _ & Hct).
  eexists. split.
  - eapply (run_written rt w c); [done|done|done| |].
    + rewrite (update_project_patched rt _ _ p p' q0 q0' q q');
        try (cbn [scanned_updater files_to_add project_content];
             rewrite ?announced_draws; done).
    + cbn [project_content with_content scanned_updater files_to_add].
      rewrite ?announced_draws.
      apply (patched_utf8 rt fs p p' q q'); [|by apply utf8_universal_newlines|done|done].
      by apply tokens_for_names_utf8.
  - cbn [scanned_updater files_to_add project_content with_content with_files
         finished stored log drawn disk draws written].
    rewrite announced_draws, announced_disk. done.
Qed.

(** ** A missing Sources build phase (sections 4.5 and 7) *)

Lemma insert_sources_none fs t :
  Re.search sources_pattern t = None → insert_sources fs t = t.
Proof. intros Hs. unfold insert_sources. by rewrite Hs. Qed.


(** A second way for it to fail: a directory name with a metacharacter
    makes the group pattern one that [re] rejects, and the run ends with the
    exception, nothing written. *)
Lemma group_name_with_metachar_raises :
  let w := Samples.world_of (Samples.file Samples.manifest_no_sources)
             [Dir (str "a(") [File Samples.Foo]] in
  ∃ u' w',
    run Samples.rt init w = (Raise (ReError (group_pattern_source (str "a("))), u', w')
    ∧ disk w' = disk w.
Proof. cbv zeta. eexists _, _. split; vm_compute; reflexivity. Qed.

(** A third: the write step encodes the patched text after [open] has
    emptied the file.  A pending file name with a byte that is not part of
    a well-formed sequence makes [f.write] raise, and the manifest is left
    empty. *)
Example undecodable_name_empties_manifest :
  let name := str "caf" ++ ["233"] ++ str ".swift" in
  let w := Samples.world_of (Samples.file Samples.manifest_no_sources) [File name] in
  utf8 name = false
  ∧ ∃ u' w',
      run Samples.rt init w = (Raise UnicodeEncodeError, u', w')
      ∧ xcodeproj (disk w') = Samples.file [].
Proof.
  cbv zeta. split; [reflexivity|].
  eexists _, _. split; vm_compute; reflexivity.
Qed.

(** And the write step needs a manifest it may open for writing. *)
Example read_only_manifest_not_written :
  let w := Samples.world_of (Some (Regular Samples.manifest_no_sources true false))
             Samples.tree in
  ∃ u' w',
    run Samples.rt init w = (Raise PermissionError, u', w') ∧ disk w' = disk w.
Proof. cbv zeta. eexists _, _. split; vm_compute; reflexivity. Qed.



(** ** Idempotence (section 8) *)

Lemma pending_of_elem t root f :
  f ∈ pending_of t root →
  ∃ rel, (rel ∈ rglob root) ∧ (path_name rel ∉ existing_of t) ∧ f = new_file rel.
Proof.
  unfold pending_of. intros (rel & -> & Hrel)%list_elem_of_fmap.
  apply list_elem_of_filter in Hrel as [Hn Hrel]. eauto.
Qed.

Lemma pending_of_intro t root rel :
  rel ∈ rglob root → path_name rel ∉ existing_of t →
  new_file rel ∈ pending_of t root.
Proof.
  intros Hrel Hn. unfold pending_of. apply list_elem_of_fmap. exists rel.
  split; [done|]. by apply list_elem_of_filter.
Qed.

Section Patched.

Variable rt : runtime.
Variables (t : text) (root : list entry) (n p p' q q' : nat).
Variables fs0 fs : list file_info.

Hypothesis fs0_def : fs0 = pending_of t root.
Hypothesis fs_def : fs = tokens_for rt n fs0.
Hypothesis pending : fs0 ≠ [].
Hypothesis build_found : Re.search build_section_pattern t = Some (p, p').
Hypothesis file_ref_found :
  Re.search file_ref_section_pattern (insert_build_files fs p t) = Some (q, q').
Hypothesis names_plain :
  ∀ rel, rel ∈ rglob root → ("/" ∉ path_name rel) ∧ (")" ∉ path_name rel).
Hypothesis names_tame : ∀ f, f ∈ fs0 → tame (filename f).

Lemma patched_fs_elem f :
  f ∈ fs →
  ∃ rel r b, (rel ∈ rglob root) ∧ (new_file rel ∈ fs0)
    ∧ f = set_refs (new_file rel) (Uuid.generate_uuid r) (Uuid.generate_uuid b).
Proof.
  rewrite fs_def. intros (f0 & r & b & Hf0 & ->)%tokens_for_elem.
  pose proof Hf0 as Hf0'. rewrite fs0_def in Hf0'.
  destruct (pending_of_elem _ _ _ Hf0') as (rel & Hrel & _ & ->). eauto 10.
Qed.

Lemma patched_fs_ne : fs ≠ [].
Proof. rewrite fs_def. by rewrite tokens_for_nil. Qed.

Lemma patched_entries_ok : entries_ok fs.
Proof.
  intros f (rel & r & b & Hrel & Hf0 & ->)%patched_fs_elem.
  cbn [file_ref build_ref filename set_refs the_ref default new_file].
  split_and!.
  - apply UuidFacts.generate_uuid_ok.
  - apply UuidFacts.generate_uuid_ok.
  - by eapply rglob_swift.
  - by destruct (names_tame _ Hf0) as (_ & _ & _ & Hcl & _).
Qed.

Lemma patched_names_no_cr : names_no_cr fs.
Proof.
  intros f (rel & r & b & Hrel & Hf0 & ->)%patched_fs_elem.
  cbn [file_ref build_ref filename set_refs the_ref default new_file refs_hex].
  split; [split; apply UuidFacts.generate_uuid_ok|].
  apply no_cr_elem. by destruct (names_tame _ Hf0) as (_ & Hcr & _).
Qed.

Lemma patched_no_cr : no_cr t → no_cr (patched rt fs p q t).
Proof.
  intros Ht. unfold patched.
  apply insert_groups_no_cr, insert_sources_no_cr, insert_file_refs_no_cr,
    insert_build_files_no_cr; try done; apply patched_names_no_cr.
Qed.

Lemma patched_existing rel :
  rel ∈ rglob root → path_name rel ∈ existing_of (patched rt fs p q t).
Proof.
  intros Hrel. destruct (names_plain rel Hrel) as [Hslash Hparen].
  unfold patched.
  apply existing_insert_groups; [apply patched_entries_ok|done|].
  apply existing_insert_sources;
    [apply patched_entries_ok|apply patched_fs_ne|done|].
  destruct (decide (path_name rel ∈ existing_of t)) as [Hin|Hnin].
  - eapply existing_insert_file_refs; [exact file_ref_found|apply patched_fs_ne|done|].
    eapply existing_insert_build; [exact build_found|apply patched_fs_ne|done|done].
  - pose proof (pending_of_intro _ _ _ Hrel Hnin) as Hf0. rewrite <- fs0_def in Hf0.
    assert (Hname : path_name rel ∈ filename <$> fs).
    { rewrite fs_def, tokens_for_filenames.
      apply list_elem_of_fmap. by exists (new_file rel). }
    apply list_elem_of_fmap in Hname as (f & Hname & Hf).
    destruct (names_tame _ Hf0) as (Hsemi & _ & Hq & _ & Hne).
    cbn [filename new_file] in Hsemi, Hq, Hne. rewrite Hname in *.
    apply existing_of_file_ref_line; try done.
    rewrite <- Hname. by eapply rglob_swift.
Qed.

End Patched.

Lemma run_nothing_pending rt w c :
  read_text (disk w) = Return c →
  pending_of (universal_newlines c) (voice_control (disk w)) = [] →
  ∃ w',
    run rt init w =
      (Return tt, scanned_updater (universal_newlines c) (voice_control (disk w)), w')
    ∧ disk w' = disk w ∧ draws w' = draws w.
Proof.
  intros Hc Hnil. pose proof (run_eq rt w c Hc) as Hrun. cbv zeta in Hrun.
  rewrite decide_True in Hrun by done. eexists. split; [exact Hrun|done].
Qed.


(** Without the end-markers the first run inserts nothing, and the
    second run finds the same files pending. *)
Lemma second_run_pending_without_markers :
  let w := Samples.world_of (Samples.file []) Samples.tree in
  ∃ u1 w1 u2 w2,
    run Samples.rt init w = (Return tt, u1, w1)
    ∧ run Samples.rt init w1 = (Return tt, u2, w2)
    ∧ length (files_to_add u2) = 3.
Proof.
  cbv zeta. eexists _, _, _, _.
  split; [vm_compute; reflexivity|]. split; [vm_compute; reflexivity|]. reflexivity.
Qed.

(** Why the names are constrained: each of the runs below returns
    normally twice, and the second run has a file pending again. *)
Ltac run_twice :=
  unfold Samples.pending_twice; cbv zeta; split_and!; vm_compute; reflexivity.

(** A name that starts with a quote comes back stripped. *)
Example leading_quote_pending_again :
  Samples.pending_twice Samples.manifest [File (DQUOTE :: str "a.swift")]
    [DQUOTE :: str "a.swift"] [DQUOTE :: str "a.swift"].
Proof. run_twice. Qed.

(** The pattern wants a character in front of [.swift]. *)
Example bare_extension_pending_again :
  Samples.pending_twice Samples.manifest [File (str ".swift")] [str ".swift"] [str ".swift"].
Proof. run_twice. Qed.

(** A carriage return in a name is read back as a newline. *)
Example carriage_return_pending_again :
  Samples.pending_twice Samples.manifest [File (str "a" ++ [CR] ++ str "b.swift")]
    [str "a" ++ [CR] ++ str "b.swift"] [str "a" ++ [CR] ++ str "b.swift"].
Proof. run_twice. Qed.

(** A pending name with [path = ] in it, written into the Sources list in
    front of a registered entry, takes that entry into its own match. *)
Example path_eq_in_name_unregisters :
  Samples.pending_twice
    (BUILD_END ++ FILE_REF_END ++ str "/* Sources */ = {x files = (y) path = Old.swift;")
    [File (str "Old.swift"); File (str "path = a.swift")]
    [str "path = a.swift"] [str "Old.swift"].
Proof. run_twice. Qed.

(** A registered name with [)] in it can be cut by an insertion. *)
Example paren_in_name_unregisters :
  Samples.pending_twice
    (BUILD_END ++ FILE_REF_END ++ str "/* Sources */ = {x files = (path = a)b.swift;")
    [File (str "a)b.swift"); File (str "New.swift")]
    [str "New.swift"] [str "a)b.swift"].
Proof. run_twice. Qed.

(** The build-entry insertion can break the file-reference end-marker,
    when the two markers share a character; the run ends with the exception
    of [None.start()]. *)
Example markers_sharing_a_character :
  let w := Samples.world_of
             (Samples.file (str "/* End PBXFileReference section *" ++ BUILD_END))
             [File (str "New.swift")] in
  ∃ u' w', run Samples.rt init w = (Raise AttributeError, u', w') ∧ disk w' = disk w.
Proof. cbv zeta. eexists _, _. split; vm_compute; reflexivity. Qed.

(** A pending name that cannot be encoded: the first run empties the
    manifest and ends with the exception of the write step, and the second
    run, which finds no end-marker in the empty text, has the file pending
    again. *)
Example undecodable_name_pending_again :
  let name := str "caf" ++ ["233"] ++ str ".swift" in
  let w := Samples.world_of (Samples.file Samples.manifest) [File name] in
  ∃ u1 w1 u2 w2,
    run Samples.rt init w = (Raise UnicodeEncodeError, u1, w1)
    ∧ xcodeproj (disk w1) = Samples.file []
    ∧ run Samples.rt init w1 = (Return tt, u2, w2)
    ∧ filename <$> files_to_add u2 = [name].
Proof.
  cbv zeta. eexists _, _, _, _.
  split; [vm_compute; reflexivity|]. split; [vm_compute; reflexivity|].
  split; [vm_compute; reflexivity|]. vm_compute. reflexivity.
Qed.



(** * Further properties of the code *)

(** ** [generate_uuid] *)

Lemma uuid4_variant r :
  (8 <= Z.land (Z.shiftr (Uuid.uuid4 r) 60) 15 <= 11)%Z.
Proof.
  assert (H3 : Z.testbit (Z.land (Z.shiftr (Uuid.uuid4 r) 60) 15) 3 = true).
  { unfold Uuid.uuid4.
    rewrite Z.land_spec, Z.shiftr_spec by done.
    rewrite Z.lor_spec, Z.land_spec, Z.lor_spec, Z.land_spec.
    rewrite !Z.lnot_spec by lia. rewrite !Z.shiftl_spec by lia.
    simpl. rewrite ?andb_false_r, ?andb_true_r, ?orb_true_r, ?orb_false_r.
    reflexivity. }
  assert (H2 : Z.testbit (Z.land (Z.shiftr (Uuid.uuid4 r) 60) 15) 2 = false).
  { unfold Uuid.uuid4.
    rewrite Z.land_spec, Z.shiftr_spec by done.
    rewrite Z.lor_spec, Z.land_spec, Z.lor_spec, Z.land_spec.
    rewrite !Z.lnot_spec by lia. rewrite !Z.shiftl_spec by lia.
    simpl. rewrite ?andb_false_r, ?andb_true_r, ?orb_true_r, ?orb_false_r.
    reflexivity. }
  pose proof (UuidFacts.nibble_range (Z.shiftr (Uuid.uuid4 r) 60)) as Hr.
  revert H3 H2 Hr. generalize (Z.land (Z.shiftr (Uuid.uuid4 r) 60) 15).
  intros x H3 H2 Hr.
  assert (Hc : (x = 0 ∨ x = 1 ∨ x = 2 ∨ x = 3 ∨ x = 4 ∨ x = 5 ∨ x = 6 ∨ x = 7
                ∨ 8 <= x <= 11 ∨ x = 12 ∨ x = 13 ∨ x = 14 ∨ x = 15)%Z) by lia.
  clear Hr.
  destruct Hc
    as [-> | [-> | [-> | [-> | [-> | [-> | [-> | [-> | [? | [-> | [-> | [-> | ->]]]]]]]]]]]];
    try done.
Qed.

Lemma generate_uuid_lookup r k :
  k < 24 →
  Uuid.generate_uuid r !! k =
  Some (Uuid.upper
          (Uuid.hexdigit
             (Z.land (Z.shiftr (Uuid.uuid4 r) (4 * (31 - Z.of_nat k))) 15))).
Proof.
  intros Hk. unfold Uuid.generate_uuid, Uuid.hex.
  rewrite list_lookup_fmap, lookup_take_lt by done.
  rewrite list_lookup_fmap, lookup_seq_lt by lia. done.
Qed.

Lemma uuid4_high_bits r r' :
  Z.shiftr r 32 = Z.shiftr r' 32 →
  Z.shiftr (Uuid.uuid4 r) 32 = Z.shiftr (Uuid.uuid4 r') 32.
Proof.
  intros Heq. apply Z.bits_inj'. intros k Hk.
  rewrite !Z.shiftr_spec by done. unfold Uuid.uuid4.
  rewrite !Z.lor_spec, !Z.land_spec, !Z.lor_spec, !Z.land_spec.
  rewrite <- (Z.shiftr_spec r 32 k), <- (Z.shiftr_spec r' 32 k) by done.
  by rewrite Heq.
Qed.

(** X1. Whatever the random bytes, the token [generate_uuid] returns
    carries the marks of a version-4 UUID: its thirteenth character is
    [4], and its seventeenth is one of [8], [9], [A], [B]. *)
Theorem token_version_and_variant r :
  Uuid.generate_uuid r !! 12 = Some "4"
  ∧ ∃ c, Uuid.generate_uuid r !! 16 = Some c ∧ c ∈ str "89AB".
Proof.
  split.
  - rewrite generate_uuid_lookup by lia.
    change (4 * (31 - Z.of_nat 12))%Z with 76%Z.
    by rewrite UuidFacts.uuid4_version.
  - eexists. split; [apply generate_uuid_lookup; lia|].
    change (4 * (31 - Z.of_nat 16))%Z with 60%Z.
    pose proof (uuid4_variant r) as Hv. revert Hv.
    generalize (Z.land (Z.shiftr (Uuid.uuid4 r) 60) 15). intros x Hx.
    assert (Hc : (x = 8 ∨ x = 9 ∨ x = 10 ∨ x = 11)%Z) by lia. clear Hx.
    destruct Hc as [-> | [-> | [-> | ->]]]; by_compute.
Qed.

(** X2. The slice [[:24]] drops the last eight hexadecimal digits: two
    random values that agree above their 32 lowest bits give the same
    token. *)
Theorem token_ignores_low_bits r r' :
  Z.shiftr r 32 = Z.shiftr r' 32 →
  Uuid.generate_uuid r = Uuid.generate_uuid r'.
Proof.
  intros Heq. apply uuid4_high_bits in Heq.
  apply list_eq. intros k. destruct (decide (k < 24)) as [Hk|Hk].
  - rewrite !generate_uuid_lookup by done.
    replace (4 * (31 - Z.of_nat k))%Z with (32 + (4 * (23 - Z.of_nat k)))%Z by lia.
    rewrite <- !Z.shiftr_shiftr by lia. by rewrite Heq.
  - pose proof (UuidFacts.generate_uuid_ok r) as [Hl _].
    pose proof (UuidFacts.generate_uuid_ok r') as [Hl' _].
    rewrite !lookup_ge_None_2 by lia. done.
Qed.

Lemma token_ignores_low_bits_witness :
  Z.shiftr 0 32 = Z.shiftr 4294967295 32
  ∧ Uuid.generate_uuid 0 = Uuid.generate_uuid 4294967295.
Proof. split; [reflexivity | by apply token_ignores_low_bits]. Defined.

(** ** [read_project] and [write_project] *)

Lemma universal_newlines_length c : length (universal_newlines c) ≤ length c.
Proof.
  remember (length c) as n eqn:Hn. revert c Hn.
  induction n as [n IH] using lt_wf_ind. intros c ->.
  destruct c as [|x c]; [done|].
  cbn [universal_newlines]. case_decide as Hx.
  - destruct c as [|d c]; [done|].
    case_decide; cbn [length].
    + specialize (IH (length c) ltac:(simpl; lia) c eq_refl). lia.
    + specialize (IH (length (d :: c)) ltac:(simpl; lia) (d :: c) eq_refl).
      cbn [length] in IH. lia.
  - cbn [length]. specialize (IH (length c) ltac:(simpl; lia) c eq_refl). lia.
Qed.

(** X3. [read_project] on a manifest that can be read sets the text to
    the file's characters with the line ends normalised: the text holds no
    carriage return, is no longer than the file, would be read back
    unchanged, and is the file's content itself when that has no carriage
    return.  The pending list, the existing-entry set and the world are
    untouched. *)
Theorem read_project_text u w c :
  read_text (disk w) = Return c →
  ∃ t, read_project u w = (Return tt, with_content t u, w)
    ∧ (CR ∉ t) ∧ length t ≤ length c
    ∧ universal_newlines t = t
    ∧ (CR ∉ c → t = c).
Proof.
  intros Hc. exists (universal_newlines c). unfold read_project. rewrite Hc.
  split_and!; [done| | | |].
  - apply universal_newlines_no_cr.
  - apply universal_newlines_length.
  - apply universal_newlines_id, universal_newlines_no_cr.
  - apply universal_newlines_id.
Qed.

Lemma read_project_text_witness :
  let c := str "a" ++ [CR; LF] ++ str "b" ++ [CR] in
  let w := Samples.world_of (Samples.file c) [] in
  read_text (disk w) = Return c
  ∧ ∃ t, read_project init w = (Return tt, with_content t init, w)
      ∧ (CR ∉ t) ∧ length t ≤ length c
      ∧ universal_newlines t = t
      ∧ (CR ∉ c → t = c).
Proof. split; [reflexivity | by apply read_project_text]. Defined.

(** X4. What [write_project] does.  When the manifest cannot be opened
    for writing (no [VoiceControl.xcodeproj], a directory in the way, no
    permission), it raises the exception of [open] and changes nothing.
    When the file is opened and the text cannot be encoded, it raises
    [UnicodeEncodeError] and leaves the manifest empty.  Otherwise it
    returns normally, the manifest holds the text, and nothing else has
    changed; a [read_project] that follows, on a file that may be read,
    gets the text written with its line ends normalised, and the very
    text written when that holds no carriage return. *)
Theorem write_then_read u u0 w :
  (∀ e, open_w (disk w) = Raise e → write_project u w = (Raise e, u, w))
  ∧ (∀ r, open_w (disk w) = Return r → utf8 (project_content u) = false →
       ∃ w1,
         write_project u w = (Raise UnicodeEncodeError, u, w1)
         ∧ xcodeproj (disk w1) = Some (Regular [] r true)
         ∧ voice_control (disk w1) = voice_control (disk w))
  ∧ (∀ r, open_w (disk w) = Return r → utf8 (project_content u) = true →
       ∃ w1,
         write_project u w = (Return tt, u, w1)
         ∧ xcodeproj (disk w1) = Some (Regular (project_content u) r true)
         ∧ voice_control (disk w1) = voice_control (disk w)
         ∧ console w1 = console w ∧ draws w1 = draws w
         ∧ (r = true →
            read_project u0 w1
            = (Return tt, with_content (universal_newlines (project_content u)) u0, w1)
            ∧ (CR ∉ project_content u →
               read_project u0 w1
               = (Return tt, with_content (project_content u) u0, w1)))).
Proof.
  split_and!.
  - intros e He. by apply write_project_raise.
  - intros r Hr Hu. rewrite (write_project_eq u w r Hr), Hu. by eexists.
  - intros r Hr Hu. rewrite (write_project_eq u w r Hr), Hu. eexists.
    split; [done|]. unfold stored, written.
    cbn [disk xcodeproj voice_control console draws].
    split_and!; try done. intros ->.
    unfold read_project, read_text. cbn [disk xcodeproj]. rewrite Hu.
    split; [done|]. intros Hcr. by rewrite universal_newlines_id.
Qed.

(** ** [extract_existing_files] *)

Lemma lstrip_suffix c t : lstrip c t `suffix_of` t.
Proof.
  induction t as [|x t IH]; [done|]. cbn [lstrip]. case_decide; [|done].
  by apply suffix_cons_r.
Qed.

Lemma lstrip_head c t : head (lstrip c t) ≠ Some c.
Proof.
  induction t as [|x t IH]; [done|]. cbn [lstrip]. case_decide as Hx; [done|].
  simpl. by intros [= ->].
Qed.

Lemma lstrip_app c a b x :
  head b = Some x → x ≠ c → lstrip c (a ++ b) = lstrip c a ++ b.
Proof.
  intros Hb Hx. induction a as [|y a IH].
  - destruct b as [|z b]; [done|]. simpl in Hb. injection Hb as ->.
    cbn [lstrip app]. by rewrite decide_False.
  - cbn [app lstrip]. case_decide; [done|done].
Qed.

(** Stripping a capture: the quotes in front go, the tail stays. *)
Lemma strip_stem c stem tail x y :
  head tail = Some x → x ≠ c → last tail = Some y → y ≠ c →
  strip c (stem ++ tail) = lstrip c stem ++ tail.
Proof.
  intros Hh Hx Hl Hy. unfold strip, rstrip.
  rewrite (lstrip_app c stem tail x) by done.
  assert (Hls : ∀ s, head s ≠ Some c → lstrip c s = s).
  { intros [|z s] Hs; [done|]. cbn [lstrip]. rewrite decide_False; [done|].
    intros ->. by apply Hs. }
  rewrite Hls; [by rewrite reverse_involutive|].
  rewrite head_reverse, last_app, Hl. by intros [= ->].
Qed.

Lemma existing_of_shape t name :
  name ∈ existing_of t →
  is_swift name ∧ (";" ∉ name) ∧ head name ≠ Some DQUOTE.
Proof.
  intros Hin. apply existing_of_iff in Hin
    as (pre & stem & post & _ & Hne & Hsemi & _ & ->).
  rewrite (strip_stem DQUOTE stem DOT_SWIFT "." "t") by done.
  split_and!.
  - by apply suffix_app_r.
  - apply not_elem_of_app. split; [|by_compute].
    intros Hin. apply Hsemi. eapply elem_of_suffix; [done|apply lstrip_suffix].
  - pose proof (lstrip_head DQUOTE stem) as Hh.
    destruct (lstrip DQUOTE stem) as [|z s]; [done|]. done.
Qed.

Lemma no_occurrence s t : search [Lit s] t = None → ∀ i, ¬ occ s t i.
Proof.
  intros Hs i Ho. apply search_lit_found in Ho as [? Ho]. congruence.
Qed.

Lemma existing_of_needs_tail t :
  (∀ i, ¬ occ (str ".swift;") t i) → existing_of t = ∅.
Proof.
  intros Hno. apply set_eq. intros name. split; [|by intros ?%elem_of_empty].
  intros Hin. apply elem_of_existing_of in Hin as (i & e & Hhit & _).
  destruct Hhit as (_ & Hie & He & _ & Hdot & _).
  exfalso. apply (Hno (e - 6)). apply occ_lookup. intros k c Hk.
  change (str ".swift;") with (DOT_SWIFT ++ [";"]) in Hk.
  destruct (decide (k < 6)) as [Hlt|Hge].
  - apply (occ_char _ _ _ k c Hdot). by rewrite lookup_app_l in Hk by done.
  - rewrite lookup_app_r in Hk by (simpl; lia).
    change (length DOT_SWIFT) with 6 in Hk.
    destruct (k - 6) as [|k'] eqn:Hk6; [|done]. simpl in Hk. injection Hk as <-.
    replace (e - 6 + k) with e by lia. done.
Qed.

(** X5. Every name [extract_existing_files] adds to the set ends in
    [.swift], holds no [;] and does not start with a quote: of the quotes
    [strip] is there to remove, only leading ones can be present, since the
    pattern wants [.swift] directly in front of the [;]. *)
Theorem extracted_names_shape u w name :
  name ∈ existing_files (extract_existing_files u w).1.2 →
  name ∈ existing_files u
  ∨ (is_swift name ∧ (";" ∉ name) ∧ head name ≠ Some DQUOTE).
Proof.
  rewrite extract_existing_files_eq. cbn [fst snd existing_files with_existing].
  intros [Hin|Hin]%elem_of_union; [by left|right].
  by apply (existing_of_shape (project_content u)).
Qed.

Lemma extracted_names_shape_witness :
  let u := with_content (str "x; path = " ++ [DQUOTE] ++ str "a.swift;") init in
  let w := Samples.world_of None [] in
  (str "a.swift" ∈ existing_files (extract_existing_files u w).1.2)
  ∧ (str "a.swift" ∈ existing_files u
     ∨ (is_swift (str "a.swift") ∧ (";" ∉ str "a.swift")
        ∧ head (str "a.swift") ≠ Some DQUOTE)).
Proof.
  intros u w.
  assert (H : str "a.swift" ∈ existing_files (extract_existing_files u w).1.2)
    by by_compute.
  split; [exact H|]. exact (extracted_names_shape u w _ H).
Defined.

(** X6. A reference whose path is written in quotes, as Xcode writes a
    name with a space in it, has the closing quote between [.swift] and
    [;] and is not seen: on a text in which [.swift;] does not occur,
    [extract_existing_files] adds nothing. *)
Theorem quoted_paths_not_extracted u w :
  (∀ i, ¬ occ (str ".swift;") (project_content u) i) →
  extract_existing_files u w = (Return tt, u, w).
Proof.
  intros Hno. rewrite extract_existing_files_eq, existing_of_needs_tail by done.
  rewrite (right_id_L ∅ (∪)). by destruct u.
Qed.

Lemma quoted_paths_not_extracted_witness :
  let u := with_content
             (str "path = " ++ [DQUOTE] ++ str "My File.swift" ++ [DQUOTE] ++ str ";")
             init in
  let w := Samples.world_of None [] in
  (∀ i, ¬ occ (str ".swift;") (project_content u) i)
  ∧ extract_existing_files u w = (Return tt, u, w).
Proof.
  intros u w.
  assert (H : ∀ i, ¬ occ (str ".swift;") (project_content u) i).
  { apply no_occurrence. vm_compute. reflexivity. }
  split; [exact H|]. exact (quoted_paths_not_extracted u w H).
Defined.

(** X7. [extract_existing_files] only adds to the set, and a second call
    on the same text changes nothing. *)
Theorem extract_existing_files_again u w :
  let u1 := (extract_existing_files u w).1.2 in
  extract_existing_files u1 w = (Return tt, u1, w)
  ∧ existing_files u ⊆ existing_files u1
  ∧ existing_files u1 = existing_files u ∪ existing_of (project_content u).
Proof.
  rewrite !extract_existing_files_eq. cbn [fst snd].
  rewrite extract_existing_files_eq.
  cbn [existing_files project_content with_existing].
  split_and!; [|apply union_subseteq_l|done].
  f_equal. f_equal. unfold with_existing. cbn. f_equal.
  apply set_eq. intros x. rewrite !elem_of_union. tauto.
Qed.

(** ** [find_new_swift_files] *)

Lemma matching_elem here es rel :
  rel ∈ matching here es ↔
  ∃ e, e ∈ es ∧ is_swift (entry_name e) ∧ rel = here ++ [entry_name e].
Proof.
  unfold matching. rewrite list_elem_of_fmap. split.
  - intros (e & -> & [He Hin]%list_elem_of_filter). by exists e.
  - intros (e & Hin & He & ->). exists e. split; [done|].
    by apply list_elem_of_filter.
Qed.

Lemma rglob_dir_elem e here rel :
  rel ∈ rglob_dir here e ↔
  ∃ n cs rel' e',
    e = Dir n cs ∧ located cs rel' e' ∧ is_swift (entry_name e')
    ∧ rel = here ++ n :: rel'.
Proof.
  revert here rel. induction e as [n|n cs IH] using entry_ind'; intros here rel.
  - split; [by intros ?%elem_of_nil|]. by intros (? & ? & ? & ? & [=] & _).
  - rewrite Forall_forall in IH. cbn [rglob_dir]. rewrite elem_of_app. split.
    + intros [Hm|Hf].
      * apply matching_elem in Hm as (e' & Hin & He' & ->).
        exists n, cs, [entry_name e'], e'. split_and!; [done| |done|].
        -- by constructor.
        -- by rewrite <- app_assoc.
      * apply list_elem_of_In, in_flat_map in Hf as (c & Hc & Hrel).
        apply list_elem_of_In in Hc, Hrel.
        apply (IH c Hc) in Hrel as (n2 & cs2 & rel2 & e' & -> & Hloc & He' & ->).
        exists n, cs, (n2 :: rel2), e'. split_and!; [done| |done|].
        -- by eapply located_below.
        -- by rewrite <- app_assoc.
    + intros (n' & cs' & rel' & e' & [= <- <-] & Hloc & He' & ->).
      inversion Hloc as [es e0 Hin|es n2 cs2 rel2 e0 Hdir Hloc2]; subst.
      * left. apply matching_elem. exists e'. split_and!; [done..|].
        by rewrite <- app_assoc.
      * right. apply list_elem_of_In, in_flat_map. exists (Dir n2 cs2).
        split; [by apply list_elem_of_In|]. apply list_elem_of_In.
        apply (IH _ Hdir). exists n2, cs2, rel2, e'. split_and!; [done..|].
        by rewrite <- app_assoc.
Qed.

(** The traversal yields the paths of the entries, at any depth, whose
    name ends in [.swift]. *)
Lemma rglob_located root rel :
  rel ∈ rglob root ↔ ∃ e, located root rel e ∧ is_swift (entry_name e).
Proof.
  unfold rglob. rewrite elem_of_app. split.
  - intros [Hm|Hf].
    + apply matching_elem in Hm as (e & Hin & He & ->). exists e.
      split; [by constructor|done].
    + apply list_elem_of_In, in_flat_map in Hf as (c & Hc & Hrel).
      apply list_elem_of_In in Hc, Hrel.
      apply rglob_dir_elem in Hrel as (n & cs & rel' & e' & -> & Hloc & He' & ->).
      exists e'. split; [|done]. by eapply located_below.
  - intros (e & Hloc & He).
    inversion Hloc as [es e0 Hin|es n cs rel' e0 Hdir Hloc']; subst.
    + left. apply matching_elem. by exists e.
    + right. apply list_elem_of_In, in_flat_map. exists (Dir n cs).
      split; [by apply list_elem_of_In|]. apply list_elem_of_In.
      apply rglob_dir_elem. by exists n, cs, rel', e.
Qed.

Lemma located_name es rel e : located es rel e → path_name rel = entry_name e.
Proof.
  induction 1 as [es e Hin|es n cs rel e Hdir Hloc IH]; [done|].
  unfold path_name in *. destruct rel as [|x rel]; [by inversion Hloc|].
  by rewrite last_cons_cons.
Qed.

Lemma located_nonempty es rel e : located es rel e → rel ≠ [].
Proof. by destruct 1. Qed.

Lemma path_str_cons x rel :
  rel ≠ [] → path_str (x :: rel) = x ++ str "/" ++ path_str rel.
Proof. destruct rel; [done|]. done. Qed.

(** X8. The scan misses nothing and invents nothing: the records
    [find_new_swift_files] appends are exactly those of the entries below
    [VoiceControl], at any depth, whose name ends in [.swift] and is not in
    the existing-entry set; the record of such an entry is [new_file] of
    its path and has the entry's name as file name.  Directories are
    entries like files. *)
Theorem scan_reaches_every_entry u w f :
  f ∈ files_to_add (find_new_swift_files u w).1.2 ↔
  f ∈ files_to_add u
  ∨ ∃ rel e,
      located (voice_control (disk w)) rel e
      ∧ is_swift (entry_name e) ∧ (entry_name e ∉ existing_files u)
      ∧ f = new_file rel ∧ filename f = entry_name e.
Proof.
  rewrite find_new_swift_files_eq. cbn [fst snd files_to_add with_files].
  rewrite elem_of_app, list_elem_of_fmap. split.
  - intros [Hf|(rel & -> & [Hnin Hrel]%list_elem_of_filter)]; [by left|right].
    apply rglob_located in Hrel as (e & Hloc & He).
    pose proof (located_name _ _ _ Hloc) as Hname.
    exists rel, e. split_and!; [done|done| |done|done]. by rewrite <- Hname.
  - intros [Hf|(rel & e & Hloc & He & Hnin & -> & _)]; [by left|right].
    exists rel. split; [done|]. apply list_elem_of_filter.
    split; [by rewrite (located_name _ _ _ Hloc)|].
    apply rglob_located. by exists e.
Qed.

(** X9. [rglob] does not ask whether a match is a file: a directory of
    [VoiceControl] whose name ends in [.swift] and is not in the
    existing-entry set is put on the pending list like a source file, in
    the group [VoiceControl]. *)
Theorem directory_named_swift_is_pending u w n cs :
  Dir n cs ∈ voice_control (disk w) → is_swift n → n ∉ existing_files u →
  ∃ f, (f ∈ files_to_add (find_new_swift_files u w).1.2)
    ∧ filename f = n ∧ path f = n ∧ group f = str "VoiceControl"
    ∧ full_path f = str "VoiceControl/" ++ n.
Proof.
  intros Hdir Hn Hnin. exists (new_file [n]). split; [|done].
  rewrite find_new_swift_files_eq. cbn [fst snd files_to_add with_files].
  apply elem_of_app. right. apply list_elem_of_fmap. exists [n]. split; [done|].
  apply list_elem_of_filter. split; [done|].
  apply rglob_located. exists (Dir n cs). split; [|done].
  by apply (located_here _ (Dir n cs)).
Qed.

Lemma directory_named_swift_is_pending_witness :
  let w := Samples.world_of None [Dir (str "Gen.swift") [File (str "a.txt")]] in
  (Dir (str "Gen.swift") [File (str "a.txt")] ∈ voice_control (disk w))
  ∧ is_swift (str "Gen.swift")
  ∧ (str "Gen.swift" ∉ existing_files init)
  ∧ ∃ f, (f ∈ files_to_add (find_new_swift_files init w).1.2)
      ∧ filename f = str "Gen.swift" ∧ path f = str "Gen.swift"
      ∧ group f = str "VoiceControl"
      ∧ full_path f = str "VoiceControl/" ++ str "Gen.swift".
Proof.
  assert (H1 : Dir (str "Gen.swift") [File (str "a.txt")]
               ∈ [Dir (str "Gen.swift") [File (str "a.txt")]])
    by apply list_elem_of_here.
  assert (H2 : is_swift (str "Gen.swift")) by (by exists (str "Gen")).
  assert (H3 : str "Gen.swift" ∉ existing_files init) by apply not_elem_of_empty.
  split_and!; [exact H1 | exact H2 | exact H3 |].
  exact (directory_named_swift_is_pending init
           (Samples.world_of None [Dir (str "Gen.swift") [File (str "a.txt")]])
           (str "Gen.swift") [File (str "a.txt")] H1 H2 H3).
Defined.

(** X10. What a record appended by [find_new_swift_files] looks like: its
    file name ends in [.swift], is not in the existing-entry set and ends
    its path; its full path is [VoiceControl/] followed by its path; its
    group is [VoiceControl] or the directory its path starts with; and the
    keys [file_ref] and [build_ref] are not set. *)
Theorem pending_records_shape u w f :
  f ∈ files_to_add (find_new_swift_files u w).1.2 →
  f ∈ files_to_add u
  ∨ (is_swift (filename f) ∧ (filename f ∉ existing_files u)
     ∧ filename f `suffix_of` path f
     ∧ full_path f = str "VoiceControl/" ++ path f
     ∧ (group f = str "VoiceControl" ∨ (group f ++ str "/") `prefix_of` path f)
     ∧ file_ref f = None ∧ build_ref f = None).
Proof.
  rewrite find_new_swift_files_eq. cbn [fst snd files_to_add with_files].
  intros [Hf|(rel & -> & [Hnin Hrel]%list_elem_of_filter)%list_elem_of_fmap]%elem_of_app;
    [by left|right].
  pose proof (rglob_swift _ _ Hrel) as Hsw.
  apply rglob_located in Hrel as (e & Hloc & He).
  pose proof (located_nonempty _ _ _ Hloc) as Hne.
  cbn [filename path full_path group file_ref build_ref new_file].
  split_and!; [done|done| | | |done|done].
  - unfold path_name, path_str. destruct (last rel) as [x|] eqn:Hl.
    + by apply join_suffix.
    + apply suffix_nil.
  - by rewrite path_str_cons.
  - case_decide as Hlen; [right|by left].
    destruct rel as [|x [|y rel]]; [done|simpl in Hlen; lia|].
    cbn [head default]. unfold path_str. rewrite join_cons2.
    rewrite app_assoc. by apply prefix_app_r.
Qed.

Lemma pending_records_shape_witness :
  let w := Samples.world_of None Samples.tree in
  let f := new_file [str "Core"; Samples.Bar] in
  (f ∈ files_to_add (find_new_swift_files init w).1.2)
  ∧ (f ∈ files_to_add init
     ∨ (is_swift (filename f) ∧ (filename f ∉ existing_files init)
        ∧ filename f `suffix_of` path f
        ∧ full_path f = str "VoiceControl/" ++ path f
        ∧ (group f = str "VoiceControl" ∨ (group f ++ str "/") `prefix_of` path f)
        ∧ file_ref f = None ∧ build_ref f = None)).
Proof.
  intros w f.
  assert (H : f ∈ files_to_add (find_new_swift_files init w).1.2).
  { rewrite find_new_swift_files_eq. cbn [fst snd files_to_add with_files init app].
    apply list_elem_of_fmap. exists [str "Core"; Samples.Bar]. split; [done|].
    by_compute. }
  split; [exact H|]. exact (pending_records_shape init w f H).
Defined.

(** X11. [find_new_swift_files] never empties the pending list and does
    not look at it: called twice in a row it appends the record of every
    new entry twice. *)
Theorem find_new_swift_files_twice u w :
  let new := new_file <$> filter (fun p => path_name p ∉ existing_files u)
                            (rglob (voice_control (disk w))) in
  (find_new_swift_files;; find_new_swift_files) u w
  = (Return tt, with_files (files_to_add u ++ new ++ new) u, w).
Proof.
  intros new. rewrite bind_eq, !find_new_swift_files_eq.
  cbn [files_to_add existing_files with_files].
  unfold with_files. cbn. by rewrite <- app_assoc.
Qed.

(** ** The insertions of [update_project] and [add_files_to_group] *)

(** What a match of a pattern [lit [^c]+ lit [^d]+] comes to. *)
Lemma match_at_anchor a c b d t n :
  match_at [Lit a; NotPlus c; Lit b; NotPlus d] t = Some n →
  occ a t 0
  ∧ ∃ k, 1 ≤ k
      ∧ (∀ j, length a ≤ j < length a + k → t !! j ≠ Some c)
      ∧ occ b t (length a + k)
      ∧ length a + k + length b < n ≤ length t
      ∧ (∀ j, length a + k + length b ≤ j < n → t !! j ≠ Some d).
Proof.
  intros Hm. pose proof (match_at_le _ _ _ Hm) as Hle. revert Hm.
  rewrite match_at_Lit. case_decide as Ha; [|done].
  destruct (match_at _ (drop (length a) t)) as [n1|] eqn:H1; [|done].
  intros [= <-]. rewrite match_at_NotPlus in H1.
  apply try_down_Some in H1 as (k & n2 & Hk & H2 & -> & _).
  rewrite match_at_Lit in H2. case_decide as Hb; [|done].
  destruct (match_at _ (drop (length b) _)) as [m|] eqn:H3; [|done].
  injection H2 as <-. rewrite match_at_NotPlus in H3.
  apply try_down_Some in H3 as (m' & z & Hm' & Hz & -> & _).
  injection Hz as <-.
  split; [done|]. exists k. split_and!.
  - lia.
  - intros j Hj Hc.
    destruct (run_length_lookup c (drop (length a) t) (j - length a))
      as (x & Hx & Hne); [lia|].
    rewrite lookup_drop in Hx.
    replace (length a + (j - length a)) with j in Hx by lia.
    congruence.
  - unfold occ, sub. by rewrite drop_drop in Hb.
  - lia.
  - lia.
  - intros j Hj Hd.
    destruct (run_length_lookup d (drop (length b) (drop k (drop (length a) t)))
                (j - (length a + k + length b))) as (x & Hx & Hne); [lia|].
    rewrite !lookup_drop in Hx.
    replace (length a + (k + (length b + (j - (length a + k + length b)))))
      with j in Hx by lia.
    congruence.
Qed.

Lemma search_anchor a c b d t p q :
  search [Lit a; NotPlus c; Lit b; NotPlus d] t = Some (p, q) →
  ∃ k, occ a t p ∧ 1 ≤ k
    ∧ (∀ j, p + length a ≤ j < p + length a + k → t !! j ≠ Some c)
    ∧ occ b t (p + length a + k)
    ∧ p + length a + k + length b < q ≤ length t
    ∧ (∀ j, p + length a + k + length b ≤ j < q → t !! j ≠ Some d)
    ∧ (∀ x, t !! q = Some x → x = d).
Proof.
  intros Hs. pose proof (search_Some _ _ _ _ Hs) as (Hpq & Hq & Hm & _).
  apply match_at_anchor in Hm as (Ha & k & Hk & Hc & Hb & Hn & Hd).
  rewrite length_drop in Hn.
  exists k. split_and!.
  - apply (proj1 (occ_drop _ _ _ _)) in Ha. by rewrite Nat.add_0_r in Ha.
  - done.
  - intros j Hj. specialize (Hc (j - p) ltac:(lia)). rewrite lookup_drop in Hc.
    by replace (p + (j - p)) with j in Hc by lia.
  - apply (proj1 (occ_drop _ _ _ _)) in Hb.
    by replace (p + length a + k) with (p + (length a + k)) by lia.
  - lia.
  - done.
  - intros j Hj. specialize (Hd (j - p) ltac:(lia)). rewrite lookup_drop in Hd.
    by replace (p + (j - p)) with j in Hd by lia.
  - intros x Hx.
    by apply (search_stop [Lit a; NotPlus c; Lit b] d t p q x).
Qed.

Lemma with_content_id u : with_content (project_content u) u = u.
Proof. by destruct u. Qed.

(** The occurrences of a string in a text, from a check of the positions
    of the text. *)
Lemma occ_positions s t (P : nat → Prop) :
  s ≠ [] → Forall (fun i => occ s t i → P i) (seq 0 (length t)) →
  ∀ i, occ s t i → P i.
Proof.
  intros Hs Hall i Ho. rewrite Forall_forall in Hall. apply Hall; [|done].
  apply elem_of_seq. destruct (occ_bound _ _ _ Ho) as [Hb|Hb].
  - destruct s; [done|]. simpl in Hb. lia.
  - by destruct s.
Qed.

Lemma join_lines (l : list text) :
  l ≠ [] → join [LF] l ++ [LF] = concat ((fun x => x ++ [LF]) <$> l).
Proof.
  induction l as [|x [|y l] IH]; [done| |]; intros _.
  - simpl. by rewrite app_nil_r.
  - rewrite join_cons2, fmap_cons. cbn [concat]. rewrite <- IH by done.
    by rewrite <- !app_assoc.
Qed.

Lemma insert_before_marker (g : file_info → text) s fs t p p' :
  s ≠ [] → fs ≠ [] → search [Lit s] t = Some (p, p') →
  splice t p (join [LF] (g <$> fs) ++ [LF])
  = take p t ++ concat ((fun f => g f ++ [LF]) <$> fs) ++ s ++ drop p' t
  ∧ t = take p t ++ s ++ drop p' t
  ∧ ∀ a, a < p → ¬ occ s t a.
Proof.
  intros Hs0 Hfs Hs. apply search_lit_Some in Hs as (-> & Ho & Hfirst).
  pose proof (occ_decompose _ _ _ Ho) as Ht.
  assert (Hp : p ≤ length t).
  { destruct (occ_bound _ _ _ Ho) as [Hb|Hb]; [lia|by destruct s]. }
  assert (Hd : drop p t = s ++ drop (p + length s) t).
  { rewrite Ht at 1. apply drop_app_length'. rewrite length_take. lia. }
  split_and!; [|done|done].
  unfold splice. f_equal. rewrite join_lines by (by destruct fs).
  rewrite <- list_fmap_compose. by rewrite Hd.
Qed.

(** X12. Where the new lines of the first two insertions go.  With the
    insertion point the search returns, the text after the insertion is
    the text in front of the first occurrence of the end-marker, then one
    line per pending file in the order of the list, each closed by a
    newline, then the end-marker and what followed it. *)
Theorem entries_before_end_markers fs t :
  fs ≠ [] →
  (∀ p p', search build_section_pattern t = Some (p, p') →
     insert_build_files fs p t
     = take p t ++ concat ((fun f => build_entry f ++ [LF]) <$> fs)
       ++ BUILD_END ++ drop p' t
     ∧ t = take p t ++ BUILD_END ++ drop p' t
     ∧ ∀ a, a < p → ¬ occ BUILD_END t a)
  ∧ (∀ q q', search file_ref_section_pattern t = Some (q, q') →
     insert_file_refs fs q t
     = take q t ++ concat ((fun f => file_ref_entry f ++ [LF]) <$> fs)
       ++ FILE_REF_END ++ drop q' t
     ∧ t = take q t ++ FILE_REF_END ++ drop q' t
     ∧ ∀ a, a < q → ¬ occ FILE_REF_END t a).
Proof.
  intros Hfs. split; intros p p' Hs.
  - by apply (insert_before_marker build_entry BUILD_END).
  - by apply (insert_before_marker file_ref_entry FILE_REF_END).
Qed.

Lemma entries_before_end_markers_witness :
  let fs := tokens_for Samples.rt 0 (pending_of Samples.manifest Samples.tree) in
  let t := Samples.manifest in
  fs ≠ []
  ∧ search build_section_pattern t = Some (33, 63)
  ∧ (∀ p p', search build_section_pattern t = Some (p, p') →
       insert_build_files fs p t
       = take p t ++ concat ((fun f => build_entry f ++ [LF]) <$> fs)
         ++ BUILD_END ++ drop p' t
       ∧ t = take p t ++ BUILD_END ++ drop p' t
       ∧ ∀ a, a < p → ¬ occ BUILD_END t a)
  ∧ (∀ q q', search file_ref_section_pattern t = Some (q, q') →
       insert_file_refs fs q t
       = take q t ++ concat ((fun f => file_ref_entry f ++ [LF]) <$> fs)
         ++ FILE_REF_END ++ drop q' t
       ∧ t = take q t ++ FILE_REF_END ++ drop q' t
       ∧ ∀ a, a < q → ¬ occ FILE_REF_END t a).
Proof.
  intros fs t.
  assert (Hfs : fs ≠ []) by (vm_compute; discriminate).
  split; [exact Hfs|]. split; [vm_compute; reflexivity|].
  exact (entries_before_end_markers fs t Hfs).
Defined.

(** X13. Where the build-phase lines go.  [insert_sources] either leaves
    the text as it is, or it has found the leftmost match of its pattern:
    [/* Sources */ = {], then [files = (] with no [}] in between, then a
    non-empty run without [)]; the new lines, each led by a newline, are put
    at the end of that run, in front of the first [)] behind [files = (]
    (or at the end of the text). *)
Theorem sources_entries_placement fs t :
  let block := [LF] ++ join [LF] (sources_entry <$> fs) in
  insert_sources fs t = t
  ∨ ∃ a b pos,
      occ (str "/* Sources */ = {") t a
      ∧ a + 17 < b
      ∧ (∀ j, a + 17 ≤ j < b → t !! j ≠ Some "}")
      ∧ occ (str "files = (") t b
      ∧ b + 9 < pos ≤ length t
      ∧ (∀ j, b + 9 ≤ j < pos → t !! j ≠ Some ")")
      ∧ (∀ x, t !! pos = Some x → x = ")")
      ∧ (∀ a', a' < a → match_at sources_pattern (drop a' t) = None)
      ∧ insert_sources fs t = take pos t ++ block ++ drop pos t.
Proof.
  intros block. unfold insert_sources.
  destruct (search _ _) as [[a q]|] eqn:Hs; [right|by left].
  pose proof (search_Some _ _ _ _ Hs) as (_ & _ & _ & Hfirst).
  apply search_anchor in Hs as (k & Ha & Hk & Hc & Hb & Hq & Hd & Hstop).
  change (length (str "/* Sources */ = {")) with 17 in *.
  change (length (str "files = (")) with 9 in *.
  exists a, (a + 17 + k), q.
  split_and!; try done; lia.
Qed.

(** X14. An empty file list is never filled: the pattern wants at least
    one character other than [)] behind [files = (], so on a text in which
    every [files = (] is directly followed by [)], [insert_sources] changes
    nothing. *)
Theorem sources_empty_list_not_filled fs t :
  (∀ b, occ (str "files = (") t b → t !! (b + 9) = Some ")") →
  insert_sources fs t = t.
Proof.
  intros Hempty. unfold insert_sources.
  destruct (search _ _) as [[a q]|] eqn:Hs; [|done]. exfalso.
  apply search_anchor in Hs as (k & Ha & Hk & Hc & Hb & Hq & Hd & Hstop).
  change (length (str "files = (")) with 9 in *.
  apply (Hd (a + length (str "/* Sources */ = {") + k + 9)); [lia|].
  by apply Hempty.
Qed.

Lemma sources_empty_list_not_filled_witness :
  let t := str "CC /* Sources */ = {isa = PBXSourcesBuildPhase; files = (); };" in
  let fs := tokens_for Samples.rt 0 [new_file [Samples.Foo]] in
  (∀ b, occ (str "files = (") t b → t !! (b + 9) = Some ")")
  ∧ insert_sources fs t = t.
Proof.
  intros t fs.
  assert (H : ∀ b, occ (str "files = (") t b → t !! (b + 9) = Some ")").
  { apply (occ_positions _ t (fun b => t !! (b + 9) = Some ")")); [done|].
    by_compute. }
  split; [exact H|]. exact (sources_empty_list_not_filled fs t H).
Defined.

(** X15. A group is found only when its [children = (] comes behind its
    [path = <group>;] with no [}] in between.  On a text in which every
    [children = (] behind a [path = <group>;] is separated from it by a
    [}], as when a group's children are listed in front of its path,
    [add_files_to_group] returns normally and changes nothing, whatever is
    pending for the group. *)
Theorem group_section_not_found rt g u w :
  plain_name g →
  (∀ a b, occ (PATH_EQ ++ g ++ str ";") (project_content u) a →
          occ (str "children = (") (project_content u) b →
          a + length (PATH_EQ ++ g ++ str ";") < b →
          ∃ j, (a + length (PATH_EQ ++ g ++ str ";") ≤ j < b)
               ∧ project_content u !! j = Some "}") →
  add_files_to_group rt g u w = (Return tt, u, w).
Proof.
  intros Hg Hsep. rewrite add_files_to_group_plain by done.
  unfold insert_group. case_decide; [by rewrite with_content_id|].
  destruct (search _ _) as [[a b]|] eqn:Hs; [|by rewrite with_content_id].
  exfalso. apply search_anchor in Hs as (k & Ha & Hk & Hc & Hb & _).
  unfold PATH_EQ in Hsep.
  destruct (Hsep a _ Ha Hb) as (j & Hj & Hbrace); [lia|].
  by apply (Hc j).
Qed.

Lemma group_section_not_found_witness :
  let t := str "BB = {children = (x); path = Core; };" in
  let u := {| project_content := t;
              files_to_add := [new_file [str "Core"; Samples.Foo]];
              existing_files := ∅ |} in
  let w := Samples.world_of None [] in
  let g := str "Core" in
  plain_name g
  ∧ (∀ a b, occ (PATH_EQ ++ g ++ str ";") (project_content u) a →
            occ (str "children = (") (project_content u) b →
            a + length (PATH_EQ ++ g ++ str ";") < b →
            ∃ j, (a + length (PATH_EQ ++ g ++ str ";") ≤ j < b)
                 ∧ project_content u !! j = Some "}")
  ∧ filter (fun f => group f = g) (files_to_add u) ≠ []
  ∧ add_files_to_group Samples.rt g u w = (Return tt, u, w).
Proof.
  intros t u w g.
  assert (Hg : plain_name g) by by_compute.
  assert (Hsep : ∀ a b, occ (PATH_EQ ++ g ++ str ";") (project_content u) a →
            occ (str "children = (") (project_content u) b →
            a + length (PATH_EQ ++ g ++ str ";") < b →
            ∃ j, (a + length (PATH_EQ ++ g ++ str ";") ≤ j < b)
                 ∧ project_content u !! j = Some "}").
  { intros a b Ha Hb Hab. exfalso.
    assert (a = 22).
    { revert Ha. apply (occ_positions _ t (fun a => a = 22)); [done|]. by_compute. }
    assert (b = 6).
    { revert Hb. apply (occ_positions _ t (fun b => b = 6)); [done|]. by_compute. }
    lia. }
  split_and!; [exact Hg | exact Hsep | done |].
  exact (group_section_not_found Samples.rt g u w Hg Hsep).
Defined.

(** X16. Where the lines of a group go.  For a group name without
    metacharacters [add_files_to_group] returns normally and leaves the
    pending list alone; it either changes nothing, or it has found
    [path = <group>;], then [children = (] with no [}] in between, then a
    non-empty run without [)], and puts the group's lines, each led by a
    newline, at the end of that run: in front of the first [)] behind
    [children = (], or at the end of the text. *)
Theorem group_entries_placement rt g u w :
  plain_name g →
  let t := project_content u in
  let block :=
    [LF] ++ join [LF] (group_entry <$> filter (fun f => group f = g) (files_to_add u)) in
  ∃ u', add_files_to_group rt g u w = (Return tt, u', w)
    ∧ files_to_add u' = files_to_add u
    ∧ (u' = u
       ∨ ∃ a b pos,
           occ (PATH_EQ ++ g ++ str ";") t a
           ∧ a + length (PATH_EQ ++ g ++ str ";") < b
           ∧ (∀ j, a + length (PATH_EQ ++ g ++ str ";") ≤ j < b → t !! j ≠ Some "}")
           ∧ occ (str "children = (") t b
           ∧ b + 12 < pos ≤ length t
           ∧ (∀ j, b + 12 ≤ j < pos → t !! j ≠ Some ")")
           ∧ (∀ x, t !! pos = Some x → x = ")")
           ∧ project_content u' = take pos t ++ block ++ drop pos t).
Proof.
  intros Hg t block. rewrite add_files_to_group_plain by done.
  eexists. split; [done|]. split; [done|].
  unfold insert_group. fold t. case_decide; [left; apply with_content_id|].
  destruct (search _ _) as [[a q]|] eqn:Hs; [right|left; apply with_content_id].
  apply search_anchor in Hs as (k & Ha & Hk & Hc & Hb & Hq & Hd & Hstop).
  exists a, (a + length (str "path = " ++ g ++ str ";") + k), q.
  unfold PATH_EQ. change (length (str "children = (")) with 12 in Hq, Hd.
  split_and!; try done; lia.
Qed.

Lemma group_entries_placement_witness :
  let g := str "Core" in
  let u := {| project_content := Samples.manifest;
              files_to_add := tokens_for Samples.rt 0 [new_file [str "Core"; Samples.Foo]];
              existing_files := ∅ |} in
  let w := Samples.world_of None [] in
  let t := project_content u in
  let block :=
    [LF] ++ join [LF] (group_entry <$> filter (fun f => group f = g) (files_to_add u)) in
  plain_name g
  ∧ ∃ u', add_files_to_group Samples.rt g u w = (Return tt, u', w)
      ∧ files_to_add u' = files_to_add u
      ∧ (u' = u
         ∨ ∃ a b pos,
             occ (PATH_EQ ++ g ++ str ";") t a
             ∧ a + length (PATH_EQ ++ g ++ str ";") < b
             ∧ (∀ j, a + length (PATH_EQ ++ g ++ str ";") ≤ j < b → t !! j ≠ Some "}")
             ∧ occ (str "children = (") t b
             ∧ b + 12 < pos ≤ length t
             ∧ (∀ j, b + 12 ≤ j < pos → t !! j ≠ Some ")")
             ∧ (∀ x, t !! pos = Some x → x = ")")
             ∧ project_content u' = take pos t ++ block ++ drop pos t).
Proof.
  intros g u w t block.
  assert (Hg : plain_name g) by by_compute.
  split; [exact Hg|]. exact (group_entries_placement Samples.rt g u w Hg).
Defined.

(** ** [run] and [main] *)

Lemma foldl_log_console w ls : console (foldl log w ls) = console w ++ ls.
Proof.
  revert w. induction ls as [|l ls IH]; intros w; [by rewrite app_nil_r|].
  cbn [foldl]. rewrite IH. cbn [console log]. by rewrite <- app_assoc.
Qed.

(** The world [update_project] leaves when files are pending: two draws
    per file, and one line printed when an end-marker is missing. *)
Lemma update_project_world rt u w :
  files_to_add u ≠ [] →
  let w1 := drawn w (2 * length (files_to_add u)) in
  ∃ r u',
    update_project rt u w =
    (r, u',
     if decide (is_Some (search build_section_pattern (project_content u))
                ∧ is_Some (search file_ref_section_pattern (project_content u)))
     then w1 else log w1 (str "Could not find proper insertion points")).
Proof.
  intros Hfs w1. rewrite update_project_eq by done. cbv zeta. fold w1.
  destruct (search build_section_pattern _) as [[p p']|] eqn:Hb.
  - destruct (search file_ref_section_pattern (project_content u))
      as [[q0 q0']|] eqn:Hf.
    + rewrite decide_True by (split; by eexists).
      destruct (search file_ref_section_pattern (insert_build_files _ _ _))
        as [[q q']|].
      * match goal with
        | |- context [for_each ?gs _ ?u2 ?w2] =>
            destruct (for_each_groups_inv rt gs u2 w2) as (r & u' & Hfe & _)
        end.
        rewrite Hfe. by eexists _, _.
      * by eexists _, _.
    + rewrite decide_False by (intros [_ [? [=]]]). by eexists _, _.
  - rewrite decide_False by (intros [[? [=]] _]). by eexists _, _.
Qed.

(** What [write_project] leaves alone, and what a normal return says. *)
Lemma write_project_frame u w r u' w' :
  write_project u w = (r, u', w') →
  u' = u ∧ console w' = console w ∧ draws w' = draws w
  ∧ voice_control (disk w') = voice_control (disk w).
Proof.
  unfold write_project. destruct (open_w (disk w)) as [rd|e].
  - destruct (utf8 (project_content u)); intros [= <- <- <-]; done.
  - intros [= <- <- <-]. done.
Qed.

Lemma write_project_Return u w u' w' :
  write_project u w = (Return tt, u', w') →
  ∃ rd, open_w (disk w) = Return rd ∧ utf8 (project_content u) = true
    ∧ w' = stored w rd (written (project_content u)).
Proof.
  unfold write_project. destruct (open_w (disk w)) as [rd|e]; [|done].
  destruct (utf8 (project_content u)); [|done]. intros [= <- <-]. by exists rd.
Qed.

Lemma write_project_Raise u w e u' w' :
  write_project u w = (Raise e, u', w') →
  disk w' = disk w
  ∨ (e = UnicodeEncodeError ∧ utf8 (project_content u) = false
     ∧ ∃ rd, open_w (disk w) = Return rd
        ∧ xcodeproj (disk w') = Some (Regular [] rd true)
        ∧ voice_control (disk w') = voice_control (disk w)).
Proof.
  unfold write_project. destruct (open_w (disk w)) as [rd|e1] eqn:Ho.
  - destruct (utf8 (project_content u)) eqn:Hu; [done|]. intros [= <- <- <-].
    right. split_and!; [done|done|]. by exists rd.
  - intros [= <- <- <-]. by left.
Qed.

(** X17. When [VoiceControl.xcodeproj] exists and the manifest in it
    cannot be read, [main] does not return: [read_project] raises after the
    first progress line, and nothing else has happened.  The exception is
    that of [open] or of the decoder: [NotADirectoryError] when
    [VoiceControl.xcodeproj] is not a directory, [FileNotFoundError] when
    it has no [project.pbxproj], [IsADirectoryError] when that is a
    directory, [PermissionError] when it may not be read, and
    [UnicodeDecodeError] when its bytes are not well-formed UTF-8. *)
Theorem main_unreadable_manifest rt w m e :
  xcodeproj (disk w) = Some m →
  read_text (disk w) = Raise e →
  main rt w = (Raise e, log w (str "Reading project file..."))
  ∧ run rt init w = (Raise e, init, log w (str "Reading project file..."))
  ∧ e = match m with
        | NotADirectory => NotADirectoryError
        | Absent _ => FileNotFoundError
        | Folder => IsADirectoryError
        | Regular _ readable _ =>
            if readable then UnicodeDecodeError else PermissionError
        end.
Proof.
  intros Hm He.
  pose proof (run_unreadable rt w e He) as Hrun.
  split_and!; [|done|].
  - unfold main. by rewrite Hm, Hrun.
  - unfold read_text in He. rewrite Hm in He.
    destruct m as [|cr| |b r wr]; try (by injection He as <-).
    destruct r; [|by injection He as <-].
    destruct (utf8 b); [done|by injection He as <-].
Qed.

Lemma main_unreadable_manifest_witness :
  let w := Samples.world_of (Some Folder) Samples.tree in
  xcodeproj (disk w) = Some Folder
  ∧ read_text (disk w) = Raise IsADirectoryError
  ∧ main Samples.rt w
    = (Raise IsADirectoryError, log w (str "Reading project file..."))
  ∧ run Samples.rt init w
    = (Raise IsADirectoryError, init, log w (str "Reading project file..."))
  ∧ IsADirectoryError
    = match Folder with
      | NotADirectory => NotADirectoryError
      | Absent _ => FileNotFoundError
      | Folder => IsADirectoryError
      | Regular _ readable _ =>
          if readable then UnicodeDecodeError else PermissionError
      end.
Proof.
  split; [reflexivity|]. split; [reflexivity|].
  exact (main_unreadable_manifest Samples.rt
           (Samples.world_of (Some Folder) Samples.tree) Folder IsADirectoryError
           eq_refl eq_refl).
Defined.

(** X18. What a run with pending files prints when it returns: the three
    progress lines, the count and the path of every pending file in scan
    order, the update line, the line about the insertion points exactly
    when an end-marker is missing from the text read, and then the write
    line and the closing lines, [Project updated successfully!] among them,
    in either case. *)
Theorem run_console rt w c u' w' :
  read_text (disk w) = Return c →
  let t := universal_newlines c in
  let fs0 := pending_of t (voice_control (disk w)) in
  fs0 ≠ [] →
  run rt init w = (Return tt, u', w') →
  console w' =
    console w
    ++ [str "Reading project file..."; str "Extracting existing files...";
        str "Finding new Swift files...";
        LF :: str "Found " ++ decimal (length fs0) ++ str " new files to add:"]
    ++ ((fun f => str "  - " ++ path f) <$> fs0)
    ++ [LF :: str "Updating project file..."]
    ++ (if decide (is_Some (search build_section_pattern t)
                   ∧ is_Some (search file_ref_section_pattern t))
        then [] else [str "Could not find proper insertion points"])
    ++ [str "Writing updated project file...";
        LF :: str "Project updated successfully!";
        LF :: str "Next steps:";
        str "1. Open Xcode and verify the files appear correctly";
        str "2. Build the project to ensure everything compiles";
        str "3. If needed, manually adjust file locations in Xcode"].
Proof.
  intros Hc t fs0 Hne Hrun.
  pose proof (run_eq rt w c Hc) as Heq. cbv zeta in Heq.
  rewrite decide_False in Heq by done. rewrite Heq in Hrun. clear Heq.
  destruct (update_project_world rt
              (scanned_updater (universal_newlines c) (voice_control (disk w)))
              (announced w fs0) Hne) as (r & u1 & Hup).
  cbn [scanned_updater files_to_add project_content] in Hup, Hrun.
  fold t fs0 in Hup, Hrun. rewrite Hup in Hrun.
  destruct r as [[]|e]; [|done].
  destruct (write_project u1 _) as [[[[]|e] u2] w2] eqn:Hwr; [|done].
  injection Hrun as <- <-.
  destruct (write_project_frame _ _ _ _ _ Hwr) as (_ & Hcon & _).
  cbn [console finished log]. rewrite Hcon.
  case_decide; cbn [console log drawn]; unfold announced, scanned;
    cbn [console log]; rewrite foldl_log_console; cbn [console log];
    rewrite <- !app_assoc; done.
Qed.

Lemma run_console_witness :
  let c := Samples.manifest in
  let w := Samples.world_of (Samples.file c) Samples.tree in
  let r := run Samples.rt init w in
  let t := universal_newlines c in
  let fs0 := pending_of t (voice_control (disk w)) in
  read_text (disk w) = Return c
  ∧ fs0 ≠ []
  ∧ r = (Return tt, r.1.2, r.2)
  ∧ console r.2 =
      console w
      ++ [str "Reading project file..."; str "Extracting existing files...";
          str "Finding new Swift files...";
          LF :: str "Found " ++ decimal (length fs0) ++ str " new files to add:"]
      ++ ((fun f => str "  - " ++ path f) <$> fs0)
      ++ [LF :: str "Updating project file..."]
      ++ (if decide (is_Some (search build_section_pattern t)
                     ∧ is_Some (search file_ref_section_pattern t))
          then [] else [str "Could not find proper insertion points"])
      ++ [str "Writing updated project file...";
          LF :: str "Project updated successfully!";
          LF :: str "Next steps:";
          str "1. Open Xcode and verify the files appear correctly";
          str "2. Build the project to ensure everything compiles";
          str "3. If needed, manually adjust file locations in Xcode"].
Proof.
  intros c w r t fs0.
  assert (H1 : read_text (disk w) = Return c) by reflexivity.
  assert (H2 : fs0 ≠ []) by (vm_compute; discriminate).
  assert (H3 : r = (Return tt, r.1.2, r.2)) by (vm_compute; reflexivity).
  split_and!; [exact H1 | exact H2 | exact H3 |].
  exact (run_console Samples.rt w c _ _ H1 H2 H3).
Defined.

(** X19. What a run with pending files leaves when it returns: the
    manifest file holds the text of the object, of which the text read is
    a subsequence; the source tree is as before; the existing-entry set is
    the one extracted from the text read, not extended by the files added;
    every pending record carries its two identifiers, and two random draws
    per pending file have been made. *)
Theorem run_writes_what_it_holds rt w c u' w' :
  read_text (disk w) = Return c →
  let t := universal_newlines c in
  let fs0 := pending_of t (voice_control (disk w)) in
  fs0 ≠ [] →
  run rt init w = (Return tt, u', w') →
  xcodeproj (disk w') = Some (Regular (project_content u') true true)
  ∧ voice_control (disk w') = voice_control (disk w)
  ∧ t `sublist_of` project_content u'
  ∧ existing_files u' = existing_of t
  ∧ files_to_add u' = tokens_for rt (draws w) fs0
  ∧ draws w' = draws w + 2 * length fs0.
Proof.
  intros Hc t fs0 Hne Hrun.
  pose proof (run_eq rt w c Hc) as Heq. cbv zeta in Heq.
  rewrite decide_False in Heq by done. rewrite Heq in Hrun. clear Heq.
  set (u0 := scanned_updater (universal_newlines c) (voice_control (disk w))) in *.
  destruct (update_project_inv rt u0 (announced w fs0))
    as (r & u1 & w1 & Hup & Hdisk & Hex & Hsub).
  destruct (update_project_files rt u0 (announced w fs0) Hne) as [Hfs Hdr].
  change (files_to_add u0) with fs0 in Hrun, Hfs, Hdr.
  rewrite Hup in Hrun, Hfs, Hdr. cbn [fst snd] in Hfs, Hdr.
  destruct r as [[]|e]; [|done].
  destruct (write_project u1 _) as [[[[]|e] u2] w2] eqn:Hwr; [|done].
  injection Hrun as <- <-.
  destruct (write_project_frame _ _ _ _ _ Hwr) as (-> & _ & _ & _).
  destruct (write_project_Return _ _ _ _ Hwr) as (rd & Hopen & Hutf & ->).
  assert (Hd : disk (log w1 (str "Writing updated project file...")) = disk w).
  { cbn [disk log]. by rewrite Hdisk, announced_disk. }
  rewrite Hd in Hopen.
  destruct (read_write_state _ _ Hc (ex_intro _ rd Hopen)) as [_ Hopen'].
  rewrite Hopen in Hopen'. injection Hopen' as ->.
  cbn [disk draws finished stored log xcodeproj voice_control written].
  rewrite Hdisk, announced_disk, Hdr, announced_draws in *.
  split_and!; done.
Qed.

Lemma run_writes_what_it_holds_witness :
  let c := Samples.manifest in
  let w := Samples.world_of (Samples.file c) Samples.tree in
  let r := run Samples.rt init w in
  let t := universal_newlines c in
  let fs0 := pending_of t (voice_control (disk w)) in
  read_text (disk w) = Return c
  ∧ fs0 ≠ []
  ∧ r = (Return tt, r.1.2, r.2)
  ∧ xcodeproj (disk r.2) = Some (Regular (project_content r.1.2) true true)
  ∧ voice_control (disk r.2) = voice_control (disk w)
  ∧ t `sublist_of` project_content r.1.2
  ∧ existing_files r.1.2 = existing_of t
  ∧ files_to_add r.1.2 = tokens_for Samples.rt (draws w) fs0
  ∧ draws r.2 = draws w + 2 * length fs0.
Proof.
  intros c w r t fs0.
  assert (H1 : read_text (disk w) = Return c) by reflexivity.
  assert (H2 : fs0 ≠ []) by (vm_compute; discriminate).
  assert (H3 : r = (Return tt, r.1.2, r.2)) by (vm_compute; reflexivity).
  split_and!; [exact H1 | exact H2 | exact H3 | ..];
    apply (run_writes_what_it_holds Samples.rt w c _ _ H1 H2 H3).
Defined.






